(** * Candle data-lifecycle engine: a shallow embedding

    The development follows the TypeScript sources:
    - [services/binance.ts]  : [toCandle], [maxCandlesForPreset],
                               [buildRestUrl], [fetchHistorical];
    - [hooks/useKlines.ts]   : [applyIncomingCandle], [loadHistory],
                               [scheduleReconnect];
    - [components/PriceChart.tsx] : the [isReset] decision of the data
                               update effect.

    JavaScript numbers are modelled by [JS.number]: the three non-finite
    values are kept apart and finite values are exact rationals (rounding
    of binary64 and the sign of zero are not modelled; every finite number
    the engine computes with is an integer count, a millisecond stamp, or
    such a stamp divided by 1000). *)

From Stdlib Require Import QArith Qround ZArith Lia Sorted Permutation.
From Stdlib Require Import Ascii String Lqa.
From stdpp Require Import base list strings gmap pretty sorting.

Local Open Scope Z_scope.

(* ===================================================================== *)
(** ** JavaScript numbers, values and the builtins the sources call      *)
(* ===================================================================== *)

Module JS.

Inductive number : Type :=
| NaN
| NegInf
| Fin (q : Q)
| PosInf.

Definition num (z : Z) : number := Fin (inject_Z z).
Definition of_nat (n : nat) : number := num (Z.of_nat n).

Definition Qlt_bool (x y : Q) : bool := negb (Qle_bool y x).

(** [a < b] *)
Definition lt (a b : number) : bool :=
  match a, b with
  | NaN, _ | _, NaN => false
  | NegInf, NegInf => false
  | NegInf, _ => true
  | Fin _, NegInf => false
  | Fin x, Fin y => Qlt_bool x y
  | Fin _, PosInf => true
  | PosInf, _ => false
  end.

(** [a > b] *)
Definition gt (a b : number) : bool := lt b a.

(** [a <= b] *)
Definition le (a b : number) : bool :=
  match a, b with
  | NaN, _ | _, NaN => false
  | NegInf, _ => true
  | Fin _, NegInf => false
  | Fin x, Fin y => Qle_bool x y
  | Fin _, PosInf => true
  | PosInf, PosInf => true
  | PosInf, _ => false
  end.

(** [a === b] on numbers *)
Definition strict_eq (a b : number) : bool :=
  match a, b with
  | NegInf, NegInf => true
  | Fin x, Fin y => Qeq_bool x y
  | PosInf, PosInf => true
  | _, _ => false
  end.

(** [a !== b] on numbers *)
Definition strict_ne (a b : number) : bool := negb (strict_eq a b).

(** unary minus *)
Definition neg (a : number) : number :=
  match a with
  | NaN => NaN
  | NegInf => PosInf
  | Fin q => Fin (- q)
  | PosInf => NegInf
  end.

Definition add (a b : number) : number :=
  match a, b with
  | NaN, _ | _, NaN => NaN
  | PosInf, NegInf | NegInf, PosInf => NaN
  | PosInf, _ | _, PosInf => PosInf
  | NegInf, _ | _, NegInf => NegInf
  | Fin x, Fin y => Fin (x + y)
  end.

Definition sub (a b : number) : number := add a (neg b).

(** the infinity whose sign is that of the finite, non-zero [q] *)
Definition inf_signed (positive : bool) : number :=
  if positive then PosInf else NegInf.

Definition mul (a b : number) : number :=
  match a, b with
  | NaN, _ | _, NaN => NaN
  | Fin x, Fin y => Fin (x * y)
  | PosInf, PosInf | NegInf, NegInf => PosInf
  | PosInf, NegInf | NegInf, PosInf => NegInf
  | PosInf, Fin y | Fin y, PosInf =>
      if Qeq_bool y 0 then NaN else inf_signed (Qlt_bool 0 y)
  | NegInf, Fin y | Fin y, NegInf =>
      if Qeq_bool y 0 then NaN else inf_signed (Qlt_bool y 0)
  end.

Definition div (a b : number) : number :=
  match a, b with
  | NaN, _ | _, NaN => NaN
  | Fin x, Fin y =>
      if Qeq_bool y 0
      then (if Qeq_bool x 0 then NaN else inf_signed (Qlt_bool 0 x))
      else Fin (x / y)
  | Fin _, _ => Fin 0
  | PosInf, Fin y => inf_signed (Qle_bool 0 y)
  | NegInf, Fin y => inf_signed (Qlt_bool y 0)
  | _, _ => NaN
  end.

Definition isFinite (a : number) : bool :=
  match a with Fin _ => true | _ => false end.

Definition is_nan (a : number) : bool :=
  match a with NaN => true | _ => false end.

(** a number is truthy unless it is zero or NaN *)
Definition truthy (a : number) : bool :=
  match a with
  | NaN => false
  | Fin q => negb (Qeq_bool q 0)
  | _ => true
  end.

Definition Math_ceil (a : number) : number :=
  match a with Fin q => num (Qceiling q) | _ => a end.

Definition Math_floor (a : number) : number :=
  match a with Fin q => num (Qfloor q) | _ => a end.

(** [Math.round]: the nearest integer, ties towards plus infinity *)
Definition Math_round (a : number) : number :=
  match a with Fin q => num (Qfloor (q + (1 # 2))) | _ => a end.

Definition Math_min (a b : number) : number :=
  match a, b with
  | NaN, _ | _, NaN => NaN
  | _, _ => if lt b a then b else a
  end.

(** *** ToIntegerOrInfinity and [Array.prototype.slice] *)

Inductive intinf : Type :=
| IMinus
| IInt (z : Z)
| IPlus.

Definition Qtrunc (q : Q) : Z :=
  if Qle_bool 0 q then Qfloor q else Qceiling q.

Definition ToIntegerOrInfinity (a : number) : intinf :=
  match a with
  | NaN => IInt 0
  | NegInf => IMinus
  | Fin q => IInt (Qtrunc q)
  | PosInf => IPlus
  end.

(** the index a relative start or end denotes in an array of [len] items *)
Definition relative_index (len : nat) (r : intinf) : nat :=
  match r with
  | IMinus => 0%nat
  | IInt z =>
      if z <? 0 then Z.to_nat (Z.max (Z.of_nat len + z) 0)
      else Z.to_nat (Z.min z (Z.of_nat len))
  | IPlus => len
  end.

(** [l.slice(start, end)]; [end] is [None] when the argument is absent *)
Definition slice {A} (l : list A) (start : number) (end_ : option number)
  : list A :=
  let len := length l in
  let k := relative_index len (ToIntegerOrInfinity start) in
  let final :=
    match end_ with
    | None => len
    | Some e => relative_index len (ToIntegerOrInfinity e)
    end in
  take (final - k) (drop k l).

(** *** Values met in a decoded JSON record *)

Inductive value : Type :=
| VUndefined
| VNull
| VBool (b : bool)
| VNumber (n : number)
| VString (s : string).

(** [row[i]]: reading past the end of an array gives [undefined] *)
Definition index (row : list value) (i : nat) : value :=
  default VUndefined (row !! i).

(** *** Numeric literals in strings (StrDecimalLiteral) *)

Definition digit_val (radix : Z) (c : ascii) : option Z :=
  let n := Z.of_N (Ascii.N_of_ascii c) in
  let d :=
    if (48 <=? n) && (n <=? 57) then Some (n - 48)
    else if (97 <=? n) && (n <=? 122) then Some (n - 87)
    else if (65 <=? n) && (n <=? 90) then Some (n - 55)
    else None in
  match d with
  | Some v => if v <? radix then Some v else None
  | None => None
  end.

(** the longest run of digits at the head of [s], and what follows it *)
Fixpoint read_digits (radix : Z) (s : list ascii) : list Z * list ascii :=
  match s with
  | [] => ([], [])
  | c :: s' =>
      match digit_val radix c with
      | Some d => let '(ds, r) := read_digits radix s' in (d :: ds, r)
      | None => ([], s)
      end
  end.

Definition digits_value (radix : Z) (ds : list Z) : Z :=
  foldl (fun acc d => radix * acc + d) 0 ds.

Definition is_space (c : ascii) : bool :=
  let n := Z.of_N (Ascii.N_of_ascii c) in
  ((9 <=? n) && (n <=? 13)) || (n =? 32).

Fixpoint skip_ws (s : list ascii) : list ascii :=
  match s with
  | c :: s' => if is_space c then skip_ws s' else s
  | [] => []
  end.

Definition trim (s : list ascii) : list ascii :=
  reverse (skip_ws (reverse (skip_ws s))).

Fixpoint strip_prefix (p s : list ascii) : option (list ascii) :=
  match p, s with
  | [] , _ => Some s
  | a :: p', b :: s' => if Ascii.eqb a b then strip_prefix p' s' else None
  | _ :: _, [] => None
  end.

Definition chars (s : string) : list ascii := list_ascii_of_string s.

(** ExponentPart; an [e] that is not followed by digits is not consumed *)
Definition parse_exponent (s : list ascii) : Z * list ascii :=
  match s with
  | c :: r =>
      if Ascii.eqb c "e"%char || Ascii.eqb c "E"%char then
        let '(negative, r1) :=
          match r with
          | sg :: r' =>
              if Ascii.eqb sg "-"%char then (true, r')
              else if Ascii.eqb sg "+"%char then (false, r')
              else (false, r)
          | [] => (false, r)
          end in
        let '(ds, r2) := read_digits 10 r1 in
        match ds with
        | [] => (0, s)
        | _ => ((if negative then - digits_value 10 ds
                 else digits_value 10 ds), r2)
        end
      else (0, s)
  | [] => (0, s)
  end.

(** StrUnsignedDecimalLiteral at the head of [s] *)
Definition parse_unsigned (s : list ascii) : option (number * list ascii) :=
  match strip_prefix (chars "Infinity") s with
  | Some r => Some (PosInf, r)
  | None =>
      let '(ip, r1) := read_digits 10 s in
      let '(fp, r2) :=
        match r1 with
        | c :: r =>
            if Ascii.eqb c "."%char then
              let '(f, r') := read_digits 10 r in
              match ip, f with
              | [], [] => ([], r1)
              | _, _ => (f, r')
              end
            else ([], r1)
        | [] => ([], r1)
        end in
      match ip, fp with
      | [], [] => None
      | _, _ =>
          let '(e, r3) := parse_exponent r2 in
          let mant := (inject_Z (digits_value 10 (ip ++ fp))
                       / Qpower 10 (Z.of_nat (length fp)))%Q in
          Some (Fin (mant * Qpower 10 e)%Q, r3)
      end
  end.

(** StrDecimalLiteral: an optional sign, then the unsigned literal *)
Definition parse_signed (s : list ascii) : option (number * list ascii) :=
  match s with
  | c :: r =>
      if Ascii.eqb c "-"%char then
        match parse_unsigned r with
        | Some (n, r') => Some (neg n, r')
        | None => None
        end
      else if Ascii.eqb c "+"%char then parse_unsigned r
      else parse_unsigned s
  | [] => None
  end.

(** [0x], [0o], [0b] literals, accepted by ToNumber only *)
Definition parse_radix_literal (s : list ascii) : option number :=
  match s with
  | z :: x :: r =>
      if Ascii.eqb z "0"%char then
        let radix :=
          if Ascii.eqb x "x"%char || Ascii.eqb x "X"%char then Some 16
          else if Ascii.eqb x "o"%char || Ascii.eqb x "O"%char then Some 8
          else if Ascii.eqb x "b"%char || Ascii.eqb x "B"%char then Some 2
          else None in
        match radix with
        | Some rd =>
            match read_digits rd r with
            | (d :: ds, []) => Some (num (digits_value rd (d :: ds)))
            | _ => Some NaN
            end
        | None => None
        end
      else None
  | _ => None
  end.

(** StringToNumber: the whole trimmed string must be one literal *)
Definition StringToNumber (s : string) : number :=
  match trim (chars s) with
  | [] => num 0
  | t =>
      match parse_radix_literal t with
      | Some n => n
      | None =>
          match parse_signed t with
          | Some (n, []) => n
          | _ => NaN
          end
      end
  end.

Definition ToNumber (v : value) : number :=
  match v with
  | VUndefined => NaN
  | VNull => num 0
  | VBool b => if b then num 1 else num 0
  | VNumber n => n
  | VString s => StringToNumber s
  end.

(** [parseFloat(v)]: the longest numeric prefix of [String(v)].  A number
    prints to a string that reads back as itself; [undefined], [null] and
    the booleans print to words with no numeric prefix. *)
Definition parseFloat (v : value) : number :=
  match v with
  | VNumber n => n
  | VString s =>
      match parse_signed (skip_ws (chars s)) with
      | Some (n, _) => n
      | None => NaN
      end
  | _ => NaN
  end.

(** *** [Array.prototype.sort] with a comparison function

    The sort is stable; a comparison result that is negative puts the
    first argument first, any other result (positive, zero or NaN) does
    not. Each item is inserted before the first item it compares below. *)

Fixpoint sort_insert {A} (comparefn : A -> A -> number) (x : A) (l : list A)
  : list A :=
  match l with
  | [] => [x]
  | y :: l' =>
      if lt (comparefn x y) (num 0) then x :: y :: l'
      else y :: sort_insert comparefn x l'
  end.

Definition Array_sort {A} (comparefn : A -> A -> number) (l : list A)
  : list A :=
  foldl (fun acc x => sort_insert comparefn x acc) [] l.

End JS.

(* ===================================================================== *)
(** ** services/binance.ts                                               *)
(* ===================================================================== *)

Module Binance.
Import JS.

(** [CandlestickData]: [{ time, open, high, low, close }] *)
Record CandlestickData : Type := mkCandle {
  time : number;
  open : number;
  high : number;
  low : number;
  close : number
}.

(** [HistoryPreset] of types.ts *)
Record HistoryPreset : Type := mkPreset {
  label : string;
  minutes : number
}.

Definition MAX_PER_REQUEST : Z := 1500.
Definition MAX_CANDLES_CAP : Z := 50000.

Definition intervalToMinutes : gmap string Z :=
  list_to_map
    [("1m"%string, 1); ("5m"%string, 5); ("15m"%string, 15);
     ("1h"%string, 60); ("4h"%string, 240); ("1d"%string, 1440)].

(** the query [buildRestUrl] encodes; [endTime] is left out when falsy *)
Record RestQuery : Type := mkQuery {
  q_symbol : string;
  q_interval : string;
  q_limit : number;
  q_endTime : option number
}.

Definition buildRestUrl (symbol interval : string) (limit : number)
    (endTime : option number) : RestQuery :=
  {| q_symbol := symbol;
     q_interval := interval;
     q_limit := limit;
     q_endTime :=
       match endTime with
       | Some t => if truthy t then Some t else None
       | None => None
       end |}.

Definition toCandle (row : list value) : CandlestickData :=
  {| time := div (ToNumber (index row 0)) (num 1000);
     open := parseFloat (index row 1);
     high := parseFloat (index row 2);
     low := parseFloat (index row 3);
     close := parseFloat (index row 4) |}.

Definition maxCandlesForPreset (preset : HistoryPreset) (interval : string)
  : number :=
  let minutes_ := num (default 1 (intervalToMinutes !! interval)) in
  if negb (isFinite (minutes preset)) then num MAX_CANDLES_CAP
  else
    let needed := Math_ceil (div (minutes preset) minutes_) in
    Math_min needed (num MAX_CANDLES_CAP).

(** what a thrown value is, as far as the callers tell them apart *)
Inductive exn : Type :=
| AbortError                      (* DOMException named AbortError *)
| Error (message : string)        (* an Error instance *)
| Thrown.                         (* anything else *)

(** what one [fetch] of a page comes to *)
Inductive response : Type :=
| Page (payload : list (list value))   (* res.ok, body decoded *)
| Status (status : Z)                  (* !res.ok *)
| Reject (e : exn).                    (* fetch or res.json() rejects *)

(** the world around one call: the two readings of [Date.now()] and the
    provider, which answers the n-th request of the call *)
Record env : Type := mkEnv {
  now_target : number;
  now_cursor : number;
  server : nat -> RestQuery -> response
}.

Definition comparefn (a b : CandlestickData) : number :=
  sub (time a) (time b).

Definition status_message (status : Z) : string :=
  ("Unable to fetch history (" +:+ pretty status +:+ ")")%string.

(** the pagination loop; [sent] are the requests issued so far.  [None]
    only when [fuel] runs out before the loop leaves. *)
Fixpoint fetch_loop (fuel : nat) (srv : nat -> RestQuery -> response)
    (sym intv : string) (targetCandles : number)
    (targetStartMs : option number) (endTime : number)
    (collected : list CandlestickData) (sent : list RestQuery)
  : option (list RestQuery * (exn + list CandlestickData)) :=
  if negb (lt (of_nat (length collected)) targetCandles)
  then Some (sent, inr collected)
  else
    match fuel with
    | O => None
    | S fuel' =>
        let remaining := sub targetCandles (of_nat (length collected)) in
        let limit := Math_min (num MAX_PER_REQUEST) remaining in
        let rq := buildRestUrl sym intv limit (Some endTime) in
        let sent' := sent ++ [rq] in
        match srv (length sent) rq with
        | Reject e => Some (sent', inl e)
        | Status st => Some (sent', inl (Error (status_message st)))
        | Page payload =>
            match payload with
            | [] => Some (sent', inr collected)
            | row0 :: _ =>
                let chunk := map toCandle payload in
                let collected' := collected ++ chunk in
                let firstOpen := ToNumber (index row0 0) in
                let endTime' := sub firstOpen (num 1) in
                if match targetStartMs with
                   | Some t => truthy t && le firstOpen t
                   | None => false
                   end
                then Some (sent', inr collected')
                else if lt (of_nat (length chunk)) limit
                then Some (sent', inr collected')
                else fetch_loop fuel' srv sym intv targetCandles
                       targetStartMs endTime' collected' sent'
            end
        end
    end.

Definition fetchHistorical (fuel : nat) (e : env) (sym intv : string)
    (preset : HistoryPreset)
  : option (list RestQuery * (exn + list CandlestickData)) :=
  let targetCandles := maxCandlesForPreset preset intv in
  let targetStartMs :=
    if isFinite (minutes preset)
    then Some (sub (now_target e)
                 (mul (mul (minutes preset) (num 60)) (num 1000)))
    else None in
  let endTime := now_cursor e in
  match fetch_loop fuel (server e) sym intv targetCandles targetStartMs
          endTime [] [] with
  | Some (sent, inr collected) =>
      Some (sent, inr (Array_sort comparefn collected))
  | other => other
  end.

End Binance.
(* ===================================================================== *)
(** ** hooks/useKlines.ts                                                *)
(* ===================================================================== *)

Module UseKlines.
Import JS Binance.

Inductive ConnectionState : Type :=
| idle
| connecting
| online
| offline
| error_.

(** *** Candle merge *)

(** the updater [applyIncomingCandle] hands to [setCandles]; [cap] is the
    memoised [maxCandlesForPreset(historyPreset, interval)] *)
Definition applyIncomingCandle (cap : number) (candle : CandlestickData)
    (prev : list CandlestickData) : list CandlestickData :=
  let last_ := last prev in
  if match last_ with
     | None => true
     | Some l => gt (time candle) (time l)
     end
  then slice (prev ++ [candle]) (neg cap) None
  else if match last_ with
          | Some l => strict_eq (time l) (time candle)
          | None => false
          end
  then slice prev (num 0) (Some (num (-1))) ++ [candle]
  else prev.

(** *** History loading *)

(** the state and refs [loadHistory] reads and writes; an abort
    controller is named by the request that created it *)
Record history : Type := mkHistory {
  candles : list CandlestickData;
  historyLoading : bool;
  error : option string;
  lastUpdated : option number;
  requestIdRef : Z;
  historyAbortRef : option Z;
  aborted : list Z
}.

Definition initial_history : history :=
  {| candles := []; historyLoading := false; error := None;
     lastUpdated := None; requestIdRef := 0; historyAbortRef := None;
     aborted := [] |}.

Definition setCandles (cs : list CandlestickData) (h : history) : history :=
  mkHistory cs (historyLoading h) (error h) (lastUpdated h)
    (requestIdRef h) (historyAbortRef h) (aborted h).

Definition setHistoryLoading (b : bool) (h : history) : history :=
  mkHistory (candles h) b (error h) (lastUpdated h)
    (requestIdRef h) (historyAbortRef h) (aborted h).

Definition setError (e : option string) (h : history) : history :=
  mkHistory (candles h) (historyLoading h) e (lastUpdated h)
    (requestIdRef h) (historyAbortRef h) (aborted h).

Definition setLastUpdated (t : number) (h : history) : history :=
  mkHistory (candles h) (historyLoading h) (error h) (Some t)
    (requestIdRef h) (historyAbortRef h) (aborted h).

(** [loadHistory] up to its [await]: the new request id, and the state *)
Definition loadHistory_begin (h : history) : Z * history :=
  let requestId := requestIdRef h + 1 in
  let aborted' :=
    match historyAbortRef h with
    | Some c => c :: aborted h
    | None => aborted h
    end in
  (requestId,
   {| candles := candles h;
      historyLoading := true;
      error := None;
      lastUpdated := lastUpdated h;
      requestIdRef := requestId;
      historyAbortRef := Some requestId;
      aborted := aborted' |}).

(** [loadHistory] from the moment [fetchHistorical] settles with [r], the
    clock reading [now]: the [try] or [catch] block, then [finally] *)
Definition loadHistory_settle (requestId : Z)
    (r : exn + list CandlestickData) (now : number) (h : history)
  : history :=
  let h1 :=
    match r with
    | inr candlesLoaded =>
        if negb (requestId =? requestIdRef h) then h
        else setLastUpdated now (setCandles candlesLoaded h)
    | inl AbortError => h
    | inl (Error message) => setError (Some message) h
    | inl Thrown =>
        setError (Some "Failed to load historical data"%string) h
    end in
  if negb (requestId =? requestIdRef h1) then h1
  else setHistoryLoading false h1.

(** what can happen to the history state between renders *)
Inductive event : Type :=
| LoadHistory                           (* bootstrap or refreshHistory *)
| Settled (requestId : Z) (r : exn + list CandlestickData) (now : number)
| Cleared                               (* bootstrap: setCandles([]) *)
| Incoming (cap : number) (candle : CandlestickData).

Definition step (h : history) (ev : event) : history :=
  match ev with
  | LoadHistory => snd (loadHistory_begin h)
  | Settled requestId r now => loadHistory_settle requestId r now h
  | Cleared => setCandles [] h
  | Incoming cap candle =>
      setCandles (applyIncomingCandle cap candle (candles h)) h
  end.

Definition run (h : history) (evs : list event) : history :=
  foldl step h evs.

(** *** Reconnection *)

(** the variables of one run of the bootstrap effect, with the state and
    the timer ref [scheduleReconnect] writes; the timer is its delay *)
Record live : Type := mkLive {
  cancelled : bool;
  attempts : nat;
  connection : ConnectionState;
  nextRetrySec : option number;
  reconnectTimerRef : option Z
}.

Definition initial_live : live :=
  {| cancelled := false; attempts := 0; connection := idle;
     nextRetrySec := None; reconnectTimerRef := None |}.

Definition scheduleReconnect (s : live) : live :=
  if cancelled s then s
  else
    let attempts' := S (attempts s) in
    let delay :=
      Z.min 30000 (1000 * 2 ^ Z.min (Z.of_nat attempts') 5) in
    {| cancelled := cancelled s;
       attempts := attempts';
       connection := offline;
       nextRetrySec := Some (Math_round (div (num delay) (num 1000)));
       reconnectTimerRef := Some delay |}.

(** [ws.onopen] *)
Definition onopen (s : live) : live :=
  if cancelled s then s
  else
    {| cancelled := cancelled s;
       attempts := 0;
       connection := online;
       nextRetrySec := None;
       reconnectTimerRef := reconnectTimerRef s |}.

(** [ws.onclose] *)
Definition onclose (s : live) : live := scheduleReconnect s.

(** the delays, in milliseconds, that [n] close events in a row schedule *)
Fixpoint close_delays (n : nat) (s : live) : list (option Z) :=
  match n with
  | O => []
  | S n' =>
      let s' := onclose s in
      reconnectTimerRef s' :: close_delays n' s'
  end.

(** the countdowns, in seconds, shown for the same close events *)
Fixpoint close_countdowns (n : nat) (s : live) : list (option number) :=
  match n with
  | O => []
  | S n' =>
      let s' := onclose s in
      nextRetrySec s' :: close_countdowns n' s'
  end.

End UseKlines.

(* ===================================================================== *)
(** ** components/PriceChart.tsx                                         *)
(* ===================================================================== *)

Module PriceChart.
Import JS Binance.

(** the refs of the component; [seriesRef] is kept as "is it set" *)
Record refs : Type := mkRefs {
  seriesRef : bool;
  hydratedRef : bool;
  prevSymbolRef : option string;
  prevLengthRef : Z;
  prevFirstTimeRef : option number;
  prevLastTimeRef : option number
}.

Definition initial_refs : refs :=
  {| seriesRef := false; hydratedRef := false; prevSymbolRef := None;
     prevLengthRef := 0; prevFirstTimeRef := None;
     prevLastTimeRef := None |}.

(** what the data effect asks of the chart series *)
Inductive call : Type :=
| setData (data : list CandlestickData)
| update (bar : CandlestickData).

Definition is_null {A} (r : option A) : bool :=
  match r with None => true | Some _ => false end.

(** [x !== r] for a ref holding a number or [null] *)
Definition ne_ref (x : number) (r : option number) : bool :=
  match r with
  | None => true
  | Some p => strict_ne x p
  end.

(** [x < r] for a ref holding a number or [null] ([null] counts as 0) *)
Definition lt_ref (x : number) (r : option number) : bool :=
  match r with
  | None => lt x (num 0)
  | Some p => lt x p
  end.

(** the [isReset] expression, on the length and the first and last times
    of the new [candles] *)
Definition isReset (r : refs) (length_ : Z) (firstTime lastTime : number)
  : bool :=
  let prevLen := prevLengthRef r in
  let prevFirstTime := prevFirstTimeRef r in
  let prevLastTime := prevLastTimeRef r in
  negb (hydratedRef r) ||
  (prevLen =? 0) ||
  is_null prevFirstTime ||
  is_null prevLastTime ||
  ne_ref firstTime prevFirstTime ||
  lt_ref lastTime prevLastTime ||
  (length_ <? prevLen - 1) ||
  (length_ - prevLen >? 1).

(** the chart initialisation effect *)
Definition init_effect (r : refs) : refs :=
  mkRefs true (hydratedRef r) (prevSymbolRef r) (prevLengthRef r)
    (prevFirstTimeRef r) (prevLastTimeRef r).

(** the symbol change effect; the flag tells whether the chart is cleared *)
Definition symbol_effect (r : refs) (symbol : string) : refs * bool :=
  if negb (seriesRef r) then (r, false)
  else
    let changed :=
      match prevSymbolRef r with
      | Some s => negb (String.eqb s symbol)
      | None => false
      end in
    if changed
    then (mkRefs (seriesRef r) false (Some symbol) 0 None None, true)
    else (mkRefs (seriesRef r) (hydratedRef r) (Some symbol)
            (prevLengthRef r) (prevFirstTimeRef r) (prevLastTimeRef r),
          false).

(** the data update effect *)
Definition data_effect (r : refs) (cs : list CandlestickData)
  : refs * option call :=
  if negb (seriesRef r) then (r, None)
  else
    match head cs, last cs with
    | Some first, Some last_ =>
        let firstTime := time first in
        let lastTime := time last_ in
        let len := Z.of_nat (length cs) in
        let reset := isReset r len firstTime lastTime in
        (mkRefs (seriesRef r) (if reset then true else hydratedRef r)
           (prevSymbolRef r) len (Some firstTime) (Some lastTime),
         Some (if reset then setData cs else update last_))
    | _, _ => (r, None)
    end.

(** the states of the refs the component can be in *)
Inductive reachable : refs -> Prop :=
| reach_initial : reachable initial_refs
| reach_init r : reachable r -> reachable (init_effect r)
| reach_symbol r symbol :
    reachable r -> reachable (fst (symbol_effect r symbol))
| reach_data r cs :
    reachable r -> reachable (fst (data_effect r cs)).

End PriceChart.

(* ===================================================================== *)
(** ** services/binance.ts: the other calculation helpers                *)
(* ===================================================================== *)

Module BinanceHelpers.
Import JS Binance.

(** the candles the full preset needs, uncapped *)
Definition candlesNeededForPreset (preset : HistoryPreset)
    (interval : string) : number :=
  let minutes_ := num (default 1 (intervalToMinutes !! interval)) in
  if negb (isFinite (minutes preset)) then PosInf
  else Math_ceil (div (minutes preset) minutes_).

Definition isPresetCapped (preset : HistoryPreset) (interval : string)
  : bool :=
  let needed := candlesNeededForPreset preset interval in
  gt needed (num MAX_CANDLES_CAP).

(** the time the capped candles cover, in days *)
Definition actualCoverageDays (preset : HistoryPreset) (interval : string)
  : number :=
  let minutes_ := num (default 1 (intervalToMinutes !! interval)) in
  let candles := maxCandlesForPreset preset interval in
  div (mul candles minutes_) (mul (num 60) (num 24)).

End BinanceHelpers.

(* ===================================================================== *)
(** ** hooks/useKlines.ts: the bootstrap and WebSocket effect            *)
(* ===================================================================== *)

Module Session.
Import JS Binance.

(** [readyState] of a WebSocket, kept by the browser *)
Inductive readyState : Type :=
| CONNECTING
| OPEN
| CLOSING
| CLOSED.

(** a socket made by [connect]: the effect run whose handlers it got, the
    stream [buildWsUrl] named for it, and whether the handlers are still
    set *)
Record socket : Type := mkSocket {
  s_run : nat;
  s_symbol : string;
  s_interval : string;
  s_handlers : bool;
  s_ready : readyState
}.

(** a timeout set by [scheduleReconnect] *)
Record timer : Type := mkTimer {
  t_run : nat;
  t_delay : Z;
  t_pending : bool
}.

(** one run of the effect: its dependencies and its local variables *)
Record closure : Type := mkClosure {
  c_symbol : string;
  c_interval : string;
  c_preset : HistoryPreset;
  c_cancelled : bool;
  c_attempts : nat
}.

(** the memoised [cap] the handlers of a run merge under *)
Definition c_cap (c : closure) : number :=
  maxCandlesForPreset (c_preset c) (c_interval c).

Record state : Type := mkState {
  hist : UseKlines.history;
  connection : UseKlines.ConnectionState;
  nextRetrySec : option number;
  wsRef : option nat;
  reconnectTimerRef : option nat;
  sockets : gmap nat socket;
  timers : gmap nat timer;
  closures : gmap nat closure;
  awaiting : list (Z * nat)      (* bootstraps suspended on loadHistory *)
}.

Definition initial : state :=
  {| hist := UseKlines.initial_history;
     connection := UseKlines.idle;
     nextRetrySec := None;
     wsRef := None;
     reconnectTimerRef := None;
     sockets := ∅;
     timers := ∅;
     closures := ∅;
     awaiting := [] |}.

Definition set_hist (h : UseKlines.history) (st : state) : state :=
  mkState h (connection st) (nextRetrySec st) (wsRef st)
    (reconnectTimerRef st) (sockets st) (timers st) (closures st)
    (awaiting st).

Definition setConnection (c : UseKlines.ConnectionState) (st : state)
  : state :=
  mkState (hist st) c (nextRetrySec st) (wsRef st)
    (reconnectTimerRef st) (sockets st) (timers st) (closures st)
    (awaiting st).

Definition setNextRetrySec (n : option number) (st : state) : state :=
  mkState (hist st) (connection st) n (wsRef st)
    (reconnectTimerRef st) (sockets st) (timers st) (closures st)
    (awaiting st).

Definition set_wsRef (w : option nat) (st : state) : state :=
  mkState (hist st) (connection st) (nextRetrySec st) w
    (reconnectTimerRef st) (sockets st) (timers st) (closures st)
    (awaiting st).

Definition set_reconnectTimerRef (t : option nat) (st : state) : state :=
  mkState (hist st) (connection st) (nextRetrySec st) (wsRef st)
    t (sockets st) (timers st) (closures st) (awaiting st).

Definition set_sockets (m : gmap nat socket) (st : state) : state :=
  mkState (hist st) (connection st) (nextRetrySec st) (wsRef st)
    (reconnectTimerRef st) m (timers st) (closures st) (awaiting st).

Definition set_timers (m : gmap nat timer) (st : state) : state :=
  mkState (hist st) (connection st) (nextRetrySec st) (wsRef st)
    (reconnectTimerRef st) (sockets st) m (closures st) (awaiting st).

Definition set_closures (m : gmap nat closure) (st : state) : state :=
  mkState (hist st) (connection st) (nextRetrySec st) (wsRef st)
    (reconnectTimerRef st) (sockets st) (timers st) m (awaiting st).

Definition set_awaiting (a : list (Z * nat)) (st : state) : state :=
  mkState (hist st) (connection st) (nextRetrySec st) (wsRef st)
    (reconnectTimerRef st) (sockets st) (timers st) (closures st) a.

(** [cancelled] as the closures of run [g] see it *)
Definition cancelled (g : nat) (st : state) : bool :=
  match closures st !! g with
  | Some c => c_cancelled c
  | None => true
  end.

Definition set_attempts (g : nat) (n : nat) (st : state) : state :=
  set_closures
    (alter (fun c => mkClosure (c_symbol c) (c_interval c) (c_preset c)
                       (c_cancelled c) n) g (closures st)) st.

Definition set_cancelled (g : nat) (st : state) : state :=
  set_closures
    (alter (fun c => mkClosure (c_symbol c) (c_interval c) (c_preset c)
                       true (c_attempts c)) g (closures st)) st.

(** [ws.close()] *)
Definition close_socket (s : socket) : socket :=
  mkSocket (s_run s) (s_symbol s) (s_interval s) (s_handlers s)
    match s_ready s with
    | CLOSED => CLOSED
    | _ => CLOSING
    end.

(** the four handlers set to [null] *)
Definition detach (s : socket) : socket :=
  mkSocket (s_run s) (s_symbol s) (s_interval s) false (s_ready s).

Definition set_ready (r : readyState) (s : socket) : socket :=
  mkSocket (s_run s) (s_symbol s) (s_interval s) (s_handlers s) r.

(** [clearTimeout] *)
Definition clear (t : timer) : timer :=
  mkTimer (t_run t) (t_delay t) false.

(** [historyAbortRef.current?.abort(); historyAbortRef.current = null] *)
Definition abort_history (h : UseKlines.history) : UseKlines.history :=
  UseKlines.mkHistory (UseKlines.candles h) (UseKlines.historyLoading h)
    (UseKlines.error h) (UseKlines.lastUpdated h)
    (UseKlines.requestIdRef h) None
    match UseKlines.historyAbortRef h with
    | Some c => c :: UseKlines.aborted h
    | None => UseKlines.aborted h
    end.

Definition cleanup (st : state) : state :=
  let st1 := set_hist (abort_history (hist st)) st in
  let st2 :=
    match reconnectTimerRef st1 with
    | Some t =>
        set_reconnectTimerRef None
          (set_timers (alter clear t (timers st1)) st1)
    | None => st1
    end in
  match wsRef st2 with
  | Some w =>
      set_wsRef None
        (set_sockets
           (alter (fun s => close_socket (detach s)) w (sockets st2)) st2)
  | None => st2
  end.

(** an id no socket, timer or run has yet *)
Definition fresh {A} (m : gmap nat A) : nat :=
  S (max_list (elements (dom m))).

Definition scheduleReconnect (g : nat) (st : state) : state :=
  if cancelled g st then st
  else
    match closures st !! g with
    | None => st
    | Some c =>
        let attempts' := S (c_attempts c) in
        let st1 := set_attempts g attempts' st in
        let delay :=
          Z.min 30000 (1000 * 2 ^ Z.min (Z.of_nat attempts') 5) in
        let st2 := setConnection UseKlines.offline st1 in
        let st3 :=
          setNextRetrySec
            (Some (Math_round (div (num delay) (num 1000)))) st2 in
        let t := fresh (timers st3) in
        set_reconnectTimerRef (Some t)
          (set_timers (<[t := mkTimer g delay true]> (timers st3)) st3)
    end.

Definition connect (g : nat) (st : state) : state :=
  if cancelled g st then st
  else
    match closures st !! g with
    | None => st
    | Some c =>
        let w := fresh (sockets st) in
        let ws := mkSocket g (c_symbol c) (c_interval c) true CONNECTING in
        setConnection UseKlines.connecting
          (set_wsRef (Some w)
             (set_sockets (<[w := ws]> (sockets st)) st))
    end.

Definition onopen (g : nat) (st : state) : state :=
  if cancelled g st then st
  else
    setNextRetrySec None
      (setConnection UseKlines.online (set_attempts g 0 st)).

(** what [JSON.parse(event.data)] and [payload?.k] come to *)
Inductive message : Type :=
| Unparsable                               (* JSON.parse throws *)
| NoKline                                  (* no [k] in the payload *)
| Kline (t o h l c : value) (x : bool).    (* [x]: is [k.x] truthy *)

Definition onmessage (g : nat) (msg : message) (now : number)
    (st : state) : state :=
  match msg, closures st !! g with
  | Kline t o h l c x, Some cl =>
      let candle := toCandle [t; o; h; l; c] in
      let h1 :=
        UseKlines.setCandles
          (UseKlines.applyIncomingCandle (c_cap cl) candle
             (UseKlines.candles (hist st))) (hist st) in
      set_hist (if x then UseKlines.setLastUpdated now h1 else h1) st
  | _, _ => st
  end.

Definition onerror (w : nat) (st : state) : state :=
  set_sockets (alter close_socket w (sockets st))
    (setConnection UseKlines.error_ st).

Definition onclose (g : nat) (st : state) : state :=
  scheduleReconnect g st.

(** [bootstrap] up to its [await] *)
Definition bootstrap (g : nat) (st : state) : state :=
  let st1 := cleanup st in
  let st2 := set_hist (UseKlines.setCandles [] (hist st1)) st1 in
  let st3 := setConnection UseKlines.connecting st2 in
  let '(requestId, h) := UseKlines.loadHistory_begin (hist st3) in
  set_awaiting ((requestId, g) :: awaiting st3) (set_hist h st3).

(** the function the effect returns *)
Definition effect_cleanup (g : nat) (st : state) : state :=
  setNextRetrySec None (cleanup (set_cancelled g st)).

(** the run of the effect in force, if any *)
Definition current (st : state) : option nat :=
  match elements (dom (closures st)) with
  | [] => None
  | _ => Some (max_list (elements (dom (closures st))))
  end.

(** the handlers of a socket run only while they are set *)
Definition dispatch (w : nat) (valid : readyState -> bool)
    (ready : readyState -> readyState)
    (handler : socket -> state -> state) (st : state) : state :=
  match sockets st !! w with
  | Some s =>
      if valid (s_ready s) then
        let st1 :=
          set_sockets (alter (set_ready (ready (s_ready s))) w (sockets st))
            st in
        if s_handlers s then handler s st1 else st1
      else st
  | None => st
  end.

(** what React and the environment can do to the hook *)
Inductive event : Type :=
| Run (symbol interval : string) (preset : HistoryPreset)
                                    (* mount, or a dependency changed *)
| Unmount
| Refresh                           (* refreshHistory *)
| Settled (requestId : Z) (r : exn + list CandlestickData) (now : number)
| SocketOpen (w : nat)
| SocketMessage (w : nat) (msg : message) (now : number)
| SocketError (w : nat)
| SocketClose (w : nat)
| TimerFired (t : nat).

Definition not_closed (r : readyState) : bool :=
  match r with CLOSED => false | _ => true end.

Definition is_connecting (r : readyState) : bool :=
  match r with CONNECTING => true | _ => false end.

Definition is_open (r : readyState) : bool :=
  match r with OPEN => true | _ => false end.

Definition dispose_current (st : state) : state :=
  match current st with
  | Some g => if cancelled g st then st else effect_cleanup g st
  | None => st
  end.

(** the bootstraps that waited for the request resume: [connect] unless
    their run was cancelled *)
Definition resume (requestId : Z) (st : state) : state :=
  let woken :=
    filter (fun p => fst p = requestId) (awaiting st) in
  let st1 :=
    set_awaiting (filter (fun p => fst p <> requestId) (awaiting st)) st in
  foldl (fun acc p => connect (snd p) acc) st1 woken.

Definition step (st : state) (ev : event) : state :=
  match ev with
  | Run symbol interval preset =>
      let st1 := dispose_current st in
      let g := fresh (closures st1) in
      bootstrap g
        (set_closures
           (<[g := mkClosure symbol interval preset false 0]>
              (closures st1)) st1)
  | Unmount => dispose_current st
  | Refresh =>
      set_hist (snd (UseKlines.loadHistory_begin (hist st))) st
  | Settled requestId r now =>
      resume requestId
        (set_hist (UseKlines.loadHistory_settle requestId r now (hist st))
           st)
  | SocketOpen w =>
      dispatch w is_connecting (fun _ => OPEN)
        (fun s => onopen (s_run s)) st
  | SocketMessage w msg now =>
      dispatch w is_open (fun r => r)
        (fun s => onmessage (s_run s) msg now) st
  | SocketError w =>
      dispatch w not_closed (fun r => r) (fun _ => onerror w) st
  | SocketClose w =>
      dispatch w not_closed (fun _ => CLOSED)
        (fun s => onclose (s_run s)) st
  | TimerFired t =>
      match timers st !! t with
      | Some tm =>
          if t_pending tm then
            connect (t_run tm)
              (set_timers (alter clear t (timers st)) st)
          else st
      | None => st
      end
  end.

Definition run (st : state) (evs : list event) : state :=
  foldl step st evs.

End Session.

(* ===================================================================== *)
(** ** Vocabulary of the properties                                      *)
(* ===================================================================== *)

Import JS Binance UseKlines.

(** the interval strings of the table *)
Definition enumerated_intervals : list string :=
  ["1m"; "5m"; "15m"; "1h"; "4h"; "1d"]%string.

(** the duration [maxCandlesForPreset] divides by *)
Definition duration (interval : string) : Z :=
  default 1 (intervalToMinutes !! interval).

(** a depth that is positive, or not finite, asks for at least one bar *)
Definition positive_depth (preset : HistoryPreset) : Prop :=
  match minutes preset with
  | Fin q => (0 < q)%Q
  | _ => True
  end.

(** [a] is strictly older than [b] *)
Definition older (a b : CandlestickData) : Prop :=
  lt (time a) (time b) = true.

(** bar times strictly increase along the series *)
Definition increasing (s : list CandlestickData) : Prop :=
  forall (i : nat) (a b : CandlestickData),
    s !! i = Some a -> s !! S i = Some b -> lt (time a) (time b) = true.

(** no two positions of the series hold bars of the same time *)
Definition one_bar_per_time (s : list CandlestickData) : Prop :=
  forall (i j : nat) (a b : CandlestickData),
    i <> j -> s !! i = Some a -> s !! j = Some b ->
    strict_eq (time a) (time b) = false.

(** a sequence of merges, each under the cap in force when it arrives *)
Definition merge_all (s : list CandlestickData)
    (bars : list (number * CandlestickData)) : list CandlestickData :=
  foldl (fun acc cb => applyIncomingCandle (fst cb) (snd cb) acc) s bars.

(** the six reasons the renderer gives for a full reset, on the refs of
    the previous render and the length and end times of the new series *)
Definition reset_required (r : PriceChart.refs) (length_ : Z)
    (firstTime lastTime : number) : Prop :=
  PriceChart.hydratedRef r = false
  \/ PriceChart.prevLengthRef r = 0
  \/ (exists p, PriceChart.prevFirstTimeRef r = Some p
                /\ strict_ne firstTime p = true)
  \/ (exists p, PriceChart.prevLastTimeRef r = Some p
                /\ lt lastTime p = true)
  \/ length_ < PriceChart.prevLengthRef r - 1
  \/ length_ - PriceChart.prevLengthRef r > 1.

(** a series of [n] bars, [width] seconds apart, that starts at [t0] *)
Definition spaced_bars (t0 width : Z) (n : nat) : list CandlestickData :=
  map (fun i => mkCandle (num (t0 + width * i)) NaN NaN NaN NaN)
    (seqZ 0 (Z.of_nat n)).

(** every page request succeeds *)
Definition pages_succeed (srv : nat -> RestQuery -> response) : Prop :=
  forall (n : nat) (rq : RestQuery), exists payload, srv n rq = Page payload.

(** a page holds at most the records its request asks for *)
Definition pages_within_limit (srv : nat -> RestQuery -> response) : Prop :=
  forall (n : nat) (rq : RestQuery) (payload : list (list value)) (c : Z),
    srv n rq = Page payload -> q_limit rq = num c -> 1 <= c ->
    Z.of_nat (length payload) <= c.

(** the open time of every record of every page is numeric *)
Definition numeric_open_times (srv : nat -> RestQuery -> response) : Prop :=
  forall (n : nat) (rq : RestQuery) (payload : list (list value))
         (row : list value),
    srv n rq = Page payload -> row ∈ payload ->
    is_nan (ToNumber (index row 0)) = false.

(** the time of the bar is a number *)
Definition timed (b : CandlestickData) : Prop := is_nan (time b) = false.

(** [a] is not after [b] *)
Definition not_after (a b : CandlestickData) : Prop :=
  le (time a) (time b) = true.

(** bar times ascend along the series *)
Definition ascending (s : list CandlestickData) : Prop :=
  forall (i : nat) (a b : CandlestickData),
    s !! i = Some a -> s !! S i = Some b -> le (time a) (time b) = true.

(** a kline record of the provider with the open time [t] *)
Definition kline (t : Z) : list value :=
  [VNumber (num t); VString "1"; VString "2"; VString "0.5";
   VString "1.5"; VString "10"].

(** a provider that answers every request that leaves room for them with
    the same [rows], and any other request with an empty page *)
Definition fixed_pages (rows : list (list value))
  : nat -> RestQuery -> response :=
  fun _ rq =>
    if le (of_nat (length rows)) (q_limit rq) then Page rows else Page [].

(** the limit of a page request is a whole number from 1 to 1500 *)
Definition limit_in_range (rq : RestQuery) : Prop :=
  exists l : Z, q_limit rq = num l /\ 1 <= l <= MAX_PER_REQUEST.

(** [reqs] are requests for [sym] and [intv] sent in a row from the
    [k]-th on, the first one ending at [endTime] and each later one just
    before the first record of the page that answered the one before *)
Fixpoint chained (srv : nat -> RestQuery -> response) (sym intv : string)
    (k : nat) (endTime : number) (reqs : list RestQuery) : Prop :=
  match reqs with
  | [] => True
  | rq :: rest =>
      q_symbol rq = sym /\ q_interval rq = intv
      /\ q_endTime rq = (if truthy endTime then Some endTime else None)
      /\ match rest with
         | [] => True
         | _ :: _ =>
             exists row0 payload,
               srv k rq = Page (row0 :: payload)
               /\ chained srv sym intv (S k)
                    (sub (ToNumber (index row0 0)) (num 1)) rest
         end
  end.

(** the bars of the pages that answered [reqs], in the order received *)
Fixpoint received (srv : nat -> RestQuery -> response) (k : nat)
    (reqs : list RestQuery) : list CandlestickData :=
  match reqs with
  | [] => []
  | rq :: rest =>
      match srv k rq with
      | Page payload => map toCandle payload
      | _ => []
      end ++ received srv (S k) rest
  end.

(** every one of [reqs], sent in a row from the [k]-th on, got a page *)
Fixpoint answered (srv : nat -> RestQuery -> response) (k : nat)
    (reqs : list RestQuery) : Prop :=
  match reqs with
  | [] => True
  | rq :: rest =>
      (exists payload, srv k rq = Page payload) /\ answered srv (S k) rest
  end.

(** the answer to the [k]-th request [rq] is the failure thrown as [err] *)
Definition failed_with (srv : nat -> RestQuery -> response) (k : nat)
    (rq : RestQuery) (err : exn) : Prop :=
  match srv k rq with
  | Reject e => err = e
  | Status st => err = Error (status_message st)
  | Page _ => False
  end.

(** a provider with one bar every [width] milliseconds since the bar
    number [oldest]: it answers a request with the bars that open at or
    before the end time, the newest [limit] of them, oldest first *)
Definition steady_provider (width oldest : Z)
  : nat -> RestQuery -> response :=
  fun _ rq =>
    match q_endTime rq, q_limit rq with
    | Some (Fin t), Fin l =>
        let hi := Qfloor (t / inject_Z width) in
        let lo := Z.max oldest (hi - Qtrunc l + 1) in
        Page (map (fun i => kline (width * i)) (seqZ lo (hi - lo + 1)))
    | _, _ => Page []
    end.

(** the calls of [loadHistory] among the events *)
Fixpoint loads (evs : list event) : nat :=
  match evs with
  | [] => 0
  | LoadHistory :: evs' => S (loads evs')
  | _ :: evs' => loads evs'
  end.

(** the handlers of socket [w] are set and the socket can still fire *)
Definition attached_live (st : Session.state) (w : nat) : Prop :=
  exists s, Session.sockets st !! w = Some s
            /\ Session.s_handlers s = true
            /\ Session.s_ready s <> Session.CLOSED.

(** the timeout [t] has not fired and was not cleared *)
Definition pending_timer (st : Session.state) (t : nat) : Prop :=
  exists tm, Session.timers st !! t = Some tm
             /\ Session.t_pending tm = true.

(** [g] is the latest run of the effect and it is not cancelled *)
Definition live_run (st : Session.state) (g : nat) : Prop :=
  Session.current st = Some g /\ Session.cancelled g st = false.

(** no socket can call a handler and no reconnect is scheduled *)
Definition unlinked (st : Session.state) : Prop :=
  (forall w, ~ attached_live st w) /\ (forall t, ~ pending_timer st t).

(** what every state of a session keeps about runs, suspended
    bootstraps and the streams of its sockets *)
Record session_base (st : Session.state) : Prop := mkSessionBase {
  base_runs :
    forall g, Session.cancelled g st = false ->
      Session.current st = Some g;
  base_await_ids :
    forall id g, (id, g) ∈ Session.awaiting st ->
      id <= UseKlines.requestIdRef (Session.hist st)
      /\ is_Some (Session.closures st !! g);
  base_nodup_ids : NoDup (fst <$> Session.awaiting st);
  base_nodup_runs : NoDup (snd <$> Session.awaiting st);
  base_streams :
    forall w s, Session.sockets st !! w = Some s ->
      exists c, Session.closures st !! Session.s_run s = Some c
                /\ Session.s_symbol s = Session.c_symbol c
                /\ Session.s_interval s = Session.c_interval c
}.

(** what every state of a session keeps *)
Record session_inv (st : Session.state) : Prop := mkSessionInv {
  inv_base : session_base st;
  inv_socket :
    forall w, attached_live st w ->
      Session.wsRef st = Some w
      /\ (forall t, ~ pending_timer st t)
      /\ exists s, Session.sockets st !! w = Some s
                   /\ live_run st (Session.s_run s);
  inv_timer :
    forall t, pending_timer st t ->
      Session.reconnectTimerRef st = Some t
      /\ exists tm, Session.timers st !! t = Some tm
                    /\ live_run st (Session.t_run tm);
  inv_await :
    forall id g, (id, g) ∈ Session.awaiting st ->
      Session.cancelled g st = false -> unlinked st
}.

(** the event is not a new run of the effect *)
Definition not_a_run (ev : Session.event) : Prop :=
  match ev with Session.Run _ _ _ => False | _ => True end.

(** the event is neither a new run of the effect nor its cleanup *)
Definition within_a_run (ev : Session.event) : Prop :=
  match ev with
  | Session.Run _ _ _ | Session.Unmount => False
  | _ => True
  end.

(** the dependencies of the latest run of the effect among the events *)
Definition last_config (evs : list Session.event)
  : option (string * string * HistoryPreset) :=
  foldl (fun acc ev =>
           match ev with
           | Session.Run symbol interval preset =>
               Some (symbol, interval, preset)
           | _ => acc
           end) None evs.

(** the dependencies of the run of the effect in force *)
Definition current_config (st : Session.state)
  : option (string * string * HistoryPreset) :=
  match Session.current st with
  | Some g =>
      match Session.closures st !! g with
      | Some c =>
          Some (Session.c_symbol c, Session.c_interval c, Session.c_preset c)
      | None => None
      end
  | None => None
  end.

(** no socket, no reconnect and no countdown is held *)
Definition at_rest (st : Session.state) : Prop :=
  Session.wsRef st = None
  /\ Session.reconnectTimerRef st = None
  /\ Session.nextRetrySec st = None.

(** a run that kept its dependencies; [strict]: and its [cancelled],
    which otherwise may only have been set *)
Definition same_run (strict : bool) (c c' : Session.closure) : Prop :=
  Session.c_symbol c' = Session.c_symbol c
  /\ Session.c_interval c' = Session.c_interval c
  /\ Session.c_preset c' = Session.c_preset c
  /\ if strict then Session.c_cancelled c' = Session.c_cancelled c
     else Session.c_cancelled c = true -> Session.c_cancelled c' = true.

Definition same_runs (strict : bool) (st st' : Session.state) : Prop :=
  forall g,
    option_Forall2 (same_run strict)
      (Session.closures st !! g) (Session.closures st' !! g).

(** every run of the effect so far is cancelled *)
Definition all_cancelled (st : Session.state) : Prop :=
  forall g, Session.cancelled g st = true.

(** what a step leaves alone when no handler and no timer runs *)
Definition links_kept (st st' : Session.state) : Prop :=
  Session.connection st' = Session.connection st
  /\ Session.nextRetrySec st' = Session.nextRetrySec st
  /\ Session.wsRef st' = Session.wsRef st
  /\ Session.reconnectTimerRef st' = Session.reconnectTimerRef st
  /\ Session.timers st' = Session.timers st
  /\ dom (Session.sockets st') = dom (Session.sockets st)
  /\ Session.closures st' = Session.closures st.

(* ===================================================================== *)
(** ** Facts about numbers and arrays                                    *)
(* ===================================================================== *)

Section NumberFacts.

Lemma Qlt_bool_iff (x y : Q) : Qlt_bool x y = true <-> (x < y)%Q.
Proof.
  unfold Qlt_bool. rewrite negb_true_iff. split.
  - intros H. apply Qnot_le_lt. intros Hle.
    apply Qle_bool_iff in Hle. congruence.
  - intros H. destruct (Qle_bool y x) eqn:E; [|reflexivity].
    apply Qle_bool_iff in E. exfalso. exact (Qlt_not_le _ _ H E).
Qed.

Lemma Qlt_bool_inject (x y : Z) :
  Qlt_bool (inject_Z x) (inject_Z y) = (x <? y).
Proof.
  destruct (x <? y) eqn:E.
  - apply Qlt_bool_iff. rewrite <- Zlt_Qlt. lia.
  - destruct (Qlt_bool _ _) eqn:E'; [|reflexivity].
    apply Qlt_bool_iff in E'. rewrite <- Zlt_Qlt in E'. lia.
Qed.

Lemma Qle_bool_inject (x y : Z) :
  Qle_bool (inject_Z x) (inject_Z y) = (x <=? y).
Proof.
  destruct (x <=? y) eqn:E.
  - apply Qle_bool_iff. rewrite <- Zle_Qle. lia.
  - destruct (Qle_bool _ _) eqn:E'; [|reflexivity].
    apply Qle_bool_iff in E'. rewrite <- Zle_Qle in E'. lia.
Qed.

Lemma lt_num (x y : Z) : lt (num x) (num y) = (x <? y).
Proof. apply Qlt_bool_inject. Qed.

Lemma le_num (x y : Z) : le (num x) (num y) = (x <=? y).
Proof. apply Qle_bool_inject. Qed.

Lemma lt_irrefl (a : number) : lt a a = false.
Proof.
  destruct a as [| |q|]; simpl; try reflexivity.
  destruct (Qlt_bool q q) eqn:E; [|reflexivity].
  apply Qlt_bool_iff in E. exfalso. exact (Qlt_irrefl _ E).
Qed.

Lemma lt_trans (a b c : number) :
  lt a b = true -> lt b c = true -> lt a c = true.
Proof.
  destruct a as [| |x|], b as [| |y|], c as [| |z|]; simpl;
    try congruence.
  rewrite !Qlt_bool_iff. apply Qlt_trans.
Qed.

Lemma lt_asym (a b : number) : lt a b = true -> lt b a = false.
Proof.
  intros H. destruct (lt b a) eqn:E; [|reflexivity].
  rewrite <- (lt_irrefl a). symmetry. exact (lt_trans _ _ _ H E).
Qed.

Lemma strict_eq_sym (a b : number) : strict_eq a b = strict_eq b a.
Proof.
  destruct a, b; simpl; try reflexivity. apply Qeq_bool_comm.
Qed.

Lemma strict_eq_refl_l (a b : number) :
  strict_eq a b = true -> strict_eq a a = true.
Proof.
  destruct a, b; simpl; try congruence. intros _. apply Qeq_bool_refl.
Qed.

Lemma lt_strict_eq_r (a b c : number) :
  lt a b = true -> strict_eq b c = true -> lt a c = true.
Proof.
  destruct a as [| |x|], b as [| |y|], c as [| |z|]; simpl;
    try congruence.
  rewrite !Qlt_bool_iff. intros H E. apply Qeq_bool_iff in E.
  rewrite <- E. exact H.
Qed.

Lemma lt_not_strict_eq (a b : number) :
  lt a b = true -> strict_eq a b = false.
Proof.
  destruct a as [| |x|], b as [| |y|]; simpl; try congruence.
  rewrite Qlt_bool_iff. intros H.
  destruct (Qeq_bool x y) eqn:E; [|reflexivity].
  apply Qeq_bool_iff in E. rewrite E in H.
  exfalso. exact (Qlt_irrefl _ H).
Qed.

Lemma Qtrunc_inject (z : Z) : Qtrunc (inject_Z z) = z.
Proof.
  unfold Qtrunc. destruct (Qle_bool 0 (inject_Z z)).
  - apply Qfloor_Z.
  - apply Qceiling_Z.
Qed.

Lemma ToIntegerOrInfinity_num (z : Z) :
  ToIntegerOrInfinity (num z) = IInt z.
Proof. unfold num. simpl. now rewrite Qtrunc_inject. Qed.

Lemma neg_num (z : Z) : neg (num z) = num (- z).
Proof. reflexivity. Qed.

End NumberFacts.

Section SliceFacts.
Context {A : Type}.
Implicit Types l : list A.

Lemma relative_index_le (len : nat) (r : intinf) :
  (relative_index len r <= len)%nat.
Proof.
  destruct r as [|z|]; simpl; try lia.
  destruct (z <? 0) eqn:E; lia.
Qed.

(** [l.slice(start)] is a suffix of [l] *)
Lemma slice_from l (start : number) :
  slice l start None
  = drop (relative_index (length l) (ToIntegerOrInfinity start)) l.
Proof.
  unfold slice. apply take_ge. rewrite length_drop. lia.
Qed.

(** [l.slice(-c)] keeps the last [c] items when [c] is a positive integer *)
Lemma slice_last_n l (c : Z) :
  1 <= c ->
  slice l (neg (num c)) None = drop (length l - Z.to_nat c) l.
Proof.
  intros Hc. rewrite slice_from, neg_num, ToIntegerOrInfinity_num.
  simpl. destruct (- c <? 0) eqn:E; [|lia].
  f_equal. lia.
Qed.

(** [l.slice(0, -1)] drops the last item *)
Lemma slice_init l :
  slice l (num 0) (Some (num (-1))) = take (length l - 1) l.
Proof.
  unfold slice. rewrite !ToIntegerOrInfinity_num.
  unfold relative_index.
  change (0 <? 0) with false. change (-1 <? 0) with true. cbv iota.
  replace (Z.to_nat (Z.min 0 (Z.of_nat (length l)))) with 0%nat by lia.
  rewrite drop_0. f_equal. lia.
Qed.

Lemma slice_init_snoc l (x : A) :
  slice (l ++ [x]) (num 0) (Some (num (-1))) = l.
Proof.
  rewrite slice_init, length_app. simpl.
  replace (length l + 1 - 1)%nat with (length l) by lia.
  now rewrite take_app_length.
Qed.

End SliceFacts.

(* ===================================================================== *)
(** ** The range calculator                                              *)
(* ===================================================================== *)

Section RangeFacts.

Lemma duration_unknown (interval : string) :
  interval ∉ enumerated_intervals -> intervalToMinutes !! interval = None.
Proof.
  intros H. unfold intervalToMinutes.
  apply not_elem_of_list_to_map_1. exact H.
Qed.

Lemma duration_positive (interval : string) : 1 <= duration interval.
Proof.
  unfold duration.
  destruct (intervalToMinutes !! interval) as [d|] eqn:E; simpl; [|lia].
  unfold intervalToMinutes in E.
  apply elem_of_list_to_map_2 in E.
  repeat (apply elem_of_cons in E as [E|E]; [inversion E; lia|]).
  inversion E.
Qed.

Lemma Qeq_bool_inject_nonzero (d : Z) :
  d <> 0 -> Qeq_bool (inject_Z d) 0 = false.
Proof.
  intros Hd. destruct (Qeq_bool (inject_Z d) 0) eqn:E; [|reflexivity].
  apply Qeq_bool_iff in E.
  apply (proj1 (inject_Z_injective d 0)) in E. contradiction.
Qed.

Lemma Math_min_num (a b : Z) : Math_min (num a) (num b) = num (Z.min a b).
Proof.
  unfold Math_min, num at 1 2. fold (num a). fold (num b).
  rewrite lt_num. destruct (b <? a) eqn:E.
  - f_equal. lia.
  - f_equal. lia.
Qed.

Lemma maxCandlesForPreset_eq (preset : HistoryPreset) (interval : string) :
  maxCandlesForPreset preset interval =
  match minutes preset with
  | Fin q => num (Z.min (Qceiling (q / inject_Z (duration interval))) 50000)
  | _ => num 50000
  end.
Proof.
  unfold maxCandlesForPreset. fold (duration interval).
  pose proof (duration_positive interval) as Hd.
  destruct (minutes preset) as [| |q|]; simpl; try reflexivity.
  rewrite Qeq_bool_inject_nonzero by lia.
  simpl. apply Math_min_num.
Qed.

(** the cap is an integer, at most the ceiling *)
Lemma maxCandlesForPreset_int (preset : HistoryPreset) (interval : string) :
  exists c : Z, maxCandlesForPreset preset interval = num c /\ c <= 50000.
Proof.
  rewrite maxCandlesForPreset_eq.
  destruct (minutes preset); eexists; (split; [reflexivity|lia]).
Qed.

Lemma maxCandlesForPreset_positive (preset : HistoryPreset)
    (interval : string) :
  positive_depth preset ->
  exists c : Z,
    maxCandlesForPreset preset interval = num c /\ 1 <= c <= 50000.
Proof.
  intros Hp. rewrite maxCandlesForPreset_eq. unfold positive_depth in Hp.
  pose proof (duration_positive interval) as Hd.
  destruct (minutes preset) as [| |q|];
    try (exists 50000; split; [reflexivity|lia]).
  eexists; split; [reflexivity|].
  split; [|lia].
  apply Z.min_glb; [|lia].
  assert (0 < q / inject_Z (duration interval))%Q as Hpos.
  { apply Qlt_shift_div_l.
    - change 0%Q with (inject_Z 0). rewrite <- Zlt_Qlt. lia.
    - now rewrite Qmult_0_l. }
  pose proof (Qle_ceiling (q / inject_Z (duration interval))) as Hc.
  assert (0 < inject_Z (Qceiling (q / inject_Z (duration interval))))%Q
    as H0 by (eapply Qlt_le_trans; eassumption).
  change 0%Q with (inject_Z 0) in H0. rewrite <- Zlt_Qlt in H0. lia.
Qed.

End RangeFacts.



(* ===================================================================== *)
(** ** The merge of an incoming candle                                   *)
(* ===================================================================== *)

Section MergeFacts.
Implicit Types (s : list CandlestickData) (b l : CandlestickData).

Lemma merge_empty (cap : number) b :
  applyIncomingCandle cap b [] = slice [b] (neg cap) None.
Proof. reflexivity. Qed.

Lemma merge_newer (cap : number) s l b :
  gt (time b) (time l) = true ->
  applyIncomingCandle cap b (s ++ [l])
  = slice ((s ++ [l]) ++ [b]) (neg cap) None.
Proof.
  intros H. unfold applyIncomingCandle. rewrite last_snoc, H. reflexivity.
Qed.

Lemma merge_same (cap : number) s l b :
  gt (time b) (time l) = false ->
  strict_eq (time l) (time b) = true ->
  applyIncomingCandle cap b (s ++ [l]) = s ++ [b].
Proof.
  intros H E. unfold applyIncomingCandle.
  rewrite last_snoc, H, E, slice_init_snoc. reflexivity.
Qed.

Lemma merge_stale (cap : number) s l b :
  gt (time b) (time l) = false ->
  strict_eq (time l) (time b) = false ->
  applyIncomingCandle cap b (s ++ [l]) = s ++ [l].
Proof.
  intros H E. unfold applyIncomingCandle.
  rewrite last_snoc, H, E. reflexivity.
Qed.

(** the three outcomes of a merge, for any cap *)
Lemma merge_cases (cap : number) b s :
  ((s = [] \/ exists s0 l, s = s0 ++ [l] /\ lt (time l) (time b) = true) /\
   applyIncomingCandle cap b s
   = drop (relative_index (length (s ++ [b]))
             (ToIntegerOrInfinity (neg cap))) (s ++ [b]))
  \/ (exists s0 l, s = s0 ++ [l] /\ strict_eq (time l) (time b) = true /\
                   applyIncomingCandle cap b s = s0 ++ [b])
  \/ applyIncomingCandle cap b s = s.
Proof.
  destruct (last s) as [l|] eqn:El.
  - apply last_Some in El as [s0 ->].
    destruct (gt (time b) (time l)) eqn:G.
    + left. rewrite (merge_newer _ _ _ _ G), slice_from.
      split; [|reflexivity]. right. now exists s0, l.
    + destruct (strict_eq (time l) (time b)) eqn:E.
      * right; left. exists s0, l. split; [reflexivity|].
        split; [exact E|]. now apply merge_same.
      * right; right. now apply merge_stale.
  - apply last_None in El as ->. left.
    rewrite merge_empty, slice_from.
    split; [now left|reflexivity].
Qed.

End MergeFacts.

(** the trim relies on the cap being positive: [slice(-0)] keeps all *)
Example merge_without_cap :
  applyIncomingCandle (num 0) (mkCandle (num 180) NaN NaN NaN NaN)
    (spaced_bars 60 60 2)
  = spaced_bars 60 60 3.
Proof. reflexivity. Qed.

Example merge_trims_to_cap :
  applyIncomingCandle (maxCandlesForPreset (mkPreset "two" (num 2)) "1m")
    (mkCandle (num 180) NaN NaN NaN NaN) (spaced_bars 60 60 2)
  = spaced_bars 120 60 2.
Proof. reflexivity. Qed.

(** C1. The merge is a case analysis on the last bar of the series: a bar
    into an empty series, or with a greater time than the last bar, is
    appended and the oldest bars are dropped until the length is at the
    cap; a bar with the time of the last bar replaces it and leaves every
    other element alone; a bar with a smaller time leaves the series as
    it is, so a series that ends at time 1700 is unchanged by a bar of
    time 1650.  The cap is a positive integer, as [maxCandlesForPreset]
    gives for every preset of positive or unbounded depth. *)
Theorem applyIncomingCandle_spec (cap : Z) (s : list CandlestickData)
    (b : CandlestickData) :
  1 <= cap ->
  let r := applyIncomingCandle (num cap) b s in
  let appended := drop (length (s ++ [b]) - Z.to_nat cap) (s ++ [b]) in
  match last s with
  | None => r = appended /\ r = [b]
  | Some l =>
      (gt (time b) (time l) = true ->
       r = appended /\
       length r = Nat.min (length s + 1) (Z.to_nat cap)) /\
      (strict_eq (time b) (time l) = true ->
       exists s0, s = s0 ++ [l] /\ r = s0 ++ [b]) /\
      (lt (time b) (time l) = true -> r = s) /\
      (time l = num 1700 -> time b = num 1650 -> r = s)
  end.
Proof.
  intros Hc r appended. subst r appended.
  destruct (last s) as [l|] eqn:El.
  - apply last_Some in El as [s0 ->].
    assert (lt (time b) (time l) = true ->
            applyIncomingCandle (num cap) b (s0 ++ [l]) = s0 ++ [l]) as Hs.
    { intros H. apply merge_stale.
      - unfold gt. now apply lt_asym.
      - rewrite strict_eq_sym. now apply lt_not_strict_eq. }
    split; [|split; [|split]].
    + intros G. rewrite (merge_newer _ _ _ _ G), slice_last_n by exact Hc.
      split; [reflexivity|].
      rewrite length_drop, !length_app. simpl. lia.
    + intros E. exists s0. split; [reflexivity|].
      apply merge_same.
      * unfold gt. destruct (lt (time l) (time b)) eqn:L; [|reflexivity].
        apply lt_not_strict_eq in L. rewrite strict_eq_sym in L. congruence.
      * now rewrite strict_eq_sym.
    + exact Hs.
    + intros Hl Hb. apply Hs. rewrite Hl, Hb. reflexivity.
  - apply last_None in El as ->.
    rewrite merge_empty, slice_last_n by exact Hc. simpl.
    replace (1 - Z.to_nat cap)%nat with 0%nat by lia. split; reflexivity.
Qed.

Lemma applyIncomingCandle_spec_witness :
  applyIncomingCandle (num 2) (mkCandle (num 1650) NaN NaN NaN NaN)
    [mkCandle (num 1640) NaN NaN NaN NaN;
     mkCandle (num 1700) NaN NaN NaN NaN]
  = [mkCandle (num 1640) NaN NaN NaN NaN;
     mkCandle (num 1700) NaN NaN NaN NaN].
Proof.
  pose proof (applyIncomingCandle_spec 2
    [mkCandle (num 1640) NaN NaN NaN NaN;
     mkCandle (num 1700) NaN NaN NaN NaN]
    (mkCandle (num 1650) NaN NaN NaN NaN)) as H.
  simpl in H. destruct H as (_ & _ & _ & H); [lia|].
  apply H; reflexivity.
Defined.

Section OrderFacts.
Implicit Types (s : list CandlestickData) (b l : CandlestickData).

Local Instance older_trans : Transitive older.
Proof. intros a b c. apply lt_trans. Qed.

Lemma increasing_cons_inv a s : increasing (a :: s) -> increasing s.
Proof. intros H i x y Hx Hy. exact (H (S i) x y Hx Hy). Qed.

Lemma increasing_sorted s : increasing s -> StronglySorted older s.
Proof.
  intros H. apply Sorted_StronglySorted; [apply older_trans|].
  induction s as [|a s IH]; [constructor|].
  constructor.
  - apply IH. exact (increasing_cons_inv _ _ H).
  - destruct s as [|c s]; constructor. exact (H 0%nat a c eq_refl eq_refl).
Qed.

Lemma sorted_pairs s :
  StronglySorted older s ->
  forall (i j : nat) a b,
    (i < j)%nat -> s !! i = Some a -> s !! j = Some b -> older a b.
Proof.
  induction 1 as [|x s Hs IH Hx]; intros i j a b Hij Ha Hb.
  - discriminate.
  - destruct j as [|j]; [lia|]. simpl in Hb.
    destruct i as [|i]; simpl in Ha.
    + injection Ha as <-. rewrite Forall_forall in Hx. apply Hx.
      eapply list_elem_of_lookup_2. exact Hb.
    + apply (IH i j); [lia|assumption|assumption].
Qed.

Lemma sorted_increasing s : StronglySorted older s -> increasing s.
Proof.
  intros H i a b Ha Hb. apply (sorted_pairs s H i (S i)); [lia|done|done].
Qed.

Lemma sorted_one_bar_per_time s :
  StronglySorted older s -> one_bar_per_time s.
Proof.
  intros H i j a b Hij Ha Hb.
  destruct (Nat.lt_total i j) as [L|[E|L]]; [| contradiction |].
  - apply lt_not_strict_eq. exact (sorted_pairs s H i j a b L Ha Hb).
  - rewrite strict_eq_sym. apply lt_not_strict_eq.
    exact (sorted_pairs s H j i b a L Hb Ha).
Qed.

Lemma sorted_drop (k : nat) s :
  StronglySorted older s -> StronglySorted older (drop k s).
Proof.
  intros H. rewrite <- (take_drop k s) in H.
  exact (StronglySorted_app_1_r _ _ _ H).
Qed.

Lemma sorted_snoc s l b :
  StronglySorted older (s ++ [l]) -> older l b ->
  StronglySorted older ((s ++ [l]) ++ [b]).
Proof.
  intros H Hlb. apply StronglySorted_app_2.
  - intros x y Hx Hy. apply list_elem_of_singleton in Hy as ->.
    apply elem_of_app in Hx as [Hx|Hx].
    + transitivity l; [|exact Hlb].
      eapply StronglySorted_app_1_elem_of; [exact H|exact Hx|].
      apply list_elem_of_singleton. reflexivity.
    + apply list_elem_of_singleton in Hx as ->. exact Hlb.
  - exact H.
  - repeat constructor.
Qed.

Lemma sorted_replace_last s l b :
  StronglySorted older (s ++ [l]) ->
  strict_eq (time l) (time b) = true ->
  StronglySorted older (s ++ [b]).
Proof.
  intros H E. apply StronglySorted_app_2.
  - intros x y Hx Hy. apply list_elem_of_singleton in Hy as ->.
    eapply lt_strict_eq_r; [|exact E].
    eapply (StronglySorted_app_1_elem_of older); [exact H|exact Hx|].
    apply list_elem_of_singleton. reflexivity.
  - exact (StronglySorted_app_1_l _ _ _ H).
  - repeat constructor.
Qed.

Lemma merge_sorted (cap : number) b s :
  StronglySorted older s ->
  StronglySorted older (applyIncomingCandle cap b s).
Proof.
  intros H.
  destruct (merge_cases cap b s)
    as [[Hs ->]|[(s0 & l & -> & E & ->)| ->]].
  - apply sorted_drop. destruct Hs as [->|(s0 & l & -> & L)].
    + repeat constructor.
    + now apply sorted_snoc.
  - now apply (sorted_replace_last s0 l b).
  - exact H.
Qed.

Lemma merge_all_sorted bars s :
  StronglySorted older s -> StronglySorted older (merge_all s bars).
Proof.
  revert s. induction bars as [|[cap b] bars IH]; intros s H; [exact H|].
  apply IH. now apply merge_sorted.
Qed.

End OrderFacts.

(** C2. Merging any sequence of bars into a series whose times strictly
    increase gives a series whose times strictly increase at every
    adjacent pair, hence one that holds at most one bar for a time. *)
Theorem merge_keeps_increasing (s : list CandlestickData)
    (bars : list (number * CandlestickData)) :
  increasing s ->
  increasing (merge_all s bars) /\ one_bar_per_time (merge_all s bars).
Proof.
  intros H. apply increasing_sorted in H.
  pose proof (merge_all_sorted bars s H) as H'.
  split.
  - now apply sorted_increasing.
  - now apply sorted_one_bar_per_time.
Qed.

Lemma merge_keeps_increasing_witness :
  increasing
    (merge_all [mkCandle (num 60) NaN NaN NaN NaN]
       [(num 2, mkCandle (num 120) NaN NaN NaN NaN);
        (num 2, mkCandle (num 120) (num 1) NaN NaN NaN);
        (num 2, mkCandle (num 60) NaN NaN NaN NaN);
        (num 2, mkCandle (num 180) NaN NaN NaN NaN)]).
Proof.
  apply (merge_keeps_increasing [mkCandle (num 60) NaN NaN NaN NaN]).
  intros i a b Ha Hb. destruct i; simpl in Hb; discriminate.
Defined.

Section IdempotenceFacts.
Implicit Types (s : list CandlestickData) (b l : CandlestickData).

(** a bar merged into a series that already ends with it changes nothing *)
Lemma merge_onto_self (cap : number) b s :
  applyIncomingCandle cap b (s ++ [b]) = s ++ [b].
Proof.
  assert (gt (time b) (time b) = false) as G by apply lt_irrefl.
  destruct (strict_eq (time b) (time b)) eqn:E.
  - now apply merge_same.
  - now apply merge_stale.
Qed.

(** a start that skips a whole array skips every shorter one *)
Lemma relative_index_full (n : nat) (r : intinf) :
  relative_index (S n) r = S n -> relative_index 1 r = 1%nat.
Proof.
  destruct r as [|z|]; simpl; [discriminate| |reflexivity].
  destruct (z <? 0) eqn:E; lia.
Qed.

End IdempotenceFacts.

(** C3. The merge is idempotent: a bar delivered twice in a row leaves
    the series the first delivery gave. *)
Theorem applyIncomingCandle_idempotent (cap : number)
    (b : CandlestickData) (s : list CandlestickData) :
  applyIncomingCandle cap b (applyIncomingCandle cap b s)
  = applyIncomingCandle cap b s.
Proof.
  destruct (merge_cases cap b s)
    as [[_ H]|[(s0 & l & -> & E & H)|H]].
  - rewrite H. rewrite length_app. simpl.
    replace (length s + 1)%nat with (S (length s)) by lia.
    set (r := ToIntegerOrInfinity (neg cap)).
    pose proof (relative_index_le (S (length s)) r) as Hle.
    destruct (decide (relative_index (S (length s)) r <= length s)%nat)
      as [Hk|Hk].
    + rewrite drop_app_le by exact Hk. apply merge_onto_self.
    + assert (relative_index (S (length s)) r = S (length s)) as Hfull
        by lia.
      rewrite Hfull.
      rewrite (drop_ge (s ++ [b])) by (rewrite length_app; simpl; lia).
      rewrite merge_empty, slice_from. simpl length. fold r.
      now rewrite (relative_index_full _ _ Hfull).
  - rewrite H. apply merge_onto_self.
  - rewrite H. exact H.
Qed.

(** C4. When the cap [maxCandlesForPreset(preset, interval)] is at least
    one and the series is no longer than the cap, the series a merge
    gives is no longer than the cap. *)
Theorem applyIncomingCandle_within_cap (preset : HistoryPreset)
    (interval : string) (s : list CandlestickData) (b : CandlestickData) :
  let cap := maxCandlesForPreset preset interval in
  le (num 1) cap = true ->
  le (of_nat (length s)) cap = true ->
  le (of_nat (length (applyIncomingCandle cap b s))) cap = true.
Proof.
  intros cap. subst cap.
  destruct (maxCandlesForPreset_int preset interval) as (c & -> & _).
  unfold of_nat. rewrite !le_num. intros H1 Hs.
  apply Z.leb_le in H1. apply Z.leb_le in Hs. apply Z.leb_le.
  destruct (merge_cases (num c) b s)
    as [[_ ->]|[(s0 & l & -> & E & ->)| ->]].
  - rewrite neg_num, ToIntegerOrInfinity_num, length_drop, length_app.
    simpl. destruct (- c <? 0) eqn:E; lia.
  - rewrite length_app in *. simpl in *. lia.
  - exact Hs.
Qed.

Lemma applyIncomingCandle_within_cap_witness :
  le (of_nat (length
        (applyIncomingCandle
           (maxCandlesForPreset (mkPreset "two bars" (num 2)) "1m")
           (mkCandle (num 180) NaN NaN NaN NaN)
           [mkCandle (num 60) NaN NaN NaN NaN;
            mkCandle (num 120) NaN NaN NaN NaN])))
     (maxCandlesForPreset (mkPreset "two bars" (num 2)) "1m") = true.
Proof.
  apply (applyIncomingCandle_within_cap (mkPreset "two bars" (num 2)) "1m");
    reflexivity.
Defined.

(* ===================================================================== *)
(** ** History loading and the request epoch                             *)
(* ===================================================================== *)

Section EpochFacts.
Implicit Types (h : history) (ev : event).

Lemma settle_requestIdRef (requestId : Z) r (now : number) h :
  requestIdRef (loadHistory_settle requestId r now h) = requestIdRef h.
Proof.
  unfold loadHistory_settle.
  destruct r as [[|m|]|cs]; simpl;
    repeat (match goal with |- context [if ?c then _ else _] =>
              destruct c end; simpl); reflexivity.
Qed.

(** a superseded request writes no candles, whatever it settles with *)
Lemma settle_stale_candles (requestId : Z) r (now : number) h :
  requestId <> requestIdRef h ->
  candles (loadHistory_settle requestId r now h) = candles h.
Proof.
  intros Hne. apply Z.eqb_neq in Hne.
  unfold loadHistory_settle.
  destruct r as [[|m|]|cs]; simpl; rewrite ?Hne; simpl;
    rewrite ?Hne; reflexivity.
Qed.

(** a request that fails writes no candles either *)
Lemma settle_failure_candles (requestId : Z) (e : exn) (now : number) h :
  candles (loadHistory_settle requestId (inl e) now h) = candles h.
Proof.
  unfold loadHistory_settle.
  destruct e as [|m|]; simpl;
    match goal with |- context [if ?c then _ else _] => destruct c end;
    reflexivity.
Qed.

Lemma step_epoch_mono h ev : requestIdRef h <= requestIdRef (step h ev).
Proof.
  destruct ev as [|requestId r now| |cap b]; simpl; try lia.
  rewrite settle_requestIdRef. lia.
Qed.

Lemma run_epoch_mono evs h : requestIdRef h <= requestIdRef (run h evs).
Proof.
  revert h. induction evs as [|ev evs IH]; intros h; simpl; [lia|].
  etransitivity; [apply (step_epoch_mono h ev)|apply IH].
Qed.

Lemma run_epoch_advances evs h :
  LoadHistory ∈ evs -> requestIdRef h < requestIdRef (run h evs).
Proof.
  revert h. induction evs as [|ev evs IH]; intros h Hin.
  - inversion Hin.
  - apply elem_of_cons in Hin as [<-|Hin]; simpl.
    + pose proof (run_epoch_mono evs (snd (loadHistory_begin h))) as H.
      simpl in H. lia.
    + pose proof (step_epoch_mono h ev). pose proof (IH (step h ev) Hin).
      lia.
Qed.

End EpochFacts.

(** C5. A history fetch whose id is no longer the current request id when
    it settles, with candles or with an error, leaves the candle series
    as it is; a settlement that changes the series carries the current
    id and loaded candles.  Once [loadHistory] has been called again
    after a fetch began, in whatever run of events, that fetch is
    superseded for good. *)
Theorem loadHistory_epoch_discard (h : history) (requestId : Z)
    (r : exn + list CandlestickData) (now : number) :
  (requestId <> requestIdRef h ->
   candles (loadHistory_settle requestId r now h) = candles h)
  /\ (candles (loadHistory_settle requestId r now h) <> candles h ->
      requestId = requestIdRef h /\ exists cs, r = inr cs)
  /\ (forall evs : list event,
        let '(id, h1) := loadHistory_begin h in
        LoadHistory ∈ evs ->
        id <> requestIdRef (run h1 evs)
        /\ candles (loadHistory_settle id r now (run h1 evs))
           = candles (run h1 evs)).
Proof.
  split; [apply settle_stale_candles|]. split.
  - intros Hch. split.
    + destruct (decide (requestId = requestIdRef h)) as [E|E]; [exact E|].
      exfalso. apply Hch. now apply settle_stale_candles.
    + destruct r as [e|cs]; [|now exists cs].
      exfalso. apply Hch. apply settle_failure_candles.
  - intros evs. simpl. intros Hin.
    pose proof (run_epoch_advances evs (snd (loadHistory_begin h)) Hin) as H.
    simpl in H.
    assert (requestIdRef h + 1
            <> requestIdRef (run (snd (loadHistory_begin h)) evs)) as Hne
      by (simpl; lia).
    split; [exact Hne|]. now apply settle_stale_candles.
Qed.

Lemma loadHistory_epoch_discard_witness :
  candles
    (loadHistory_settle 1 (inr [mkCandle (num 60) NaN NaN NaN NaN])
       (num 0)
       (run (snd (loadHistory_begin initial_history)) [LoadHistory]))
  = [].
Proof.
  destruct (loadHistory_epoch_discard initial_history 1
              (inr [mkCandle (num 60) NaN NaN NaN NaN]) (num 0))
    as (_ & _ & H).
  specialize (H [LoadHistory]). simpl in H.
  destruct H as [_ H]; [apply list_elem_of_here|]. exact H.
Defined.

(* ===================================================================== *)
(** ** Reconnection backoff                                              *)
(* ===================================================================== *)

Section BackoffFacts.

(** the exponent of the backoff is one of 1..5 *)
Lemma backoff_exponent (a : nat) :
  let k := Z.min (Z.of_nat (S a)) 5 in
  k = 1 \/ k = 2 \/ k = 3 \/ k = 4 \/ k = 5.
Proof. simpl. lia. Qed.

Lemma backoff_seconds (k : Z) :
  k = 1 \/ k = 2 \/ k = 3 \/ k = 4 \/ k = 5 ->
  Z.min 30000 (1000 * 2 ^ k) = 1000 * Z.min 30 (2 ^ k)
  /\ Math_round (div (num (Z.min 30000 (1000 * 2 ^ k))) (num 1000))
     = num (Z.min 30 (2 ^ k)).
Proof.
  intros [->|[->|[->|[->| ->]]]]; split; reflexivity.
Qed.

End BackoffFacts.

(** C6. A close event on a session that is not cancelled schedules the
    reconnect after [min(30, 2^min(attempt, 5))] seconds, [attempt] being
    the number of close events since the last successful open, counted
    from 1; the countdown shown is the same number of seconds.  Six close
    events in a row with no open in between schedule 2, 4, 8, 16, 30 and
    30 seconds. *)
Theorem scheduleReconnect_backoff (s : live) :
  cancelled s = false ->
  let attempt := S (attempts s) in
  let seconds := Z.min 30 (2 ^ Z.min (Z.of_nat attempt) 5) in
  attempts (scheduleReconnect s) = attempt
  /\ reconnectTimerRef (scheduleReconnect s) = Some (1000 * seconds)
  /\ nextRetrySec (scheduleReconnect s) = Some (num seconds)
  /\ connection (scheduleReconnect s) = offline
  /\ (attempts s = 0%nat ->
      close_delays 6 s
      = [Some 2000; Some 4000; Some 8000; Some 16000; Some 30000;
         Some 30000]
      /\ close_countdowns 6 s
         = [Some (num 2); Some (num 4); Some (num 8); Some (num 16);
            Some (num 30); Some (num 30)]).
Proof.
  intros Hc attempt seconds. subst attempt seconds.
  unfold scheduleReconnect at 1 2 3 4. rewrite Hc.
  cbn [attempts reconnectTimerRef nextRetrySec connection].
  destruct (backoff_seconds _ (backoff_exponent (attempts s))) as [Hd Hr].
  split; [reflexivity|]. split; [now rewrite Hd|].
  split; [now rewrite Hr|]. split; [reflexivity|].
  intros H0. destruct s as [c a co n t]. simpl in Hc, H0. subst c a.
  split; reflexivity.
Qed.

Lemma scheduleReconnect_backoff_witness :
  close_delays 6 (onopen initial_live)
  = [Some 2000; Some 4000; Some 8000; Some 16000; Some 30000; Some 30000].
Proof.
  destruct (scheduleReconnect_backoff (onopen initial_live) eq_refl)
    as (_ & _ & _ & _ & H).
  exact (proj1 (H eq_refl)).
Defined.

(* ===================================================================== *)
(** ** The reset decision of the chart                                   *)
(* ===================================================================== *)

Section ResetFacts.
Import PriceChart.

(** the time refs are null only while the chart is not hydrated *)
Lemma reachable_null_unhydrated (r : refs) :
  reachable r ->
  prevFirstTimeRef r = None \/ prevLastTimeRef r = None ->
  hydratedRef r = false.
Proof.
  induction 1 as [|r Hr IH|r symbol Hr IH|r cs Hr IH]; simpl.
  - reflexivity.
  - exact IH.
  - unfold symbol_effect. destruct (negb (seriesRef r)); [exact IH|].
    destruct (match prevSymbolRef r with
              | Some s => negb (String.eqb s symbol)
              | None => false
              end); simpl; [reflexivity|exact IH].
  - unfold data_effect. destruct (negb (seriesRef r)); [exact IH|].
    destruct (head cs), (last cs); simpl; try exact IH.
    intros [H|H]; discriminate.
Qed.

Lemma isReset_true_iff (r : refs) (len : Z) (firstTime lastTime : number) :
  (prevFirstTimeRef r = None \/ prevLastTimeRef r = None ->
   hydratedRef r = false) ->
  isReset r len firstTime lastTime = true
  <-> reset_required r len firstTime lastTime.
Proof.
  intros Hinv. unfold isReset, reset_required.
  rewrite !orb_true_iff, negb_true_iff, Z.eqb_eq, Z.ltb_lt, Z.gtb_gt.
  destruct (prevFirstTimeRef r) as [pf|], (prevLastTimeRef r) as [pl|];
    simpl.
  - split.
    + intros [[[[[[[H|H]|H]|H]|H]|H]|H]|H]; try discriminate; eauto 10.
    + intros [H|[H|[(p & [= <-] & H)|[(p & [= <-] & H)|[H|H]]]]]; tauto.
  - rewrite (Hinv (or_intror eq_refl)). tauto.
  - rewrite (Hinv (or_introl eq_refl)). tauto.
  - rewrite (Hinv (or_introl eq_refl)). tauto.
Qed.

End ResetFacts.

(** C8. In every state the refs of the chart can reach, the data effect
    resets exactly when the chart is not hydrated, or the previous length
    was zero, or the time of the first bar changed, or the time of the
    last bar decreased, or the length shrank by more than one, or it grew
    by more than one; otherwise it patches the last bar.  After
    [{length 100, first 1000, last 1099}] the series
    [{length 101, first 1000, last 1100}] is patched and the series
    [{length 500, first 500, last 1099}] is reset. *)
Theorem isReset_spec (r : PriceChart.refs) :
  PriceChart.reachable r ->
  (forall (len : Z) (firstTime lastTime : number),
     PriceChart.isReset r len firstTime lastTime = true
     <-> reset_required r len firstTime lastTime)
  /\ (forall (cs : list CandlestickData) (first last_ : CandlestickData),
        PriceChart.seriesRef r = true ->
        head cs = Some first -> last cs = Some last_ ->
        snd (PriceChart.data_effect r cs)
        = Some (if PriceChart.isReset r (Z.of_nat (length cs))
                     (time first) (time last_)
                then PriceChart.setData cs
                else PriceChart.update last_))
  /\ (PriceChart.hydratedRef r = true ->
      PriceChart.prevLengthRef r = 100 ->
      PriceChart.prevFirstTimeRef r = Some (num 1000) ->
      PriceChart.prevLastTimeRef r = Some (num 1099) ->
      PriceChart.isReset r 101 (num 1000) (num 1100) = false
      /\ PriceChart.isReset r 500 (num 500) (num 1099) = true).
Proof.
  intros Hr. split; [|split].
  - intros len firstTime lastTime. apply isReset_true_iff.
    now apply reachable_null_unhydrated.
  - intros cs first last_ Hs Hf Hl. unfold PriceChart.data_effect.
    rewrite Hs, Hf, Hl. reflexivity.
  - intros Hh Hn Hf Hl. unfold PriceChart.isReset.
    rewrite Hh, Hn, Hf, Hl. split; reflexivity.
Qed.

Lemma isReset_spec_witness :
  let r := fst (PriceChart.data_effect
                  (PriceChart.init_effect PriceChart.initial_refs)
                  (spaced_bars 1000 1 100)) in
  PriceChart.isReset r 101 (num 1000) (num 1100) = false
  /\ PriceChart.isReset r 500 (num 500) (num 1099) = true.
Proof.
  intros r.
  assert (PriceChart.reachable r) as Hr
    by (apply PriceChart.reach_data, PriceChart.reach_init,
          PriceChart.reach_initial).
  destruct (isReset_spec r Hr) as (_ & _ & H).
  apply H; reflexivity.
Defined.

(* ===================================================================== *)
(** ** The bar transformer                                               *)
(* ===================================================================== *)

(** tests of the numeric literals of strings *)
Example parseFloat_prefix :
  strict_eq (parseFloat (VString "  -12.5e1 USDT")) (num (-125)) = true
  /\ parseFloat (VString "USDT") = NaN
  /\ parseFloat (VString ".") = NaN
  /\ parseFloat (VString "-Infinity") = NegInf
  /\ parseFloat VUndefined = NaN.
Proof. repeat split. Qed.

Example ToNumber_whole_string :
  ToNumber (VString " 0x1F ") = num 31
  /\ ToNumber (VString "") = num 0
  /\ ToNumber (VString "12px") = NaN
  /\ ToNumber VNull = num 0
  /\ ToNumber VUndefined = NaN.
Proof. repeat split. Qed.

Section TransformFacts.

Lemma div_1000 (q : Q) : div (Fin q) (num 1000) = Fin (q / 1000).
Proof. reflexivity. Qed.

Lemma whole_seconds (k : Z) : (inject_Z (1000 * k) / 1000 == inject_Z k)%Q.
Proof.
  unfold Qeq, Qdiv, Qmult, Qinv, inject_Z. simpl. lia.
Qed.

Lemma parseFloat_number (n : number) : parseFloat (VNumber n) = n.
Proof. reflexivity. Qed.

End TransformFacts.

(** tests of [toCandle] on a REST row and on a WebSocket kline *)
Example toCandle_rest_row :
  let bar :=
    toCandle [VNumber (num 1700000040000); VString "42150.10";
              VString "42160.00"; VString "42149.90"; VString "42155.5";
              VString "12.345"] in
  strict_eq (time bar) (num 1700000040) = true
  /\ strict_eq (open bar) (Fin (421501 # 10)) = true
  /\ strict_eq (high bar) (num 42160) = true
  /\ strict_eq (low bar) (Fin (421499 # 10)) = true
  /\ strict_eq (close bar) (Fin (84311 # 2)) = true.
Proof. repeat split. Qed.

Example toCandle_string_time :
  strict_eq (time (toCandle [VString "1700000040000"; VString "1";
                             VString "1"; VString "1"; VString "1"]))
    (num 1700000040) = true.
Proof. reflexivity. Qed.




(* ===================================================================== *)
(** ** The history fetcher                                               *)
(* ===================================================================== *)

Section SortFacts.
Implicit Types (s l : list CandlestickData) (a b x y : CandlestickData).

Lemma sort_insert_perm {A} (cmp : A -> A -> number) (x : A)
    (l : list A) :
  sort_insert cmp x l ≡ₚ x :: l.
Proof.
  induction l as [|y l IH]; simpl; [reflexivity|].
  destruct (lt (cmp x y) (num 0)); [reflexivity|].
  rewrite IH. apply Permutation_swap.
Qed.

Lemma Array_sort_perm {A} (cmp : A -> A -> number) (l : list A) :
  Array_sort cmp l ≡ₚ l.
Proof.
  unfold Array_sort.
  enough (forall acc : list A,
            foldl (fun r (e : A) => sort_insert cmp e r) acc l ≡ₚ acc ++ l)
    as H by exact (H []).
  induction l as [|x l IH]; intros acc; simpl.
  - now rewrite app_nil_r.
  - rewrite IH, sort_insert_perm. simpl. apply Permutation_middle.
Qed.

(** the comparison function orders bars whose times are numbers *)
Lemma comparefn_below a b :
  lt (comparefn a b) (num 0) = true -> not_after a b.
Proof.
  unfold comparefn, not_after, sub.
  destruct (time a) as [| |x|], (time b) as [| |y|]; simpl;
    try congruence.
  rewrite Qlt_bool_iff, Qle_bool_iff. intros H.
  apply Qlt_le_weak. apply (Qplus_lt_l _ _ (- y)).
  now rewrite Qplus_opp_r.
Qed.

Lemma comparefn_not_below a b :
  timed a -> timed b ->
  lt (comparefn a b) (num 0) = false -> not_after b a.
Proof.
  unfold comparefn, not_after, sub, timed.
  destruct (time a) as [| |x|], (time b) as [| |y|]; simpl;
    try congruence.
  intros _ _ H. apply Qle_bool_iff.
  destruct (Qlt_le_dec x y) as [L|L]; [|exact L].
  exfalso. apply Bool.not_true_iff_false in H. apply H.
  apply Qlt_bool_iff. apply (Qplus_lt_l _ _ y).
  rewrite <- Qplus_assoc, (Qplus_comm (- y)), Qplus_opp_r.
  now rewrite Qplus_0_r, Qplus_0_l.
Qed.

Lemma sort_insert_sorted x l :
  timed x -> Forall timed l -> Sorted not_after l ->
  Sorted not_after (sort_insert comparefn x l).
Proof.
  intros Hx Hl Hs. induction l as [|y l IH]; simpl.
  - repeat constructor.
  - destruct (lt (comparefn x y) (num 0)) eqn:E.
    + constructor; [exact Hs|]. constructor. now apply comparefn_below.
    + apply Forall_cons in Hl as [Hy Hl].
      apply Sorted_inv in Hs as [Hs Hhd].
      constructor; [now apply IH|].
      destruct l as [|z l]; simpl.
      * constructor. now apply comparefn_not_below.
      * destruct (lt (comparefn x z) (num 0)).
        -- constructor. now apply comparefn_not_below.
        -- constructor. now apply HdRel_inv in Hhd.
Qed.

Lemma Array_sort_sorted l :
  Forall timed l -> Sorted not_after (Array_sort comparefn l).
Proof.
  unfold Array_sort.
  enough (forall acc,
            Forall timed acc -> Sorted not_after acc -> Forall timed l ->
            Sorted not_after
              (foldl (fun acc x => sort_insert comparefn x acc) acc l))
    as H by (intros Hl; apply H; [constructor|constructor|exact Hl]).
  induction l as [|x l IH]; intros acc Ha Hs Hl; simpl; [exact Hs|].
  apply Forall_cons in Hl as [Hx Hl].
  apply IH; [|now apply sort_insert_sorted|exact Hl].
  rewrite sort_insert_perm. now constructor.
Qed.

Lemma sorted_ascending l : Sorted not_after l -> ascending l.
Proof.
  induction 1 as [|x l Hs IH Hhd]; intros i a b Ha Hb; [discriminate|].
  destruct i as [|i]; simpl in Ha, Hb.
  - injection Ha as <-. destruct l as [|y l]; [discriminate|].
    injection Hb as <-. now apply HdRel_inv in Hhd.
  - exact (IH i a b Ha Hb).
Qed.

End SortFacts.

Section FetchFacts.
Variable srv : nat -> RestQuery -> response.
Hypothesis Hsucc : pages_succeed srv.
Hypothesis Hlim : pages_within_limit srv.

Lemma sub_num (a b : Z) : sub (num a) (num b) = num (a - b).
Proof.
  unfold sub, num, neg, add, Qplus, Qopp, inject_Z. simpl.
  do 2 f_equal. lia.
Qed.

Lemma toCandle_timed (row : list value) :
  is_nan (ToNumber (index row 0)) = false -> timed (toCandle row).
Proof.
  unfold timed, toCandle. cbn [time].
  destruct (ToNumber (index row 0)) as [| |q|]; try discriminate;
    intros _; reflexivity.
Qed.

(** one turn of the [while] loop *)
Lemma fetch_loop_eq (fuel : nat) (sym intv : string)
    (targetCandles : number) (targetStartMs : option number)
    (endTime : number) (collected : list CandlestickData)
    (sent : list RestQuery) :
  fetch_loop fuel srv sym intv targetCandles targetStartMs endTime
    collected sent
  = if negb (lt (of_nat (length collected)) targetCandles)
    then Some (sent, inr collected)
    else
      match fuel with
      | O => None
      | S fuel' =>
          let remaining := sub targetCandles (of_nat (length collected)) in
          let limit := Math_min (num MAX_PER_REQUEST) remaining in
          let rq := buildRestUrl sym intv limit (Some endTime) in
          let sent' := sent ++ [rq] in
          match srv (length sent) rq with
          | Reject e => Some (sent', inl e)
          | Status st => Some (sent', inl (Error (status_message st)))
          | Page payload =>
              match payload with
              | [] => Some (sent', inr collected)
              | row0 :: _ =>
                  let chunk := map toCandle payload in
                  let collected' := collected ++ chunk in
                  let firstOpen := ToNumber (index row0 0) in
                  let endTime' := sub firstOpen (num 1) in
                  if match targetStartMs with
                     | Some t => truthy t && le firstOpen t
                     | None => false
                     end
                  then Some (sent', inr collected')
                  else if lt (of_nat (length chunk)) limit
                  then Some (sent', inr collected')
                  else fetch_loop fuel' srv sym intv targetCandles
                         targetStartMs endTime' collected' sent'
              end
          end
      end.
Proof. destruct fuel; reflexivity. Qed.

(** the loop leaves at once when enough candles are collected *)
Lemma fetch_loop_done (fuel : nat) (sym intv : string) (c : Z)
    (targetStartMs : option number) (endTime : number)
    (collected : list CandlestickData) (sent : list RestQuery) :
  c <= Z.of_nat (length collected) ->
  fetch_loop fuel srv sym intv (num c) targetStartMs endTime collected sent
  = Some (sent, inr collected).
Proof.
  intros H. rewrite fetch_loop_eq. unfold of_nat. rewrite lt_num.
  destruct (Z.of_nat (length collected) <? c) eqn:E; [lia|reflexivity].
Qed.

(** the loop returns, with at most [c] candles, all of them with the
    property [P] the transformed records have *)
Lemma fetch_loop_total (P : CandlestickData -> Prop) :
  (forall n rq payload row,
     srv n rq = Page payload -> row ∈ payload -> P (toCandle row)) ->
  forall (fuel : nat) (sym intv : string) (c : Z)
         (targetStartMs : option number) (endTime : number)
         (collected : list CandlestickData) (sent : list RestQuery),
    Z.of_nat (length collected) <= c ->
    Forall P collected ->
    c - Z.of_nat (length collected) <= Z.of_nat fuel ->
    exists sent' cs,
      fetch_loop fuel srv sym intv (num c) targetStartMs endTime
        collected sent = Some (sent', inr cs)
      /\ Z.of_nat (length cs) <= c /\ Forall P cs.
Proof.
  intros HP fuel sym intv c targetStartMs.
  induction fuel as [|fuel IH]; intros endTime collected sent Hlen Hall Hm.
  - exists sent, collected. split; [|now split].
    apply fetch_loop_done. lia.
  - rewrite fetch_loop_eq. unfold of_nat at 1. rewrite lt_num.
    destruct (Z.of_nat (length collected) <? c) eqn:E; simpl negb; cbv iota.
    2:{ exists sent, collected. now repeat split. }
    apply Z.ltb_lt in E. cbv zeta.
    unfold of_nat. rewrite sub_num, Math_min_num.
    set (lim := Z.min MAX_PER_REQUEST (c - Z.of_nat (length collected))).
    assert (1 <= lim) as Hlim1 by (unfold lim, MAX_PER_REQUEST; lia).
    set (rq := buildRestUrl sym intv (num lim) (Some endTime)).
    destruct (Hsucc (length sent) rq) as [payload Hp]. rewrite Hp.
    pose proof (Hlim _ _ _ lim Hp eq_refl Hlim1) as Hpl.
    destruct payload as [|row0 rest].
    { eexists _, _. now repeat split. }
    set (payload := row0 :: rest) in *.
    assert (Forall P (collected ++ map toCandle payload)) as Hall'.
    { apply Forall_app. split; [exact Hall|].
      apply Forall_forall. intros b Hb.
      apply list_elem_of_fmap in Hb as (row & -> & Hrow).
      exact (HP _ _ _ _ Hp Hrow). }
    assert (Z.of_nat (length (collected ++ map toCandle payload)) <= c)
      as Hlen'.
    { rewrite length_app, length_map. unfold lim in Hpl. lia. }
    destruct (match targetStartMs with
              | Some t => truthy t && le (ToNumber (index row0 0)) t
              | None => false
              end).
    { eexists _, _. now repeat split. }
    rewrite lt_num.
    destruct (Z.of_nat (length (map toCandle payload)) <? lim) eqn:El.
    { eexists _, _. now repeat split. }
    apply Z.ltb_ge in El. rewrite length_map in El.
    apply IH; [exact Hlen'|exact Hall'|].
    rewrite length_app, length_map. lia.
Qed.

(** a target of at most one page is met with exactly one request *)
Lemma fetch_loop_single_page (fuel : nat) (sym intv : string) (c : Z)
    (targetStartMs : option number) (endTime : number) :
  1 <= c <= MAX_PER_REQUEST ->
  exists cs,
    fetch_loop (S fuel) srv sym intv (num c) targetStartMs endTime [] []
    = Some ([buildRestUrl sym intv (num c) (Some endTime)], inr cs).
Proof.
  intros Hc. rewrite fetch_loop_eq. unfold of_nat at 1. rewrite lt_num.
  simpl length. change (Z.of_nat 0) with 0.
  destruct (0 <? c) eqn:E; [|lia]. simpl negb. cbv iota zeta.
  unfold of_nat. change (Z.of_nat 0) with 0.
  rewrite sub_num, Math_min_num.
  replace (Z.min MAX_PER_REQUEST (c - 0)) with c by lia.
  set (rq := buildRestUrl sym intv (num c) (Some endTime)).
  destruct (Hsucc 0%nat rq) as [payload Hp]. rewrite Hp.
  pose proof (Hlim _ _ _ c Hp eq_refl (proj1 Hc)) as Hpl.
  destruct payload as [|row0 rest]; [eexists; reflexivity|].
  set (payload := row0 :: rest) in *. simpl app.
  destruct (match targetStartMs with
            | Some t => truthy t && le (ToNumber (index row0 0)) t
            | None => false
            end); [eexists; reflexivity|].
  rewrite lt_num.
  destruct (Z.of_nat (length (map toCandle payload)) <? c) eqn:El;
    [eexists; reflexivity|].
  apply Z.ltb_ge in El.
  rewrite fetch_loop_done by exact El. eexists; reflexivity.
Qed.

End FetchFacts.

Section ProviderFacts.
Variable rows : list (list value).

Lemma fixed_pages_succeed : pages_succeed (fixed_pages rows).
Proof.
  intros n rq. unfold fixed_pages.
  destruct (le (of_nat (length rows)) (q_limit rq)); eexists; reflexivity.
Qed.

Lemma fixed_pages_within_limit : pages_within_limit (fixed_pages rows).
Proof.
  intros n rq payload c H Hq Hc. unfold fixed_pages in H.
  rewrite Hq in H. unfold of_nat in H. rewrite le_num in H.
  destruct (Z.of_nat (length rows) <=? c) eqn:E; injection H as <-.
  - lia.
  - simpl. lia.
Qed.

Lemma fixed_pages_numeric :
  Forall (fun row => is_nan (ToNumber (index row 0)) = false) rows ->
  numeric_open_times (fixed_pages rows).
Proof.
  intros Hall n rq payload row H Hin. unfold fixed_pages in H.
  rewrite Forall_forall in Hall.
  destruct (le (of_nat (length rows)) (q_limit rq)); injection H as <-.
  - now apply Hall.
  - inversion Hin.
Qed.

End ProviderFacts.

(** whatever order a sort leaves them in, bars do not ascend when one of
    two or more has the time NaN *)
Lemma nan_time_never_ascends (a b : CandlestickData)
    (cs : list CandlestickData) :
  is_nan (time a) = true -> cs ≡ₚ [a; b] -> ~ ascending cs.
Proof.
  intros Ha Hp Hasc.
  assert (length cs = 2%nat) as Hl by (now rewrite Hp).
  destruct cs as [|x [|y [|z cs]]]; try discriminate.
  specialize (Hasc 0%nat x y eq_refl eq_refl).
  assert (a ∈ [x; y]) as Hin by (rewrite Hp; apply list_elem_of_here).
  apply elem_of_cons in Hin as [->|Hin].
  - destruct (time x); simpl in *; congruence.
  - apply list_elem_of_singleton in Hin as ->.
    destruct (time x), (time y); simpl in *; congruence.
Qed.




(* ===================================================================== *)
(** ** Further properties: the range helpers                             *)
(* ===================================================================== *)

Import BinanceHelpers.

Section CoverageFacts.

Lemma candlesNeededForPreset_eq (preset : HistoryPreset)
    (interval : string) :
  candlesNeededForPreset preset interval =
  match minutes preset with
  | Fin q => num (Qceiling (q / inject_Z (duration interval)))
  | _ => PosInf
  end.
Proof.
  unfold candlesNeededForPreset. fold (duration interval).
  pose proof (duration_positive interval) as Hd.
  destruct (minutes preset) as [| |q|]; simpl; try reflexivity.
  rewrite Qeq_bool_inject_nonzero by lia. reflexivity.
Qed.

Lemma actualCoverageDays_eq (preset : HistoryPreset) (interval : string)
    (c : Z) :
  maxCandlesForPreset preset interval = num c ->
  actualCoverageDays preset interval
  = Fin (inject_Z c * inject_Z (duration interval) / (60 * 24)).
Proof.
  intros Hc. unfold actualCoverageDays. fold (duration interval).
  rewrite Hc. reflexivity.
Qed.

Lemma coverage_minutes (x : Q) :
  (x / (60 * 24) * inject_Z 1440 == x)%Q.
Proof. field. Qed.

End CoverageFacts.

(** X1. A preset is reported as capped exactly when the cap is below the
    candles the preset needs; the cap is then 50000, and otherwise it is
    the number of candles needed. *)
Theorem isPresetCapped_spec (preset : HistoryPreset) (interval : string) :
  (isPresetCapped preset interval = true
   <-> lt (maxCandlesForPreset preset interval)
          (candlesNeededForPreset preset interval) = true)
  /\ (isPresetCapped preset interval = true ->
      maxCandlesForPreset preset interval = num 50000)
  /\ (isPresetCapped preset interval = false ->
      maxCandlesForPreset preset interval
      = candlesNeededForPreset preset interval).
Proof.
  unfold isPresetCapped.
  rewrite maxCandlesForPreset_eq, candlesNeededForPreset_eq.
  destruct (minutes preset) as [| |q|];
    try (split; [split; reflexivity|split; [reflexivity|discriminate]]).
  set (c := Qceiling (q / inject_Z (duration interval))).
  unfold gt, MAX_CANDLES_CAP. rewrite !lt_num.
  destruct (50000 <? c) eqn:E.
  - apply Z.ltb_lt in E. replace (Z.min c 50000) with 50000 by lia.
    split; [|split; [reflexivity|discriminate]].
    split; intros _; [now apply Z.ltb_lt|reflexivity].
  - apply Z.ltb_ge in E. replace (Z.min c 50000) with c by lia.
    rewrite Z.ltb_irrefl.
    split; [tauto|]. split; [discriminate|reflexivity].
Qed.

Lemma isPresetCapped_spec_witness :
  maxCandlesForPreset (mkPreset "Last 90 days" (num (90 * 24 * 60))) "1m"
  = num 50000
  /\ maxCandlesForPreset (mkPreset "Last 90 days" (num (90 * 24 * 60))) "1h"
     = candlesNeededForPreset
         (mkPreset "Last 90 days" (num (90 * 24 * 60))) "1h".
Proof.
  split.
  - apply (isPresetCapped_spec
             (mkPreset "Last 90 days" (num (90 * 24 * 60))) "1m").
    reflexivity.
  - apply (isPresetCapped_spec
             (mkPreset "Last 90 days" (num (90 * 24 * 60))) "1h").
    reflexivity.
Defined.

Section CoverageBounds.
Variables (q : Q) (d : Z).
Hypothesis Hd : 1 <= d.

Lemma ceiling_times_duration :
  (q <= inject_Z (Qceiling (q / inject_Z d)) * inject_Z d)%Q
  /\ (inject_Z (Qceiling (q / inject_Z d)) * inject_Z d
      < q + inject_Z d)%Q.
Proof.
  assert (0 < inject_Z d)%Q as HD
    by (change 0%Q with (inject_Z 0); rewrite <- Zlt_Qlt; lia).
  assert (q / inject_Z d * inject_Z d == q)%Q as Hx.
  { field. intros E. rewrite E in HD. exact (Qlt_irrefl _ HD). }
  pose proof (Qle_ceiling (q / inject_Z d)) as H1.
  pose proof (Qceiling_lt (q / inject_Z d)) as H2.
  unfold Z.sub in H2. rewrite inject_Z_plus, inject_Z_opp in H2.
  set (x := (q / inject_Z d)%Q) in *.
  set (C := inject_Z (Qceiling x)) in *.
  split.
  - rewrite <- Hx. apply Qmult_le_compat_r; [exact H1|].
    now apply Qlt_le_weak.
  - assert ((C + - inject_Z 1) * inject_Z d < x * inject_Z d)%Q as H3
      by (apply Qmult_lt_compat_r; assumption).
    rewrite Hx in H3. change (inject_Z 1) with 1%Q in H3. lra.
Qed.

Lemma above_cap_depth (n : Z) :
  n < Qceiling (q / inject_Z d) -> (inject_Z n * inject_Z d < q)%Q.
Proof.
  intros Hn.
  assert (0 < inject_Z d)%Q as HD
    by (change 0%Q with (inject_Z 0); rewrite <- Zlt_Qlt; lia).
  assert (q / inject_Z d * inject_Z d == q)%Q as Hx.
  { field. intros E. rewrite E in HD. exact (Qlt_irrefl _ HD). }
  rewrite <- Hx. apply Qmult_lt_compat_r; [exact HD|].
  pose proof (Qceiling_lt (q / inject_Z d)) as H2.
  eapply Qle_lt_trans; [|exact H2].
  rewrite <- Zle_Qle. lia.
Qed.

End CoverageBounds.



(* ===================================================================== *)
(** ** Further properties: the pagination loop, whatever the provider    *)
(* ===================================================================== *)

Section LoopFacts.
Variable srv : nat -> RestQuery -> response.
Variables (sym intv : string) (c : Z) (targetStartMs : option number).

Lemma buildRestUrl_chained (k : nat) (limit endTime : number) :
  chained srv sym intv k endTime
    [buildRestUrl sym intv limit (Some endTime)].
Proof. simpl. repeat split. Qed.

(** the requests a run of the loop adds, and what it returns *)
Lemma fetch_loop_trace (fuel : nat) :
  forall (endTime : number) (collected : list CandlestickData)
         (sent out : list RestQuery) (res : exn + list CandlestickData),
    fetch_loop fuel srv sym intv (num c) targetStartMs endTime collected
      sent = Some (out, res) ->
    exists new : list RestQuery,
      out = sent ++ new
      /\ Forall limit_in_range new
      /\ (new = [] \/
          1500 * (Z.of_nat (length new) - 1)
          < c - Z.of_nat (length collected))
      /\ chained srv sym intv (length sent) endTime new
      /\ match res with
         | inr cs =>
             cs = collected ++ received srv (length sent) new
             /\ answered srv (length sent) new
         | inl err =>
             exists new0 rq,
               new = new0 ++ [rq]
               /\ answered srv (length sent) new0
               /\ failed_with srv (length sent + length new0) rq err
         end.
Proof.
  induction fuel as [|fuel IH]; intros endTime collected sent out res H;
    rewrite fetch_loop_eq in H; unfold of_nat in H; rewrite lt_num in H;
    destruct (Z.of_nat (length collected) <? c) eqn:E;
    simpl negb in H; cbv iota in H.
  1: discriminate.
  1, 3: injection H as <- <-; exists []; rewrite !app_nil_r;
    repeat split; [constructor|now left].
  apply Z.ltb_lt in E. cbv zeta in H.
  rewrite sub_num, Math_min_num in H.
  set (lim := Z.min MAX_PER_REQUEST (c - Z.of_nat (length collected))) in *.
  assert (1 <= lim <= MAX_PER_REQUEST) as Hl
    by (unfold lim, MAX_PER_REQUEST; lia).
  set (rq := buildRestUrl sym intv (num lim) (Some endTime)) in *.
  assert (limit_in_range rq) as Hrq by (exists lim; now split).
  assert (chained srv sym intv (length sent) endTime [rq]) as Hch
    by apply buildRestUrl_chained.
  assert (1500 * (Z.of_nat (length [rq]) - 1)
          < c - Z.of_nat (length collected)) as Hone by (simpl; lia).
  destruct (srv (length sent) rq) as [payload|st|e] eqn:Hresp.
  2, 3: injection H as <- <-; exists [rq];
    (split; [reflexivity|]); (split; [now constructor|]);
    (split; [now right|]); (split; [exact Hch|]);
    exists [], rq; (split; [reflexivity|]); (split; [exact I|]);
    unfold failed_with; simpl length; rewrite Nat.add_0_r, Hresp;
    reflexivity.
  assert (received srv (length sent) [rq] = map toCandle payload) as Hrec
    by (simpl; now rewrite Hresp, app_nil_r).
  assert (answered srv (length sent) [rq]) as Hans
    by (simpl; split; [now exists payload|exact I]).
  destruct payload as [|row0 rest].
  { injection H as <- <-. exists [rq].
    split; [reflexivity|]. split; [now constructor|].
    split; [now right|]. split; [exact Hch|]. split; [|exact Hans].
    rewrite Hrec. simpl. now rewrite ?app_nil_r. }
  set (payload := row0 :: rest) in *.
  destruct (match targetStartMs with
            | Some t => truthy t && le (ToNumber (index row0 0)) t
            | None => false
            end).
  { injection H as <- <-. exists [rq].
    split; [reflexivity|]. split; [now constructor|].
    split; [now right|]. split; [exact Hch|]. split; [|exact Hans].
    rewrite Hrec. simpl. now rewrite ?app_nil_r. }
  rewrite lt_num in H.
  destruct (Z.of_nat (length (map toCandle payload)) <? lim) eqn:El.
  { injection H as <- <-. exists [rq].
    split; [reflexivity|]. split; [now constructor|].
    split; [now right|]. split; [exact Hch|]. split; [|exact Hans].
    rewrite Hrec. simpl. now rewrite ?app_nil_r. }
  apply Z.ltb_ge in El.
  apply IH in H as (new & -> & Hlimits & Hcount & Hchain & Hres).
  rewrite length_app in Hchain, Hres. simpl length in Hchain, Hres.
  rewrite Nat.add_1_r in Hchain, Hres.
  exists (rq :: new). split; [now rewrite <- app_assoc|].
  split; [now constructor|]. split; [|split].
  - right. rewrite length_app, Nat2Z.inj_add in Hcount.
    destruct new as [|rq' new]; [simpl; lia|].
    destruct Hcount as [Hnil|Hcount]; [discriminate|].
    change (length (rq :: rq' :: new)) with (S (length (rq' :: new))).
    unfold lim, MAX_PER_REQUEST in El. lia.
  - simpl. repeat split. destruct new as [|rq' new]; [exact I|].
    exists row0, rest. now split.
  - destruct res as [err|cs].
    + destruct Hres as (new0 & rq' & -> & Hans0 & Hfail).
      exists (rq :: new0), rq'. split; [reflexivity|].
      split; [simpl; split; [now exists payload|exact Hans0]|].
      simpl length.
      replace (length sent + S (length new0))%nat
        with (S (length sent) + length new0)%nat by lia.
      exact Hfail.
    + destruct Hres as [-> Hans0]. split.
      * simpl. rewrite Hresp. now rewrite <- app_assoc.
      * simpl. split; [now exists payload|exact Hans0].
Qed.

(** the loop returns as soon as the fuel covers the pages still needed *)
Lemma fetch_loop_returns (fuel : nat) :
  forall (endTime : number) (collected : list CandlestickData)
         (sent : list RestQuery),
    c - Z.of_nat (length collected) <= 1500 * Z.of_nat fuel ->
    exists r,
      fetch_loop fuel srv sym intv (num c) targetStartMs endTime
        collected sent = Some r.
Proof.
  induction fuel as [|fuel IH]; intros endTime collected sent Hm;
    rewrite fetch_loop_eq; unfold of_nat; rewrite lt_num;
    destruct (Z.of_nat (length collected) <? c) eqn:E;
    simpl negb; cbv iota; try (eexists; reflexivity).
  1: apply Z.ltb_lt in E; lia.
  apply Z.ltb_lt in E. cbv zeta. rewrite sub_num, Math_min_num.
  set (lim := Z.min MAX_PER_REQUEST (c - Z.of_nat (length collected))).
  destruct (srv _ _) as [payload|st|e]; try (eexists; reflexivity).
  destruct payload as [|row0 rest]; [eexists; reflexivity|].
  destruct (match targetStartMs with
            | Some t => truthy t && le (ToNumber (index row0 0)) t
            | None => false
            end); [eexists; reflexivity|].
  rewrite lt_num.
  destruct (Z.of_nat (length (map toCandle (row0 :: rest))) <? lim) eqn:El;
    [eexists; reflexivity|].
  apply Z.ltb_ge in El. apply IH.
  rewrite length_app. unfold lim, MAX_PER_REQUEST in *. lia.
Qed.

End LoopFacts.

Section FetchRuns.
Variables (e : env) (sym intv : string) (preset : HistoryPreset).

(** what [fetchHistorical] returns, in terms of the run of its loop *)
Lemma fetchHistorical_inv (fuel : nat) (sent : list RestQuery)
    (res : exn + list CandlestickData) :
  fetchHistorical fuel e sym intv preset = Some (sent, res) ->
  exists (c : Z) (ts : option number) (res0 : exn + list CandlestickData),
    maxCandlesForPreset preset intv = num c /\ c <= 50000
    /\ fetch_loop fuel (server e) sym intv (num c) ts (now_cursor e) [] []
       = Some (sent, res0)
    /\ res = match res0 with
             | inr collected => inr (Array_sort comparefn collected)
             | inl err => inl err
             end.
Proof.
  destruct (maxCandlesForPreset_int preset intv) as (c & Hc & Hle).
  unfold fetchHistorical. rewrite Hc.
  set (ts := if isFinite (minutes preset) then _ else None).
  destruct (fetch_loop fuel (server e) sym intv (num c) ts (now_cursor e)
              [] []) as [[sent0 [err|collected]]|] eqn:Hrun;
    intros H; [| |discriminate]; injection H as <- <-.
  - exists c, ts, (inl err). now repeat split.
  - exists c, ts, (inr collected). now repeat split.
Qed.

Lemma fetchHistorical_returns (fuel : nat) :
  (34 <= fuel)%nat ->
  exists r, fetchHistorical fuel e sym intv preset = Some r.
Proof.
  intros Hf.
  destruct (maxCandlesForPreset_int preset intv) as (c & Hc & Hle).
  unfold fetchHistorical. rewrite Hc.
  set (ts := if isFinite (minutes preset) then _ else None).
  destruct (fetch_loop_returns (server e) sym intv c ts fuel
              (now_cursor e) [] []) as [[sent [err|cs]] ->];
    [simpl; lia| |]; eexists; reflexivity.
Qed.

End FetchRuns.

(** X3. Whatever the provider answers, one call of [fetchHistorical]
    comes back after at most 34 page requests, each for a whole number of
    1 to 1500 records. *)
Theorem fetchHistorical_bounded_requests (e : env) (sym intv : string)
    (preset : HistoryPreset) (fuel : nat) :
  (34 <= fuel)%nat ->
  exists (sent : list RestQuery) (res : exn + list CandlestickData),
    fetchHistorical fuel e sym intv preset = Some (sent, res)
    /\ (length sent <= 34)%nat
    /\ Forall limit_in_range sent.
Proof.
  intros Hf.
  destruct (fetchHistorical_returns e sym intv preset fuel Hf)
    as [[sent res] Hrun].
  exists sent, res. split; [exact Hrun|].
  apply fetchHistorical_inv in Hrun as (c & ts & res0 & _ & Hle & Hrun & _).
  apply fetch_loop_trace in Hrun as (new & Hout & Hlimits & Hcount & _).
  simpl in Hout. subst new. split; [|exact Hlimits].
  destruct Hcount as [->|Hcount]; simpl in *; lia.
Qed.

Lemma fetchHistorical_bounded_requests_witness :
  exists (sent : list RestQuery) (res : exn + list CandlestickData),
    fetchHistorical 34
      (mkEnv (num 1700000000000) (num 1700000000000)
         (fun _ _ => Status 429))
      "BTCUSDT" "1m" (mkPreset "Max available" PosInf)
    = Some (sent, res)
    /\ (length sent <= 34)%nat
    /\ Forall limit_in_range sent.
Proof.
  apply fetchHistorical_bounded_requests. lia.
Defined.

(** X4. [fetchHistorical] fails exactly on the first page request that
    does not succeed: every request before the last one sent got a page,
    the last one was rejected or answered with a status that is not OK,
    and what is thrown is the rejection itself or the error
    "Unable to fetch history (status)".  When it returns bars, every
    request got a page. *)
Theorem fetchHistorical_failure (e : env) (sym intv : string)
    (preset : HistoryPreset) (fuel : nat) (sent : list RestQuery)
    (res : exn + list CandlestickData) :
  fetchHistorical fuel e sym intv preset = Some (sent, res) ->
  match res with
  | inl err =>
      exists sent0 rq,
        sent = sent0 ++ [rq]
        /\ answered (server e) 0 sent0
        /\ failed_with (server e) (length sent0) rq err
  | inr _ => answered (server e) 0 sent
  end.
Proof.
  intros Hrun.
  apply fetchHistorical_inv in Hrun as (c & ts & res0 & _ & _ & Hrun & ->).
  apply fetch_loop_trace in Hrun as (new & Hout & _ & _ & _ & Hres).
  simpl in Hout. subst new. destruct res0 as [err|cs].
  - exact Hres.
  - exact (proj2 Hres).
Qed.

Lemma fetchHistorical_failure_witness :
  exists sent0 rq,
    [buildRestUrl "BTCUSDT" "1m" (num 1500) (Some (num 1700000000000))]
    = sent0 ++ [rq]
    /\ answered (fun _ _ => Status 429) 0 sent0
    /\ failed_with (fun _ _ => Status 429) (length sent0) rq
         (Error "Unable to fetch history (429)").
Proof.
  apply (fetchHistorical_failure
           (mkEnv (num 1700000000000) (num 1700000000000)
              (fun _ _ => Status 429))
           "BTCUSDT" "1m" (mkPreset "Max available" PosInf) 34
           [buildRestUrl "BTCUSDT" "1m" (num 1500)
              (Some (num 1700000000000))]
           (inl (Error "Unable to fetch history (429)"))).
  reflexivity.
Defined.

(** X5. The page requests of one call of [fetchHistorical] walk back in
    time: all are for the symbol and interval of the call, the first
    ends at the clock reading, and each later one ends one millisecond
    before the open time of the first record of the page before it (an
    end time of 0 or NaN is left out of the request). *)
Theorem fetchHistorical_cursor (e : env) (sym intv : string)
    (preset : HistoryPreset) (fuel : nat) (sent : list RestQuery)
    (res : exn + list CandlestickData) :
  fetchHistorical fuel e sym intv preset = Some (sent, res) ->
  chained (server e) sym intv 0 (now_cursor e) sent.
Proof.
  intros Hrun.
  apply fetchHistorical_inv in Hrun as (c & ts & res0 & _ & _ & Hrun & _).
  apply fetch_loop_trace in Hrun as (new & Hout & _ & _ & Hch & _).
  simpl in Hout. now subst new.
Qed.

Lemma fetchHistorical_cursor_witness :
  let e := mkEnv (num 1700000000000) (num 1700000000000)
             (steady_provider 60000 28331733) in
  chained (server e) "BTCUSDT" "1m" 0 (now_cursor e)
    [buildRestUrl "BTCUSDT" "1m" (num 1500) (Some (num 1700000000000));
     buildRestUrl "BTCUSDT" "1m" (num 1500) (Some (num 1699910039999))].
Proof.
  intros e.
  apply (fetchHistorical_cursor e "BTCUSDT" "1m"
           (mkPreset "Max available" PosInf) 34 _
           (default (inl Thrown)
              (snd <$> fetchHistorical 34 e "BTCUSDT" "1m"
                         (mkPreset "Max available" PosInf)))).
  vm_compute. reflexivity.
Defined.

(** X6. The bars [fetchHistorical] returns are the transformed records
    of all the pages it received, each exactly once: sorting reorders
    them and nothing is dropped, added or merged. *)
Theorem fetchHistorical_keeps_records (e : env) (sym intv : string)
    (preset : HistoryPreset) (fuel : nat) (sent : list RestQuery)
    (cs : list CandlestickData) :
  fetchHistorical fuel e sym intv preset = Some (sent, inr cs) ->
  cs ≡ₚ received (server e) 0 sent.
Proof.
  intros Hrun.
  apply fetchHistorical_inv in Hrun as (c & ts & res0 & _ & _ & Hrun & Hres).
  apply fetch_loop_trace in Hrun as (new & Hout & _ & _ & _ & Hrec).
  simpl in Hout. subst new. destruct res0 as [err|collected]; [discriminate|].
  injection Hres as ->. destruct Hrec as [-> _]. simpl.
  apply Array_sort_perm.
Qed.

Lemma fetchHistorical_keeps_records_witness :
  let e := mkEnv (num 1700000000000) (num 1700000000000)
             (fixed_pages [kline 120000; []; kline 60000; kline 120000]) in
  [toCandle (kline 60000); toCandle (kline 120000); toCandle [];
   toCandle (kline 120000)]
  ≡ₚ received (server e) 0
       [buildRestUrl "BTCUSDT" "1m" (num 500) (Some (num 1700000000000))].
Proof.
  intros e.
  apply (fetchHistorical_keeps_records e "BTCUSDT" "1m"
           (mkPreset "Last 500 candles (~8h)" (num 500)) 34).
  reflexivity.
Defined.

(* ===================================================================== *)
(** ** Further properties: history loading                               *)
(* ===================================================================== *)

Section LoadFacts.
Implicit Types (h : history) (ev : event).

Lemma step_requestIdRef h ev :
  requestIdRef (step h ev)
  = requestIdRef h + match ev with LoadHistory => 1 | _ => 0 end.
Proof.
  destruct ev as [|requestId r now| |cap b]; simpl; try lia.
  rewrite settle_requestIdRef. lia.
Qed.

Lemma run_requestIdRef evs h :
  requestIdRef (run h evs) = requestIdRef h + Z.of_nat (loads evs).
Proof.
  revert h. induction evs as [|ev evs IH]; intros h; simpl; [lia|].
  fold (run (step h ev) evs). rewrite IH, step_requestIdRef.
  destruct ev; lia.
Qed.

Lemma run_app h evs evs' : run h (evs ++ evs') = run (run h evs) evs'.
Proof. apply foldl_app. Qed.

Lemma settle_loading_current (requestId : Z) r (now : number) h :
  requestId = requestIdRef h ->
  historyLoading (loadHistory_settle requestId r now h) = false.
Proof.
  intros ->. unfold loadHistory_settle. rewrite Z.eqb_refl.
  destruct r as [[|m|]|cs]; simpl; rewrite Z.eqb_refl; reflexivity.
Qed.

Lemma settle_loading_stale (requestId : Z) r (now : number) h :
  requestId <> requestIdRef h ->
  historyLoading (loadHistory_settle requestId r now h) = historyLoading h.
Proof.
  intros Hne. apply Z.eqb_neq in Hne. unfold loadHistory_settle.
  destruct r as [[|m|]|cs]; simpl; rewrite ?Hne; simpl; rewrite ?Hne;
    reflexivity.
Qed.

End LoadFacts.

(** X7. Every call of [loadHistory] takes the request id one above the
    last, so after any run of events the id counts the calls made and a
    later call never gets the id of an earlier one. *)
Theorem loadHistory_fresh_ids (h : history) (evs evs' : list event) :
  requestIdRef (run h evs) = requestIdRef h + Z.of_nat (loads evs)
  /\ fst (loadHistory_begin (run h evs))
     < fst (loadHistory_begin (run h (evs ++ LoadHistory :: evs'))).
Proof.
  split; [apply run_requestIdRef|].
  simpl. rewrite !run_requestIdRef.
  assert (loads (evs ++ LoadHistory :: evs')
          = S (loads evs + loads evs')) as ->.
  { induction evs as [|ev evs IH]; simpl; [reflexivity|].
    destruct ev; simpl; now rewrite IH. }
  lia.
Qed.

(** X8. The loading flag is raised by a call of [loadHistory] and is
    lowered when the latest call settles, whatever it settles with: with
    candles, with an error, or aborted.  An earlier call that settles
    after it was superseded leaves the flag as it is. *)
Theorem loadHistory_loading_flag (h : history) (evs : list event)
    (r : exn + list CandlestickData) (now : number) :
  let '(id, h1) := loadHistory_begin h in
  historyLoading h1 = true
  /\ (loads evs = 0%nat ->
      historyLoading (loadHistory_settle id r now (run h1 evs)) = false)
  /\ (loads evs <> 0%nat ->
      historyLoading (loadHistory_settle id r now (run h1 evs))
      = historyLoading (run h1 evs)).
Proof.
  simpl. split; [reflexivity|].
  match goal with |- context [run ?x evs] => set (h1 := x) end.
  assert (requestIdRef (run h1 evs)
          = requestIdRef h + 1 + Z.of_nat (loads evs)) as Hid
    by (rewrite run_requestIdRef; reflexivity).
  split; intros Hl.
  - apply settle_loading_current. rewrite Hid, Hl. simpl. lia.
  - apply settle_loading_stale. rewrite Hid. lia.
Qed.

Lemma loadHistory_loading_flag_witness :
  historyLoading
    (loadHistory_settle 1 (inl AbortError) (num 0)
       (run (snd (loadHistory_begin initial_history))
          [Incoming (num 500) (mkCandle (num 60) NaN NaN NaN NaN)]))
  = false.
Proof.
  apply (loadHistory_loading_flag initial_history
           [Incoming (num 500) (mkCandle (num 60) NaN NaN NaN NaN)]
           (inl AbortError) (num 0)).
  reflexivity.
Defined.

(** X9. A fetch that ends with an AbortError is dropped without a trace:
    it sets no error and touches neither the series nor the time of the
    last update.  A fetch that fails in any other way sets the error
    message, also when it was superseded, and then it changes nothing
    but the message. *)
Theorem loadHistory_errors (h : history) (requestId : Z) (now : number) :
  error (loadHistory_settle requestId (inl AbortError) now h) = error h
  /\ candles (loadHistory_settle requestId (inl AbortError) now h)
     = candles h
  /\ lastUpdated (loadHistory_settle requestId (inl AbortError) now h)
     = lastUpdated h
  /\ (forall message : string,
        error (loadHistory_settle requestId (inl (Error message)) now h)
        = Some message)
  /\ error (loadHistory_settle requestId (inl Thrown) now h)
     = Some "Failed to load historical data"%string
  /\ (forall e : exn,
        requestId <> requestIdRef h -> e <> AbortError ->
        loadHistory_settle requestId (inl e) now h
        = setError
            (error (loadHistory_settle requestId (inl e) now h)) h).
Proof.
  unfold loadHistory_settle. simpl.
  destruct (requestId =? requestIdRef h) eqn:E; simpl;
    repeat split; try reflexivity;
    intros e Hne He; apply Z.eqb_neq in Hne; try congruence;
    destruct e; try contradiction; simpl; rewrite E; reflexivity.
Qed.

Lemma loadHistory_errors_witness :
  loadHistory_settle 1 (inl (Error "Unable to fetch history (500)")) (num 0)
    (run (snd (loadHistory_begin initial_history)) [LoadHistory])
  = setError (Some "Unable to fetch history (500)"%string)
      (run (snd (loadHistory_begin initial_history)) [LoadHistory]).
Proof.
  destruct (loadHistory_errors
              (run (snd (loadHistory_begin initial_history)) [LoadHistory])
              1 (num 0)) as (_ & _ & _ & _ & _ & H).
  apply (H (Error "Unable to fetch history (500)")); [|discriminate].
  vm_compute. discriminate.
Defined.

(* ===================================================================== *)
(** ** Further properties: the merge                                     *)
(* ===================================================================== *)

Section StreamFacts.
Implicit Types (s : list CandlestickData) (b l : CandlestickData).

Lemma strict_eq_trans (a b c : number) :
  strict_eq a b = true -> strict_eq b c = true -> strict_eq a c = true.
Proof.
  destruct a as [| |x|], b as [| |y|], c as [| |z|]; simpl;
    try congruence.
  rewrite !Qeq_bool_iff. intros -> ->. reflexivity.
Qed.

Lemma gt_strict_eq_l (a b c : number) :
  strict_eq a b = true -> gt a c = gt b c.
Proof.
  unfold gt.
  destruct a as [| |x|], b as [| |y|], c as [| |z|]; simpl;
    try congruence.
  intros E. apply Qeq_bool_iff in E. unfold Qlt_bool.
  now rewrite (Qleb_comp _ _ E z z (Qeq_refl z)).
Qed.

(** a merge under a positive whole cap, when the bar is appended *)
Lemma merge_append (cap : Z) b s :
  1 <= cap ->
  (forall l, last s = Some l -> gt (time b) (time l) = true) ->
  applyIncomingCandle (num cap) b s
  = drop (length s + 1 - Z.to_nat cap) (s ++ [b]).
Proof.
  intros Hc Hnew. destruct (last s) as [l|] eqn:El.
  - apply last_Some in El as [s0 ->].
    rewrite merge_newer by exact (Hnew l eq_refl).
    rewrite slice_last_n by exact Hc. now rewrite !length_app.
  - apply last_None in El as ->.
    now rewrite merge_empty, slice_last_n by exact Hc.
Qed.

Lemma increasing_app_older s b bars l :
  increasing (s ++ b :: bars) -> last s = Some l ->
  gt (time b) (time l) = true.
Proof.
  intros H Hl. apply increasing_sorted in H.
  apply (StronglySorted_app_1_elem_of older s (b :: bars)); [exact H| |].
  - now apply last_Some_elem_of.
  - apply list_elem_of_here.
Qed.

Lemma increasing_drop (k : nat) s : increasing s -> increasing (drop k s).
Proof.
  intros H. apply sorted_increasing, sorted_drop. now apply increasing_sorted.
Qed.

End StreamFacts.

(** X10. A bar whose time is NaN is ignored by a series that is not
    empty, and a series whose last bar has the time NaN is frozen: no
    sequence of merges changes it. *)
Theorem merge_nan_time (s : list CandlestickData) (l : CandlestickData) :
  last s = Some l ->
  (forall (cap : number) (b : CandlestickData),
     time b = NaN -> applyIncomingCandle cap b s = s)
  /\ (time l = NaN ->
      forall bars : list (number * CandlestickData),
        merge_all s bars = s).
Proof.
  intros Hl. apply last_Some in Hl as [s0 ->]. split.
  - intros cap b Hb. apply merge_stale; rewrite Hb.
    + unfold gt. now destruct (time l).
    + now destruct (time l).
  - intros Hnan bars. induction bars as [|[cap b] bars IH]; [reflexivity|].
    simpl. rewrite merge_stale; [exact IH| |]; rewrite Hnan;
      reflexivity.
Qed.

Lemma merge_nan_time_witness :
  merge_all [toCandle []]
    [(num 500, toCandle (kline 60000)); (num 500, toCandle (kline 120000))]
  = [toCandle []].
Proof.
  apply (merge_nan_time [toCandle []] (toCandle [])); reflexivity.
Defined.

(** X11. Merging, under a positive whole cap, a stream of bars that
    continues a series no longer than the cap with strictly increasing
    times gives the series followed by the stream, cut to its last [cap]
    bars. *)
Theorem merge_all_stream (cap : Z) (s bars : list CandlestickData) :
  1 <= cap ->
  Z.of_nat (length s) <= cap ->
  increasing (s ++ bars) ->
  merge_all s (map (fun b => (num cap, b)) bars)
  = drop (length (s ++ bars) - Z.to_nat cap) (s ++ bars).
Proof.
  intros Hc. revert s. induction bars as [|b bars IH]; intros s Hs Hinc.
  - simpl. rewrite app_nil_r.
    replace (length s - Z.to_nat cap)%nat with 0%nat by lia. reflexivity.
  - simpl. fold (merge_all (applyIncomingCandle (num cap) b s)
                   (map (fun b => (num cap, b)) bars)).
    rewrite merge_append;
      [|exact Hc|intros l Hl; exact (increasing_app_older s b bars l Hinc Hl)].
    set (k := (length s + 1 - Z.to_nat cap)%nat).
    assert (drop k (s ++ [b]) ++ bars = drop k (s ++ b :: bars)) as Hd.
    { rewrite (cons_middle b s bars), app_assoc.
      rewrite (drop_app_le (s ++ [b]) bars)
        by (rewrite length_app; simpl; lia).
      reflexivity. }
    rewrite IH.
    + rewrite Hd, drop_drop. f_equal.
      rewrite length_drop, !length_app. simpl. lia.
    + rewrite length_drop, length_app. simpl. lia.
    + rewrite Hd. now apply increasing_drop.
Qed.

Lemma merge_all_stream_witness :
  merge_all (spaced_bars 60 60 2)
    (map (fun b => (num 3, b)) (spaced_bars 180 60 3))
  = spaced_bars 180 60 3.
Proof.
  apply (merge_all_stream 3 (spaced_bars 60 60 2) (spaced_bars 180 60 3));
    [lia|simpl; lia|].
  apply sorted_increasing. repeat constructor.
Defined.

(** X12. Updates of a forming bar overwrite each other: under a positive
    whole cap, merging a bar and then another bar of the same time gives
    what merging the second bar alone gives. *)
Theorem merge_last_update_wins (cap : Z) (b b' : CandlestickData)
    (s : list CandlestickData) :
  1 <= cap ->
  strict_eq (time b) (time b') = true ->
  applyIncomingCandle (num cap) b' (applyIncomingCandle (num cap) b s)
  = applyIncomingCandle (num cap) b' s.
Proof.
  intros Hc E.
  assert (strict_eq (time b') (time b) = true) as E'
    by now rewrite strict_eq_sym.
  assert (forall s0, applyIncomingCandle (num cap) b' (s0 ++ [b])
                     = s0 ++ [b']) as Hover.
  { intros s0. apply merge_same; [|exact E].
    rewrite (gt_strict_eq_l _ _ _ E'). apply lt_irrefl. }
  destruct (last s) as [l|] eqn:El.
  - apply last_Some in El as [s0 ->].
    destruct (gt (time b) (time l)) eqn:G.
    + rewrite (merge_newer _ _ _ _ G), slice_last_n by exact Hc.
      rewrite merge_newer by now rewrite (gt_strict_eq_l _ _ _ E').
      rewrite slice_last_n by exact Hc.
      rewrite !length_app. simpl length.
      rewrite (drop_app_le (s0 ++ [l]) [b]), (drop_app_le (s0 ++ [l]) [b'])
        by (rewrite length_app; simpl; lia).
      apply Hover.
    + destruct (strict_eq (time l) (time b)) eqn:El.
      * rewrite (merge_same _ _ _ _ G El), Hover. symmetry.
        apply merge_same.
        -- now rewrite (gt_strict_eq_l _ _ _ E').
        -- exact (strict_eq_trans _ _ _ El E).
      * now rewrite (merge_stale _ _ _ _ G El).
  - apply last_None in El as ->.
    rewrite !merge_empty, !slice_last_n by exact Hc. simpl.
    replace (1 - Z.to_nat cap)%nat with 0%nat by lia. simpl.
    apply (Hover []).
Qed.

Lemma merge_last_update_wins_witness :
  applyIncomingCandle (num 500) (mkCandle (num 120) (num 7) NaN NaN NaN)
    (applyIncomingCandle (num 500) (mkCandle (num 120) (num 5) NaN NaN NaN)
       (spaced_bars 60 60 1))
  = applyIncomingCandle (num 500) (mkCandle (num 120) (num 7) NaN NaN NaN)
      (spaced_bars 60 60 1).
Proof.
  apply merge_last_update_wins; [lia|reflexivity].
Defined.

(* ===================================================================== *)
(** ** Further properties: the chart effects                             *)
(* ===================================================================== *)

Section ChartFacts.
Import PriceChart.
Implicit Types (r : refs) (s cs : list CandlestickData).

(** the refs after the data effect has seen a series that is not empty *)
Lemma data_effect_tracks r cs first last_ :
  seriesRef r = true -> head cs = Some first -> last cs = Some last_ ->
  let r' := fst (data_effect r cs) in
  seriesRef r' = true /\ hydratedRef r' = true
  /\ prevSymbolRef r' = prevSymbolRef r
  /\ prevLengthRef r' = Z.of_nat (length cs)
  /\ prevFirstTimeRef r' = Some (time first)
  /\ prevLastTimeRef r' = Some (time last_).
Proof.
  intros Hs Hf Hl. unfold data_effect. rewrite Hs, Hf, Hl. simpl.
  repeat split; try assumption.
  destruct (hydratedRef r) eqn:Hh.
  - now destruct (isReset r _ _ _).
  - unfold isReset. now rewrite Hh.
Qed.

Lemma head_is_Some cs : cs <> [] -> exists first, head cs = Some first.
Proof. destruct cs as [|x cs]; [contradiction|]. now exists x. Qed.

Lemma last_is_Some cs : cs <> [] -> exists last_, last cs = Some last_.
Proof.
  intros H. destruct (last cs) eqn:E; [now eexists|].
  now apply last_None in E.
Qed.

(** the first bar of an increasing series has a time that is a number
    as soon as the last bar compares with anything *)
Lemma increasing_first_timed s first l (t : number) :
  increasing s -> head s = Some first -> last s = Some l ->
  lt (time l) t = true \/ strict_eq (time l) t = true ->
  strict_eq (time first) (time first) = true.
Proof.
  intros Hinc Hf Hl Hcmp.
  destruct s as [|x [|y s]]; [discriminate| |].
  - injection Hf as <-. injection Hl as <-.
    destruct Hcmp as [H|H]; destruct (time x); simpl in *;
      try discriminate; try reflexivity; apply Qeq_bool_refl.
  - injection Hf as <-.
    pose proof (Hinc 0%nat x y eq_refl eq_refl) as H.
    destruct (time x); simpl in *; try discriminate; try reflexivity.
    apply Qeq_bool_refl.
Qed.

End ChartFacts.

(** X13. Once the chart is hydrated its refs hold the length, at least
    one, and the first and last times of the series drawn last; so among
    the tests of the reset decision the ones for a zero length and for
    null times only ever fire together with the hydration test. *)
Theorem hydrated_refs_are_set (r : PriceChart.refs) :
  PriceChart.reachable r ->
  PriceChart.hydratedRef r = true ->
  PriceChart.seriesRef r = true
  /\ 1 <= PriceChart.prevLengthRef r
  /\ (exists firstTime lastTime,
        PriceChart.prevFirstTimeRef r = Some firstTime
        /\ PriceChart.prevLastTimeRef r = Some lastTime).
Proof.
  induction 1 as [|r Hr IH|r symbol Hr IH|r cs Hr IH]; simpl.
  - discriminate.
  - intros Hh. destruct (IH Hh) as (_ & Hlen & Htimes). now repeat split.
  - unfold PriceChart.symbol_effect.
    destruct (negb (PriceChart.seriesRef r)); [exact IH|].
    destruct (match PriceChart.prevSymbolRef r with
              | Some s => negb (String.eqb s symbol)
              | None => false
              end); simpl; [discriminate|exact IH].
  - unfold PriceChart.data_effect.
    case_eq (PriceChart.seriesRef r); intros Hs; simpl; [|exact IH].
    destruct cs as [|x cs]; [exact IH|].
    destruct (last (x :: cs)) as [l|] eqn:El; simpl; [|exact IH].
    intros _. split; [reflexivity|]. split; [lia|]. now eexists _, _.
Qed.

Lemma hydrated_refs_are_set_witness :
  1 <= PriceChart.prevLengthRef
         (fst (PriceChart.data_effect
                 (PriceChart.init_effect PriceChart.initial_refs)
                 (spaced_bars 60 60 3))).
Proof.
  apply (hydrated_refs_are_set
           (fst (PriceChart.data_effect
                   (PriceChart.init_effect PriceChart.initial_refs)
                   (spaced_bars 60 60 3)))).
  - apply PriceChart.reach_data, PriceChart.reach_init,
      PriceChart.reach_initial.
  - reflexivity.
Defined.

(** X14. The symbol effect clears the chart exactly when a symbol was
    recorded before and the new one differs from it; the first series
    that is not empty after that is drawn with [setData], whatever its
    length and times, and hydrates the chart again. *)
Theorem symbol_change_resets (r : PriceChart.refs) (symbol : string)
    (cs : list CandlestickData) :
  PriceChart.seriesRef r = true ->
  let r' := fst (PriceChart.symbol_effect r symbol) in
  (snd (PriceChart.symbol_effect r symbol) = true
   <-> exists old, PriceChart.prevSymbolRef r = Some old /\ old <> symbol)
  /\ PriceChart.prevSymbolRef r' = Some symbol
  /\ (snd (PriceChart.symbol_effect r symbol) = true -> cs <> [] ->
      snd (PriceChart.data_effect r' cs) = Some (PriceChart.setData cs)
      /\ PriceChart.hydratedRef (fst (PriceChart.data_effect r' cs))
         = true).
Proof.
  intros Hs. unfold PriceChart.symbol_effect. rewrite Hs. simpl negb.
  cbv iota.
  destruct (PriceChart.prevSymbolRef r) as [old|] eqn:Hold.
  - destruct (String.eqb old symbol) eqn:E; simpl.
    + apply String.eqb_eq in E. split; [|split; [reflexivity|discriminate]].
      split; [discriminate|]. intros (o & [= <-] & Hne). contradiction.
    + apply String.eqb_neq in E. split; [|split; [reflexivity|]].
      * split; [|reflexivity]. intros _. now exists old.
      * intros _ Hcs.
        destruct (head_is_Some cs Hcs) as [first Hf].
        destruct (last_is_Some cs Hcs) as [last_ Hl].
        unfold PriceChart.data_effect. simpl. rewrite Hf, Hl.
        simpl. split; reflexivity.
  - simpl. split; [|split; [reflexivity|discriminate]].
    split; [discriminate|]. intros (o & [=] & _).
Qed.

Lemma symbol_change_resets_witness :
  let r := fst (PriceChart.symbol_effect
                  (fst (PriceChart.data_effect
                          (fst (PriceChart.symbol_effect
                                  (PriceChart.init_effect
                                     PriceChart.initial_refs)
                                  "BTCUSDT"))
                          (spaced_bars 60 60 3)))
                  "ETHUSDT") in
  snd (PriceChart.data_effect r (spaced_bars 60 60 4))
  = Some (PriceChart.setData (spaced_bars 60 60 4)).
Proof.
  intros r.
  apply (symbol_change_resets
           (fst (PriceChart.data_effect
                   (fst (PriceChart.symbol_effect
                           (PriceChart.init_effect PriceChart.initial_refs)
                           "BTCUSDT"))
                   (spaced_bars 60 60 3)))
           "ETHUSDT" (spaced_bars 60 60 4)); [reflexivity|reflexivity|].
  discriminate.
Defined.

Section RenderFacts.
Import PriceChart.
Implicit Types (r : refs) (s cs : list CandlestickData).

(** the decision of the data effect on a hydrated chart *)
Lemma data_effect_hydrated r cs first last_ (pf pl : number) :
  seriesRef r = true -> hydratedRef r = true ->
  prevFirstTimeRef r = Some pf -> prevLastTimeRef r = Some pl ->
  head cs = Some first -> last cs = Some last_ ->
  snd (data_effect r cs)
  = Some (if (prevLengthRef r =? 0)
             || strict_ne (time first) pf
             || lt (time last_) pl
             || (Z.of_nat (length cs) <? prevLengthRef r - 1)
             || (Z.of_nat (length cs) - prevLengthRef r >? 1)
          then setData cs else update last_).
Proof.
  intros Hs Hh Hpf Hpl Hf Hl. unfold data_effect, isReset.
  rewrite Hs, Hh, Hpf, Hpl, Hf, Hl.
  cbn [negb snd is_null orb ne_ref lt_ref]. now rewrite !orb_false_r.
Qed.

End RenderFacts.

(** X15. How a live bar reaches a chart that has drawn the series [s]:
    an update of the last bar, and a newer bar while the series is below
    the cap, are drawn with [update]; a newer bar that arrives when the
    series is at the cap drops the oldest bar, so the first time changes
    and the whole series is drawn again with [setData]. *)
Theorem live_bar_rendering (r0 : PriceChart.refs) (cap : Z)
    (s : list CandlestickData) (b l : CandlestickData) :
  PriceChart.seriesRef r0 = true ->
  increasing s -> last s = Some l -> 1 <= cap ->
  let r := fst (PriceChart.data_effect r0 s) in
  let s' := applyIncomingCandle (num cap) b s in
  (strict_eq (time l) (time b) = true ->
   snd (PriceChart.data_effect r s') = Some (PriceChart.update b))
  /\ (gt (time b) (time l) = true -> Z.of_nat (length s) < cap ->
      snd (PriceChart.data_effect r s') = Some (PriceChart.update b))
  /\ (gt (time b) (time l) = true -> Z.of_nat (length s) = cap ->
      snd (PriceChart.data_effect r s') = Some (PriceChart.setData s')).
Proof.
  intros Hs Hinc Hl Hc r s'.
  assert (s <> []) as Hne by (intros ->; discriminate).
  destruct (head_is_Some s Hne) as [first Hf].
  destruct (data_effect_tracks r0 s first l Hs Hf Hl)
    as (Hrs & Hrh & _ & Hrlen & Hrf & Hrl).
  fold r in Hrs, Hrh, Hrlen, Hrf, Hrl.
  pose proof Hl as Hsnoc. apply last_Some in Hsnoc as [s0 Hs0].
  assert (Z.of_nat (length s) = Z.of_nat (length s0) + 1) as Hlen
    by (rewrite Hs0, length_app; simpl; lia).
  split; [|split].
  - intros E.
    assert (gt (time b) (time l) = false) as G.
    { unfold gt. destruct (lt (time l) (time b)) eqn:L; [|reflexivity].
      apply lt_not_strict_eq in L. congruence. }
    assert (s' = s0 ++ [b]) as Hs'
      by (subst s' s; now apply merge_same).
    assert (exists first', head s' = Some first'
                           /\ strict_eq (time first') (time first) = true)
      as (first' & Hf' & Ef).
    { rewrite Hs'. destruct s0 as [|x s0]; simpl.
      - exists b. split; [reflexivity|]. subst s. injection Hf as <-.
        now rewrite strict_eq_sym.
      - exists x. split; [reflexivity|]. subst s. injection Hf as <-.
        exact (increasing_first_timed _ _ _ _ Hinc eq_refl Hl
                 (or_intror E)). }
    rewrite (data_effect_hydrated r s' first' b _ _ Hrs Hrh Hrf Hrl Hf')
      by (rewrite Hs'; apply last_snoc).
    rewrite Hrlen. unfold strict_ne. rewrite Ef.
    assert (lt (time b) (time l) = false) as ->.
    { destruct (lt (time b) (time l)) eqn:L; [|reflexivity].
      apply lt_not_strict_eq in L. rewrite strict_eq_sym in L. congruence. }
    assert (Z.of_nat (length s') = Z.of_nat (length s)) as ->
      by (rewrite Hs', Hlen, length_app; simpl; lia).
    replace (Z.of_nat (length s) =? 0) with false by (symmetry; lia).
    replace (Z.of_nat (length s) <? Z.of_nat (length s) - 1) with false
      by (symmetry; lia).
    replace (Z.of_nat (length s) - Z.of_nat (length s) >? 1) with false
      by (symmetry; lia).
    reflexivity.
  - intros G Hbelow.
    assert (s' = s ++ [b]) as Hs'.
    { subst s'. rewrite merge_append; [|exact Hc|].
      - replace (length s + 1 - Z.to_nat cap)%nat with 0%nat by lia.
        reflexivity.
      - intros l' Hl'. congruence. }
    assert (head s' = Some first) as Hf'
      by (rewrite Hs'; destruct s; [discriminate|exact Hf]).
    rewrite (data_effect_hydrated r s' first b _ _ Hrs Hrh Hrf Hrl Hf')
      by (rewrite Hs'; apply last_snoc).
    rewrite Hrlen. unfold strict_ne.
    rewrite (increasing_first_timed _ _ _ _ Hinc Hf Hl (or_introl G)).
    rewrite (lt_asym _ _ G).
    assert (Z.of_nat (length s') = Z.of_nat (length s) + 1) as ->
      by (rewrite Hs', length_app; simpl; lia).
    replace (Z.of_nat (length s) =? 0) with false by (symmetry; lia).
    replace (Z.of_nat (length s) + 1 <? Z.of_nat (length s) - 1)
      with false by (symmetry; lia).
    replace (Z.of_nat (length s) + 1 - Z.of_nat (length s) >? 1)
      with false by (symmetry; lia).
    reflexivity.
  - intros G Hfull.
    assert (s' = drop 1 (s ++ [b])) as Hs'.
    { subst s'. rewrite merge_append; [|exact Hc|].
      - replace (length s + 1 - Z.to_nat cap)%nat with 1%nat by lia.
        reflexivity.
      - intros l' Hl'. congruence. }
    assert (exists first', head s' = Some first'
                           /\ strict_eq (time first') (time first) = false)
      as (first' & Hf' & Ef).
    { rewrite Hs'. destruct s as [|x [|y s]]; [discriminate| |]; simpl.
      - exists b. split; [reflexivity|]. injection Hf as <-.
        injection Hl as <-. rewrite strict_eq_sym.
        now apply lt_not_strict_eq.
      - exists y. split; [reflexivity|]. injection Hf as <-.
        rewrite strict_eq_sym. apply lt_not_strict_eq.
        exact (Hinc 0%nat x y eq_refl eq_refl). }
    assert (last s' = Some b) as Hl'.
    { rewrite Hs'. rewrite drop_app_le by (destruct s; simpl; [done|lia]).
      apply last_snoc. }
    rewrite (data_effect_hydrated r s' first' b _ _ Hrs Hrh Hrf Hrl Hf' Hl').
    unfold strict_ne. rewrite Ef. simpl negb.
    now rewrite orb_true_r.
Qed.

Lemma live_bar_rendering_witness :
  let r := fst (PriceChart.data_effect
                  (PriceChart.init_effect PriceChart.initial_refs)
                  (spaced_bars 60 60 3)) in
  snd (PriceChart.data_effect r
         (applyIncomingCandle (num 3) (mkCandle (num 240) NaN NaN NaN NaN)
            (spaced_bars 60 60 3)))
  = Some (PriceChart.setData (spaced_bars 120 60 3)).
Proof.
  intros r.
  apply (live_bar_rendering
           (PriceChart.init_effect PriceChart.initial_refs) 3
           (spaced_bars 60 60 3) (mkCandle (num 240) NaN NaN NaN NaN)
           (mkCandle (num 180) NaN NaN NaN NaN));
    try reflexivity; [|lia].
  apply sorted_increasing. repeat constructor.
Defined.

(* ===================================================================== *)
(** ** Further properties: the session                                   *)
(* ===================================================================== *)

Section SessionMaps.
Import Session.

Lemma fresh_unused {A} (m : gmap nat A) : m !! fresh m = None.
Proof.
  destruct (m !! fresh m) as [x|] eqn:E; [|reflexivity]. exfalso.
  assert (fresh m ∈ elements (dom m)) as Hin
    by (apply elem_of_elements, elem_of_dom; now exists x).
  apply max_list_elem_of_le in Hin. unfold fresh in Hin. lia.
Qed.

Lemma fresh_above {A} (m : gmap nat A) (k : nat) :
  is_Some (m !! k) -> (k < fresh m)%nat.
Proof.
  intros Hk.
  assert (k ∈ elements (dom m)) as Hin
    by (now apply elem_of_elements, elem_of_dom).
  apply max_list_elem_of_le in Hin. unfold fresh. lia.
Qed.

(** the current run is the greatest run there is *)
Lemma current_Some (st : state) (g : nat) :
  current st = Some g
  <-> is_Some (closures st !! g)
      /\ forall g', is_Some (closures st !! g') -> (g' <= g)%nat.
Proof.
  unfold current.
  destruct (elements (dom (closures st))) as [|x l] eqn:El.
  - split; [discriminate|]. intros [Hg _].
    apply elem_of_dom, elem_of_elements in Hg. rewrite El in Hg.
    inversion Hg.
  - rewrite <- El.
    assert (elements (dom (closures st)) <> []) as Hne by now rewrite El.
    split.
    + intros [= <-]. split.
      * apply elem_of_dom, elem_of_elements. now apply max_list_elem_of.
      * intros g' Hg'. apply max_list_elem_of_le.
        now apply elem_of_elements, elem_of_dom.
    + intros [Hg Hmax]. f_equal. apply Nat.le_antisymm.
      * apply Hmax. apply elem_of_dom, elem_of_elements.
        now apply max_list_elem_of.
      * apply max_list_elem_of_le.
        now apply elem_of_elements, elem_of_dom.
Qed.

Lemma current_same_dom (st st' : state) :
  dom (closures st') = dom (closures st) -> current st' = current st.
Proof. unfold current. now intros ->. Qed.

Lemma cancelled_false (st : state) (g : nat) :
  cancelled g st = false
  <-> exists c, closures st !! g = Some c /\ c_cancelled c = false.
Proof.
  unfold cancelled. destruct (closures st !! g) as [c|].
  - split; [intros H; now exists c|now intros (c' & [= <-] & H)].
  - split; [discriminate|now intros (c' & [=] & _)].
Qed.

End SessionMaps.

Section SessionTransfer.
Import Session.
Implicit Types (st : state) (g w t : nat).

(** runs, streams and suspended bootstraps carry over to a state that
    has the same runs, no run revived, no stream changed and no
    bootstrap added *)
Lemma base_view st st' :
  session_base st ->
  dom (closures st') = dom (closures st) ->
  (forall g, cancelled g st' = false -> cancelled g st = false) ->
  (forall g c, closures st !! g = Some c ->
     exists c', closures st' !! g = Some c'
                /\ c_symbol c' = c_symbol c
                /\ c_interval c' = c_interval c) ->
  (forall w s', sockets st' !! w = Some s' ->
     exists s, sockets st !! w = Some s /\ s_run s' = s_run s
               /\ s_symbol s' = s_symbol s
               /\ s_interval s' = s_interval s) ->
  awaiting st' `sublist_of` awaiting st ->
  UseKlines.requestIdRef (hist st) <= UseKlines.requestIdRef (hist st') ->
  session_base st'.
Proof.
  intros [Hruns Hids Hnd1 Hnd2 Hstr] Hdom Hcan Hcl Hso Hsub Hreq.
  split.
  - intros g Hg. rewrite (current_same_dom st st' Hdom). auto.
  - intros id g Hin.
    destruct (Hids id g) as [Hle [c Hc]];
      [eapply elem_of_sublist; eassumption|].
    split; [lia|]. destruct (Hcl g c Hc) as (c' & -> & _). now eexists.
  - eapply sublist_NoDup; [exact Hnd1|]. now apply fmap_sublist.
  - eapply sublist_NoDup; [exact Hnd2|]. now apply fmap_sublist.
  - intros w s' Hs'. destruct (Hso w s' Hs') as (s & Hs & -> & -> & ->).
    destruct (Hstr w s Hs) as (c & Hc & -> & ->).
    destruct (Hcl _ c Hc) as (c' & Hc' & E1 & E2). now exists c'.
Qed.

(** with nothing linked the invariant is that of the runs *)
Lemma inv_unlinked st : session_base st -> unlinked st -> session_inv st.
Proof.
  intros Hb [Hw Ht]. split; [exact Hb| | |].
  - intros w Hatt. now destruct (Hw w).
  - intros t Hp. now destruct (Ht t).
  - intros _ _ _ _. now split.
Qed.

(** the invariant carries over to a state that links nothing new *)
Lemma inv_view st st' :
  session_inv st ->
  dom (closures st') = dom (closures st) ->
  (forall g, cancelled g st' = cancelled g st) ->
  (forall g c, closures st !! g = Some c ->
     exists c', closures st' !! g = Some c'
                /\ c_symbol c' = c_symbol c
                /\ c_interval c' = c_interval c) ->
  (forall w s', sockets st' !! w = Some s' ->
     exists s, sockets st !! w = Some s /\ s_run s' = s_run s
               /\ s_symbol s' = s_symbol s
               /\ s_interval s' = s_interval s) ->
  (forall t tm', timers st' !! t = Some tm' ->
     exists tm, timers st !! t = Some tm /\ t_run tm' = t_run tm) ->
  (forall w, attached_live st' w -> attached_live st w) ->
  (forall t, pending_timer st' t -> pending_timer st t) ->
  wsRef st' = wsRef st ->
  reconnectTimerRef st' = reconnectTimerRef st ->
  awaiting st' `sublist_of` awaiting st ->
  UseKlines.requestIdRef (hist st) <= UseKlines.requestIdRef (hist st') ->
  session_inv st'.
Proof.
  intros [Hb Hsock Htim Haw] Hdom Hcan Hcl Hso Hti Hatt Hpen Hws Hrt Hsub
    Hreq.
  assert (forall g, live_run st g -> live_run st' g) as Hlive.
  { intros g [Hc Hn]. split; [|now rewrite Hcan].
    now rewrite (current_same_dom st st' Hdom). }
  split.
  - eapply base_view; try eassumption. intros g. now rewrite Hcan.
  - intros w Hw. destruct (Hsock w (Hatt w Hw)) as (Href & Hno & s & Hs & Hl).
    split; [now rewrite Hws|]. split; [intros t Hp; exact (Hno t (Hpen t Hp))|].
    destruct Hw as (s' & Hs' & _).
    destruct (Hso w s' Hs') as (s0 & Hs0 & Hr & _).
    exists s'. split; [exact Hs'|]. rewrite Hr.
    rewrite Hs in Hs0. injection Hs0 as <-. now apply Hlive.
  - intros t Hp. destruct (Htim t (Hpen t Hp)) as (Href & tm & Htm & Hl).
    split; [now rewrite Hrt|].
    destruct Hp as (tm' & Htm' & _).
    destruct (Hti t tm' Htm') as (tm0 & Htm0 & Hr).
    exists tm'. split; [exact Htm'|]. rewrite Hr.
    rewrite Htm in Htm0. injection Htm0 as <-. now apply Hlive.
  - intros id g Hin Hg.
    destruct (Haw id g) as [Hw Ht];
      [eapply elem_of_sublist; eassumption|now rewrite <- Hcan|].
    split; [intros w Hatt'; exact (Hw w (Hatt w Hatt'))|].
    intros t Hp; exact (Ht t (Hpen t Hp)).
Qed.

End SessionTransfer.

Section SessionOps.
Import Session.
Implicit Types (st : state) (g w t : nat).

Lemma sublist_refl_of {A} (l : list A) : l `sublist_of` l.
Proof. reflexivity. Qed.

Lemma cancelled_set_attempts g n st g' :
  cancelled g' (set_attempts g n st) = cancelled g' st.
Proof.
  unfold cancelled, set_attempts. simpl. rewrite lookup_alter.
  destruct (decide (g = g')) as [->|Hne]; [|reflexivity].
  now destruct (closures st !! g').
Qed.

Lemma closures_set_attempts g n st g' c :
  closures st !! g' = Some c ->
  exists c', closures (set_attempts g n st) !! g' = Some c'
             /\ c_symbol c' = c_symbol c /\ c_interval c' = c_interval c.
Proof.
  intros Hc. unfold set_attempts. simpl. rewrite lookup_alter.
  destruct (decide (g = g')) as [->|Hne]; rewrite ?Hc; simpl;
    eexists; (split; [reflexivity|]); now split.
Qed.

Lemma inv_set_attempts g n st :
  session_inv st -> session_inv (set_attempts g n st).
Proof.
  intros H. apply (inv_view st).
  - exact H.
  - apply dom_alter_L.
  - apply cancelled_set_attempts.
  - apply closures_set_attempts.
  - intros w s' Hs'. now exists s'.
  - intros t tm' Htm'. now exists tm'.
  - intros w Hw. exact Hw.
  - intros t Ht. exact Ht.
  - reflexivity.
  - reflexivity.
  - reflexivity.
  - reflexivity.
Qed.

(** [connect], from a state in which nothing is linked and no live
    bootstrap is suspended *)
Lemma connect_inv g st :
  session_base st -> unlinked st ->
  (forall id g', (id, g') ∈ awaiting st -> cancelled g' st = true) ->
  session_inv (connect g st).
Proof.
  intros Hb Hun Hno. unfold connect.
  destruct (cancelled g st) eqn:Hg; [now apply inv_unlinked|].
  destruct (closures st !! g) as [c|] eqn:Hc; [|now apply inv_unlinked].
  set (w := fresh (sockets st)).
  pose proof (fresh_unused (sockets st)) as Hfresh. fold w in Hfresh.
  destruct Hun as [Hw Ht]. destruct Hb as [Hruns Hids Hnd1 Hnd2 Hstr].
  assert (forall w', attached_live
            (setConnection UseKlines.connecting
               (set_wsRef (Some w)
                  (set_sockets
                     (<[w:=mkSocket g (c_symbol c) (c_interval c) true
                             CONNECTING]> (sockets st)) st))) w' ->
          w' = w) as Honly.
  { intros w' (s & Hs & Hh & Hr). simpl in Hs.
    destruct (decide (w = w')) as [->|Hne]; [reflexivity|].
    rewrite lookup_insert_ne in Hs by exact Hne.
    destruct (Hw w'). now exists s. }
  split; [split| | |].
  - exact Hruns.
  - exact Hids.
  - exact Hnd1.
  - exact Hnd2.
  - intros w' s Hs. simpl in Hs. destruct (decide (w = w')) as [<-|Hne].
    + rewrite lookup_insert_eq in Hs. injection Hs as <-. now exists c.
    + rewrite lookup_insert_ne in Hs by exact Hne.
      exact (Hstr w' s Hs).
  - intros w' Hatt. rewrite (Honly w' Hatt). split; [reflexivity|].
    split; [exact Ht|]. eexists. split; [apply lookup_insert_eq|].
    split; [exact (Hruns g Hg)|exact Hg].
  - intros t Hp. now destruct (Ht t).
  - intros id g' Hin Hg'.
    change (cancelled g' st = false) in Hg'.
    rewrite (Hno id g' Hin) in Hg'. discriminate.
Qed.

(** [scheduleReconnect], from such a state *)
Lemma scheduleReconnect_inv g st :
  session_base st -> unlinked st ->
  (forall id g', (id, g') ∈ awaiting st -> cancelled g' st = true) ->
  session_inv (scheduleReconnect g st).
Proof.
  intros Hb Hun Hno. unfold scheduleReconnect.
  destruct (cancelled g st) eqn:Hg; [now apply inv_unlinked|].
  destruct (closures st !! g) as [c|] eqn:Hc; [|now apply inv_unlinked].
  cbv zeta.
  set (delay := Z.min 30000 (1000 * 2 ^ Z.min (Z.of_nat (S (c_attempts c))) 5)).
  set (st3 := setNextRetrySec _ (setConnection UseKlines.offline
                                   (set_attempts g (S (c_attempts c)) st))).
  set (t := fresh (timers st3)).
  pose proof (fresh_unused (timers st3)) as Hfresh. fold t in Hfresh.
  destruct Hun as [Hw Ht].
  assert (session_base st3) as Hb3.
  { apply (base_view st).
    - exact Hb.
    - apply dom_alter_L.
    - intros g'.
      change (cancelled g' (set_attempts g (S (c_attempts c)) st) = false
              -> cancelled g' st = false).
      now rewrite cancelled_set_attempts.
    - apply closures_set_attempts.
    - intros w s' Hs'. now exists s'.
    - reflexivity.
    - reflexivity. }
  assert (forall g', cancelled g' st3 = cancelled g' st) as Hcan
    by (intros g'; apply cancelled_set_attempts).
  destruct Hb3 as [Hruns Hids Hnd1 Hnd2 Hstr].
  split; [split| | |].
  - exact Hruns.
  - exact Hids.
  - exact Hnd1.
  - exact Hnd2.
  - exact Hstr.
  - intros w' (s & Hs & Hh & Hr). destruct (Hw w'). now exists s.
  - intros t' (tm & Htm & Hp). simpl in Htm.
    destruct (decide (t = t')) as [<-|Hne].
    + split; [reflexivity|]. rewrite lookup_insert_eq in Htm.
      injection Htm as <-. eexists. split; [apply lookup_insert_eq|].
      assert (cancelled g st3 = false) as Hg3 by now rewrite Hcan.
      split; [exact (Hruns g Hg3)|exact Hg3].
    + rewrite lookup_insert_ne in Htm by exact Hne.
      destruct (Ht t'). now exists tm.
  - intros id g' Hin Hg'.
    change (cancelled g' st3 = false) in Hg'. rewrite Hcan in Hg'.
    rewrite (Hno id g' Hin) in Hg'. discriminate.
Qed.

End SessionOps.

Section SessionCleanup.
Import Session.
Implicit Types (st : state) (g w t : nat).

Lemma cleanup_fields st :
  closures (cleanup st) = closures st
  /\ awaiting (cleanup st) = awaiting st
  /\ connection (cleanup st) = connection st
  /\ nextRetrySec (cleanup st) = nextRetrySec st
  /\ wsRef (cleanup st) = None
  /\ reconnectTimerRef (cleanup st) = None
  /\ hist (cleanup st) = abort_history (hist st).
Proof.
  unfold cleanup. simpl.
  destruct (reconnectTimerRef st) eqn:Ht, (wsRef st) eqn:Hw; simpl;
    rewrite ?Ht, ?Hw; now repeat split.
Qed.

Lemma cleanup_sockets st :
  sockets (cleanup st)
  = match wsRef st with
    | Some w => alter (fun s => close_socket (detach s)) w (sockets st)
    | None => sockets st
    end.
Proof.
  unfold cleanup. simpl.
  destruct (reconnectTimerRef st) eqn:Ht, (wsRef st) eqn:Hw; simpl;
    rewrite ?Ht, ?Hw; reflexivity.
Qed.

Lemma cleanup_timers st :
  timers (cleanup st)
  = match reconnectTimerRef st with
    | Some t => alter clear t (timers st)
    | None => timers st
    end.
Proof.
  unfold cleanup. simpl.
  destruct (reconnectTimerRef st) eqn:Ht, (wsRef st) eqn:Hw; simpl;
    rewrite ?Ht, ?Hw; reflexivity.
Qed.

Lemma cleanup_attached st w :
  attached_live (cleanup st) w ->
  attached_live st w /\ wsRef st <> Some w.
Proof.
  intros (s & Hs & Hh & Hr). rewrite cleanup_sockets in Hs.
  destruct (wsRef st) as [w0|]; [|split; [now exists s|discriminate]].
  rewrite lookup_alter in Hs. destruct (decide (w0 = w)) as [->|Hne].
  - destruct (sockets st !! w) as [s0|]; [|discriminate].
    injection Hs as <-. discriminate Hh.
  - split; [now exists s|congruence].
Qed.

Lemma cleanup_pending st t :
  pending_timer (cleanup st) t ->
  pending_timer st t /\ reconnectTimerRef st <> Some t.
Proof.
  intros (tm & Htm & Hp). rewrite cleanup_timers in Htm.
  destruct (reconnectTimerRef st) as [t0|];
    [|split; [now exists tm|discriminate]].
  rewrite lookup_alter in Htm. destruct (decide (t0 = t)) as [->|Hne].
  - destruct (timers st !! t) as [tm0|]; [|discriminate].
    injection Htm as <-. discriminate Hp.
  - split; [now exists tm|congruence].
Qed.

Lemma cleanup_socket_streams st w s' :
  sockets (cleanup st) !! w = Some s' ->
  exists s, sockets st !! w = Some s /\ s_run s' = s_run s
            /\ s_symbol s' = s_symbol s /\ s_interval s' = s_interval s.
Proof.
  rewrite cleanup_sockets. destruct (wsRef st) as [w0|];
    [|intros Hs; now exists s'].
  rewrite lookup_alter. destruct (decide (w0 = w)) as [->|Hne];
    [|intros Hs; now exists s'].
  destruct (sockets st !! w) as [s0|]; [|discriminate].
  intros [= <-]. now exists s0.
Qed.

(** after [cleanup] nothing is linked, when the refs held all there was *)
Lemma cleanup_unlinked st :
  (forall w, attached_live st w -> wsRef st = Some w) ->
  (forall t, pending_timer st t -> reconnectTimerRef st = Some t) ->
  unlinked (cleanup st).
Proof.
  intros Hw Ht. split.
  - intros w Hatt. apply cleanup_attached in Hatt as [Hatt Hne].
    exact (Hne (Hw w Hatt)).
  - intros t Hp. apply cleanup_pending in Hp as [Hp Hne].
    exact (Hne (Ht t Hp)).
Qed.

Lemma cleanup_base st : session_base st -> session_base (cleanup st).
Proof.
  intros Hb. destruct (cleanup_fields st) as (Hc & Ha & _ & _ & _ & _ & Hh).
  apply (base_view st).
  - exact Hb.
  - now rewrite Hc.
  - intros g. unfold cancelled. now rewrite Hc.
  - intros g c Hg. rewrite Hc. now exists c.
  - apply cleanup_socket_streams.
  - now rewrite Ha.
  - rewrite Hh. reflexivity.
Qed.

Lemma cancelled_set_cancelled g st g' :
  cancelled g' (set_cancelled g st) = false ->
  cancelled g' st = false /\ g' <> g.
Proof.
  unfold cancelled, set_cancelled. simpl. rewrite lookup_alter.
  destruct (decide (g = g')) as [->|Hne].
  - destruct (closures st !! g'); simpl; discriminate.
  - intros H. split; [exact H|congruence].
Qed.

Lemma set_cancelled_base g st :
  session_base st -> session_base (set_cancelled g st).
Proof.
  intros Hb. apply (base_view st).
  - exact Hb.
  - apply dom_alter_L.
  - intros g' Hg'. now apply cancelled_set_cancelled in Hg'.
  - intros g' c Hc. unfold set_cancelled. simpl. rewrite lookup_alter.
    destruct (decide (g = g')) as [->|Hne]; rewrite ?Hc; simpl;
      eexists; (split; [reflexivity|]); now split.
  - intros w s' Hs'. now exists s'.
  - reflexivity.
  - reflexivity.
Qed.

(** after the cleanup of the effect nothing is linked and no run is left
    that is not cancelled *)
Lemma dispose_current_quiet st :
  session_inv st ->
  session_base (dispose_current st)
  /\ unlinked (dispose_current st)
  /\ (forall g, cancelled g (dispose_current st) = true)
  /\ nextRetrySec (dispose_current st)
     = (if match current st with
           | Some g => cancelled g st
           | None => true
           end
        then nextRetrySec st else None).
Proof.
  intros [Hb Hsock Htim Haw]. unfold dispose_current.
  assert ((forall g, cancelled g st = true) ->
          session_base st /\ unlinked st
          /\ (forall g, cancelled g st = true)) as Hquiet.
  { intros Hall. split; [exact Hb|]. split; [|exact Hall]. split.
    - intros w Hatt.
      destruct (Hsock w Hatt) as (_ & _ & s & _ & _ & Hlive).
      rewrite Hall in Hlive. discriminate.
    - intros t Hp. destruct (Htim t Hp) as (_ & tm & _ & _ & Hlive).
      rewrite Hall in Hlive. discriminate. }
  destruct (current st) as [g|] eqn:Hcur.
  - destruct (cancelled g st) eqn:Hg.
    + destruct Hquiet as (H1 & H2 & H3);
      [|split; [exact H1|split; [exact H2|split; [exact H3|reflexivity]]]].
      intros g'. destruct (cancelled g' st) eqn:Hg'; [reflexivity|].
      pose proof (base_runs st Hb g' Hg') as Hc. congruence.
    + unfold effect_cleanup.
      set (st1 := set_cancelled g st).
      assert (forall g', cancelled g' st1 = true) as Hall.
      { intros g'. destruct (cancelled g' st1) eqn:Hg'; [reflexivity|].
        apply cancelled_set_cancelled in Hg' as [Hg' Hne].
        pose proof (base_runs st Hb g' Hg') as Hc. congruence. }
      destruct (cleanup_fields st1) as (Hc & _).
      split; [|split; [|split]].
      * apply (base_view (cleanup st1));
          [apply cleanup_base, set_cancelled_base, Hb|reflexivity|auto| |
           |reflexivity|reflexivity].
        -- intros g' c Hgc. now exists c.
        -- intros w s' Hs'. now exists s'.
      * change (unlinked (cleanup st1)). apply cleanup_unlinked.
        -- intros w Hatt. now destruct (Hsock w Hatt).
        -- intros t Hp. now destruct (Htim t Hp).
      * intros g'. change (cancelled g' (cleanup st1) = true).
        unfold cancelled. rewrite Hc. apply Hall.
      * reflexivity.
  - destruct Hquiet as (H1 & H2 & H3);
      [|split; [exact H1|split; [exact H2|split; [exact H3|reflexivity]]]].
    intros g'. destruct (cancelled g' st) eqn:Hg'; [reflexivity|].
    pose proof (base_runs st Hb g' Hg') as Hc. congruence.
Qed.

End SessionCleanup.

Section SessionSteps.
Import Session.
Implicit Types (st : state) (g w t : nat).

(** a change of one socket that keeps its run, stream and handlers and
    does not reopen it *)
Lemma inv_socket_alter st w (f : socket -> socket) :
  session_inv st ->
  (forall s, sockets st !! w = Some s ->
     s_run (f s) = s_run s /\ s_symbol (f s) = s_symbol s
     /\ s_interval (f s) = s_interval s
     /\ s_handlers (f s) = s_handlers s
     /\ (s_ready (f s) <> CLOSED -> s_ready s <> CLOSED)) ->
  session_inv (set_sockets (alter f w (sockets st)) st).
Proof.
  intros Hinv Hf. apply (inv_view st).
  - exact Hinv.
  - reflexivity.
  - reflexivity.
  - intros g c Hc. now exists c.
  - intros w' s' Hs'. simpl in Hs'. rewrite lookup_alter in Hs'.
    destruct (decide (w = w')) as [<-|Hne]; [|now exists s'].
    destruct (sockets st !! w) as [s|] eqn:Hs; [|discriminate].
    injection Hs' as <-. destruct (Hf s eq_refl) as (H1 & H2 & H3 & _).
    now exists s.
  - intros t tm' Htm'. now exists tm'.
  - intros w' (s' & Hs' & Hh & Hr). simpl in Hs'. rewrite lookup_alter in Hs'.
    destruct (decide (w = w')) as [<-|Hne]; [|now exists s'].
    destruct (sockets st !! w) as [s|] eqn:Hs; [|discriminate].
    injection Hs' as <-. destruct (Hf s eq_refl) as (_ & _ & _ & H4 & H5).
    exists s. split; [exact Hs|]. split; [congruence|auto].
  - intros t Ht. exact Ht.
  - reflexivity.
  - reflexivity.
  - reflexivity.
  - reflexivity.
Qed.

(** a change of the history state that does not lower the request id *)
Lemma inv_set_hist st (h : UseKlines.history) :
  session_inv st ->
  UseKlines.requestIdRef (hist st) <= UseKlines.requestIdRef h ->
  session_inv (set_hist h st).
Proof.
  intros Hinv Hle. apply (inv_view st); try reflexivity.
  - exact Hinv.
  - intros g c Hc. now exists c.
  - intros w s' Hs'. now exists s'.
  - intros t tm' Htm'. now exists tm'.
  - intros w Hw. exact Hw.
  - intros t Ht. exact Ht.
  - exact Hle.
Qed.

Lemma inv_setConnection st (c : UseKlines.ConnectionState) :
  session_inv st -> session_inv (setConnection c st).
Proof.
  intros Hinv. apply (inv_view st); try reflexivity.
  - exact Hinv.
  - intros g c' Hc. now exists c'.
  - intros w s' Hs'. now exists s'.
  - intros t tm' Htm'. now exists tm'.
  - intros w Hw. exact Hw.
  - intros t Ht. exact Ht.
Qed.

Lemma inv_setNextRetrySec st (n : option number) :
  session_inv st -> session_inv (setNextRetrySec n st).
Proof.
  intros Hinv. apply (inv_view st); try reflexivity.
  - exact Hinv.
  - intros g c' Hc. now exists c'.
  - intros w s' Hs'. now exists s'.
  - intros t tm' Htm'. now exists tm'.
  - intros w Hw. exact Hw.
  - intros t Ht. exact Ht.
Qed.

Lemma onopen_inv g st : session_inv st -> session_inv (onopen g st).
Proof.
  intros Hinv. unfold onopen. destruct (cancelled g st); [exact Hinv|].
  now apply inv_setNextRetrySec, inv_setConnection, inv_set_attempts.
Qed.

Lemma onmessage_inv g (msg : message) (now : number) st :
  session_inv st -> session_inv (onmessage g msg now st).
Proof.
  intros Hinv. unfold onmessage.
  destruct msg as [| |t o h l c x]; try exact Hinv.
  destruct (closures st !! g) as [cl|]; [|exact Hinv].
  apply inv_set_hist; [exact Hinv|]. destruct x; simpl; lia.
Qed.

Lemma onerror_inv w st : session_inv st -> session_inv (onerror w st).
Proof.
  intros Hinv. unfold onerror.
  apply (inv_socket_alter (setConnection UseKlines.error_ st)).
  - now apply inv_setConnection.
  - intros s _. repeat split. simpl. destruct (s_ready s); congruence.
Qed.

End SessionSteps.

Section SessionEvents.
Import Session.
Implicit Types (st : state) (g w t : nat).

Lemma set_ready_fields (r : readyState) (s : socket) :
  s_run (set_ready r s) = s_run s /\ s_symbol (set_ready r s) = s_symbol s
  /\ s_interval (set_ready r s) = s_interval s
  /\ s_handlers (set_ready r s) = s_handlers s.
Proof. now repeat split. Qed.

(** an event of a socket that leaves it able to fire *)
Lemma dispatch_inv w (valid : readyState -> bool)
    (ready : readyState -> readyState) (handler : socket -> state -> state)
    st :
  session_inv st ->
  (forall r, valid r = true -> r <> CLOSED) ->
  (forall s st', session_inv st' -> session_inv (handler s st')) ->
  session_inv (dispatch w valid ready handler st).
Proof.
  intros Hinv Hvalid Hh. unfold dispatch.
  destruct (sockets st !! w) as [s|] eqn:Hs; [|exact Hinv].
  destruct (valid (s_ready s)) eqn:Hv; [|exact Hinv].
  assert (session_inv
            (set_sockets
               (alter (set_ready (ready (s_ready s))) w (sockets st)) st))
    as Hinv1.
  { apply inv_socket_alter; [exact Hinv|]. intros s0 Hs0.
    rewrite Hs in Hs0. injection Hs0 as <-.
    repeat split. intros _. now apply Hvalid. }
  destruct (s_handlers s); [now apply Hh|exact Hinv1].
Qed.

(** the close event of a socket *)
Lemma close_inv w st :
  session_inv st -> session_inv (step st (SocketClose w)).
Proof.
  intros Hinv. simpl. unfold dispatch.
  destruct (sockets st !! w) as [s|] eqn:Hs; [|exact Hinv].
  destruct (not_closed (s_ready s)) eqn:Hv; [|exact Hinv].
  set (st1 := set_sockets (alter (set_ready CLOSED) w (sockets st)) st).
  assert (forall w', attached_live st1 w' -> attached_live st w' /\ w' <> w)
    as Hatt.
  { intros w' (s' & Hs' & Hh & Hr). simpl in Hs'. rewrite lookup_alter in Hs'.
    destruct (decide (w = w')) as [<-|Hne].
    - rewrite Hs in Hs'. injection Hs' as <-. now destruct Hr.
    - split; [now exists s'|congruence]. }
  assert (session_inv st1) as Hinv1.
  { apply (inv_view st); try reflexivity.
    - exact Hinv.
    - intros g c Hc. now exists c.
    - intros w' s' Hs'. simpl in Hs'. rewrite lookup_alter in Hs'.
      destruct (decide (w = w')) as [<-|Hne]; [|now exists s'].
      rewrite Hs in Hs'. injection Hs' as <-. now exists s.
    - intros t tm' Htm'. now exists tm'.
    - intros w' Hw'. now apply Hatt.
    - intros t Ht. exact Ht. }
  destruct (s_handlers s) eqn:Hh; [|exact Hinv1].
  assert (attached_live st w) as Hlive.
  { exists s. split; [exact Hs|]. split; [exact Hh|].
    intros E. rewrite E in Hv. discriminate. }
  destruct (inv_socket st Hinv w Hlive) as (Href & Hnop & _).
  unfold onclose. apply scheduleReconnect_inv.
  - exact (inv_base st1 Hinv1).
  - split.
    + intros w' Hw'. destruct (Hatt w' Hw') as [Hw0 Hne].
      destruct (inv_socket st Hinv w' Hw0) as (Href' & _). congruence.
    + intros t Ht. exact (Hnop t Ht).
  - intros id g' Hin. destruct (cancelled g' st1) eqn:Hg'; [reflexivity|].
    destruct (inv_await st Hinv id g' Hin Hg') as [Hno _].
    now destruct (Hno w).
Qed.

(** a reconnect timer that fires *)
Lemma timer_inv t st :
  session_inv st -> session_inv (step st (TimerFired t)).
Proof.
  intros Hinv. simpl.
  destruct (timers st !! t) as [tm|] eqn:Htm; [|exact Hinv].
  destruct (t_pending tm) eqn:Hp; [|exact Hinv].
  set (st1 := set_timers (alter clear t (timers st)) st).
  assert (pending_timer st t) as Hpend by now exists tm.
  assert (forall t', pending_timer st1 t' -> pending_timer st t' /\ t' <> t)
    as Hpen.
  { intros t' (tm' & Htm' & Hp'). simpl in Htm'. rewrite lookup_alter in Htm'.
    destruct (decide (t = t')) as [<-|Hne].
    - rewrite Htm in Htm'. injection Htm' as <-. discriminate Hp'.
    - split; [now exists tm'|congruence]. }
  assert (session_inv st1) as Hinv1.
  { apply (inv_view st); try reflexivity.
    - exact Hinv.
    - intros g c Hc. now exists c.
    - intros w s' Hs'. now exists s'.
    - intros t' tm' Htm'. simpl in Htm'. rewrite lookup_alter in Htm'.
      destruct (decide (t = t')) as [<-|Hne]; [|now exists tm'].
      rewrite Htm in Htm'. injection Htm' as <-. now exists tm.
    - intros w Hw. exact Hw.
    - intros t' Ht'. now apply Hpen. }
  apply connect_inv.
  - exact (inv_base st1 Hinv1).
  - split.
    + intros w Hw. destruct (inv_socket st Hinv w Hw) as (_ & Hnop & _).
      exact (Hnop t Hpend).
    + intros t' Ht'. destruct (Hpen t' Ht') as [Ht0 Hne].
      destruct (inv_timer st Hinv t' Ht0) as (Href' & _).
      destruct (inv_timer st Hinv t Hpend) as (Href & _). congruence.
  - intros id g' Hin. destruct (cancelled g' st1) eqn:Hg'; [reflexivity|].
    destruct (inv_await st Hinv id g' Hin Hg') as [_ Hno].
    now destruct (Hno t).
Qed.

Lemma nodup_fst_filter {A} (l : list (Z * A)) (id : Z) :
  NoDup (fst <$> l) ->
  filter (fun p => fst p = id) l = []
  \/ exists a, filter (fun p => fst p = id) l = [(id, a)] /\ (id, a) ∈ l.
Proof.
  induction l as [|[i a] l IH]; intros Hnd; [now left|].
  simpl in Hnd. apply NoDup_cons in Hnd as [Hni Hnd].
  rewrite filter_cons. simpl. destruct (decide (i = id)) as [->|Hne].
  - right. exists a. split; [|apply list_elem_of_here]. f_equal.
    destruct (filter (fun p => fst p = id) l) as [|[i' a'] k] eqn:E;
      [reflexivity|].
    assert ((i', a') ∈ filter (fun p => fst p = id) l) as Hin
      by (rewrite E; apply list_elem_of_here).
    apply list_elem_of_filter in Hin as [Hp Hin]. simpl in Hp. subst i'.
    exfalso. apply Hni. apply list_elem_of_fmap. now exists (id, a').
  - destruct (IH Hnd) as [E|(a' & E & Hin)]; [now left|].
    right. exists a'. split; [exact E|now apply list_elem_of_further].
Qed.

Lemma nodup_snd_unique {A} (l : list (Z * A)) (i j : Z) (a : A) :
  NoDup (snd <$> l) -> (i, a) ∈ l -> (j, a) ∈ l -> i = j.
Proof.
  induction l as [|[k b] l IH]; intros Hnd Hi Hj; [inversion Hi|].
  simpl in Hnd. apply NoDup_cons in Hnd as [Hni Hnd].
  apply elem_of_cons in Hi as [Hi|Hi]; apply elem_of_cons in Hj as [Hj|Hj].
  - congruence.
  - injection Hi as -> ->. exfalso. apply Hni, list_elem_of_fmap.
    exists (j, b). split; [reflexivity|exact Hj].
  - injection Hj as -> ->. exfalso. apply Hni, list_elem_of_fmap.
    exists (i, b). split; [reflexivity|exact Hi].
  - now apply IH.
Qed.

(** a history request that settles, and the bootstrap that waited *)
Lemma settled_inv (requestId : Z) (r : exn + list CandlestickData)
    (now : number) st :
  session_inv st -> session_inv (step st (Settled requestId r now)).
Proof.
  intros Hinv. simpl.
  set (st1 := set_hist
                (UseKlines.loadHistory_settle requestId r now (hist st)) st).
  assert (session_inv st1) as Hinv1.
  { apply inv_set_hist; [exact Hinv|]. rewrite settle_requestIdRef. lia. }
  unfold resume.
  set (st2 := set_awaiting
                (filter (fun p => fst p <> requestId) (awaiting st1)) st1).
  assert (session_inv st2) as Hinv2.
  { apply (inv_view st1); try reflexivity.
    - exact Hinv1.
    - intros g c Hc. now exists c.
    - intros w s' Hs'. now exists s'.
    - intros t tm' Htm'. now exists tm'.
    - intros w Hw. exact Hw.
    - intros t Ht. exact Ht.
    - apply sublist_filter. }
  destruct (nodup_fst_filter (awaiting st1) requestId
              (base_nodup_ids st1 (inv_base st1 Hinv1)))
    as [->|(g & -> & Hin)]; [exact Hinv2|].
  simpl. destruct (cancelled g st2) eqn:Hg.
  { unfold connect. now rewrite Hg. }
  apply connect_inv.
  - exact (inv_base st2 Hinv2).
  - exact (inv_await st1 Hinv1 requestId g Hin Hg).
  - intros id g' Hin'. destruct (cancelled g' st2) eqn:Hg'; [reflexivity|].
    exfalso. simpl in Hin'. apply list_elem_of_filter in Hin' as [Hne Hin'].
    simpl in Hne.
    pose proof (base_runs st1 (inv_base st1 Hinv1) g Hg) as Hc.
    pose proof (base_runs st1 (inv_base st1 Hinv1) g' Hg') as Hc'.
    assert (g' = g) as -> by congruence.
    apply Hne.
    exact (nodup_snd_unique _ _ _ _
             (base_nodup_runs st1 (inv_base st1 Hinv1)) Hin' Hin).
Qed.

End SessionEvents.

Section SessionRuns.
Import Session.
Implicit Types (st : state) (g w t : nat).

Lemma bootstrap_fields g st :
  closures (bootstrap g st) = closures st
  /\ sockets (bootstrap g st) = sockets (cleanup st)
  /\ timers (bootstrap g st) = timers (cleanup st)
  /\ wsRef (bootstrap g st) = None
  /\ reconnectTimerRef (bootstrap g st) = None
  /\ awaiting (bootstrap g st)
     = (UseKlines.requestIdRef (hist st) + 1, g) :: awaiting st
  /\ UseKlines.requestIdRef (hist (bootstrap g st))
     = UseKlines.requestIdRef (hist st) + 1
  /\ connection (bootstrap g st) = UseKlines.connecting
  /\ nextRetrySec (bootstrap g st) = nextRetrySec st
  /\ UseKlines.candles (hist (bootstrap g st)) = []
  /\ UseKlines.historyLoading (hist (bootstrap g st)) = true.
Proof.
  destruct (cleanup_fields st) as (Hc & Ha & _ & Hn & Hw & Ht & Hh).
  unfold bootstrap. cbv zeta. unfold UseKlines.loadHistory_begin.
  cbn [closures sockets timers wsRef reconnectTimerRef awaiting hist
       connection nextRetrySec set_awaiting set_hist setConnection
       UseKlines.setCandles UseKlines.requestIdRef UseKlines.candles
       UseKlines.historyLoading].
  rewrite Hc, Ha, Hn, Hw, Ht, Hh. now repeat split.
Qed.

(** a new run of the effect, started when nothing is linked and every
    earlier run is cancelled *)
Lemma bootstrap_inv st (c0 : closure) :
  session_base st -> unlinked st ->
  (forall g, cancelled g st = true) ->
  c_cancelled c0 = false ->
  let g := fresh (closures st) in
  session_inv
    (bootstrap g (set_closures (<[g := c0]> (closures st)) st)).
Proof.
  intros Hb [Hnow Hnot] Hall Hc0 g.
  set (st2 := set_closures (<[g := c0]> (closures st)) st).
  destruct (bootstrap_fields g st2)
    as (Hcl & Hso & Hti & Hws & Hrt & Haw & Hid & _).
  assert (closures st !! g = None) as Hfresh by apply fresh_unused.
  assert (forall g', cancelled g' (bootstrap g st2) = false -> g' = g)
    as Honly.
  { intros g'. unfold cancelled. rewrite Hcl. simpl.
    destruct (decide (g' = g)) as [->|Hne]; [reflexivity|].
    rewrite lookup_insert_ne by congruence. intros Hg'.
    specialize (Hall g'). unfold cancelled in Hall. congruence. }
  apply inv_unlinked.
  - split.
    + intros g' Hg'. rewrite (Honly g' Hg'). apply current_Some. split.
      * rewrite Hcl. simpl. rewrite lookup_insert_eq. now eexists.
      * intros g0. rewrite Hcl. simpl.
        destruct (decide (g0 = g)) as [->|Hne]; [lia|].
        rewrite lookup_insert_ne by congruence. intros H0.
        apply fresh_above in H0. fold g in H0. lia.
    + intros id g' Hin. rewrite Haw in Hin. rewrite Hid, Hcl. simpl.
      apply elem_of_cons in Hin as [[= -> ->]|Hin].
      * split; [lia|]. rewrite lookup_insert_eq. now eexists.
      * destruct (base_await_ids st Hb id g' Hin) as [Hle Hsome].
        split; [lia|].
        destruct (decide (g' = g)) as [->|Hne];
          [rewrite lookup_insert_eq; now eexists|].
        now rewrite lookup_insert_ne by congruence.
    + rewrite Haw. simpl. apply NoDup_cons. split;
        [|exact (base_nodup_ids st Hb)].
      intros Hin. apply list_elem_of_fmap in Hin as ([id g'] & E & Hin).
      simpl in E. destruct (base_await_ids st Hb id g' Hin) as [Hle _].
      simpl in Hle. lia.
    + rewrite Haw. simpl. apply NoDup_cons. split;
        [|exact (base_nodup_runs st Hb)].
      intros Hin. apply list_elem_of_fmap in Hin as ([id g'] & E & Hin).
      simpl in E. subst g'.
      destruct (base_await_ids st Hb id g Hin) as [_ [c Hc]]. congruence.
    + intros w s' Hs'. rewrite Hso in Hs'.
      apply cleanup_socket_streams in Hs' as (s & Hs & -> & -> & ->).
      destruct (base_streams st Hb w s Hs) as (c & Hc & E1 & E2).
      exists c. split; [|now split]. rewrite Hcl. simpl.
      rewrite lookup_insert_ne; [exact Hc|]. congruence.
  - split.
    + intros w (s & Hs & Hh & Hr). rewrite Hso in Hs.
      assert (attached_live (cleanup st2) w) as Hatt by now exists s.
      apply cleanup_attached in Hatt as [Hatt _]. exact (Hnow w Hatt).
    + intros t (tm & Htm & Hp). rewrite Hti in Htm.
      assert (pending_timer (cleanup st2) t) as Hpen by now exists tm.
      apply cleanup_pending in Hpen as [Hpen _]. exact (Hnot t Hpen).
Qed.

(** every event keeps the invariant *)
Lemma step_inv st (ev : event) : session_inv st -> session_inv (step st ev).
Proof.
  intros Hinv. destruct ev as [sym intv preset| | |id r now|w|w msg now|w|w|t].
  - destruct (dispose_current_quiet st Hinv) as (Hb & Hu & Hall & _).
    exact (bootstrap_inv (dispose_current st)
             (mkClosure sym intv preset false 0) Hb Hu Hall eq_refl).
  - destruct (dispose_current_quiet st Hinv) as (Hb & Hu & _).
    now apply inv_unlinked.
  - simpl. apply inv_set_hist; [exact Hinv|]. simpl. lia.
  - now apply settled_inv.
  - simpl. apply dispatch_inv; [exact Hinv| |].
    + intros r Hr ->. discriminate.
    + intros s st'. apply onopen_inv.
  - simpl. apply dispatch_inv; [exact Hinv| |].
    + intros r Hr ->. discriminate.
    + intros s st'. apply onmessage_inv.
  - simpl. apply dispatch_inv; [exact Hinv| |].
    + intros r Hr ->. discriminate.
    + intros s st'. apply onerror_inv.
  - now apply close_inv.
  - now apply timer_inv.
Qed.

Lemma initial_inv : session_inv initial.
Proof.
  apply inv_unlinked.
  - split.
    + intros g Hg. discriminate.
    + intros id g Hin. inversion Hin.
    + constructor.
    + constructor.
    + intros w s Hs. simpl in Hs. rewrite lookup_empty in Hs. discriminate.
  - split.
    + intros w (s & Hs & _). simpl in Hs. rewrite lookup_empty in Hs.
      discriminate.
    + intros t (tm & Htm & _). simpl in Htm. rewrite lookup_empty in Htm.
      discriminate.
Qed.

Lemma run_inv st (evs : list event) :
  session_inv st -> session_inv (run st evs).
Proof.
  revert st. induction evs as [|ev evs IH]; intros st Hinv; [exact Hinv|].
  simpl. apply IH. now apply step_inv.
Qed.

End SessionRuns.

Section SessionClosures.
Import Session.
Implicit Types (st : state) (g w t : nat).

Lemma same_run_refl (strict : bool) (c : closure) : same_run strict c c.
Proof. repeat split. now destruct strict. Qed.

Lemma same_run_weaken (strict : bool) (c c' : closure) :
  same_run strict c c' -> same_run false c c'.
Proof.
  intros (H1 & H2 & H3 & H4). repeat split; try assumption.
  destruct strict; [|exact H4]. simpl. congruence.
Qed.

Lemma same_runs_eq (strict : bool) st st' :
  closures st' = closures st -> same_runs strict st st'.
Proof.
  intros E g. rewrite E. destruct (closures st !! g); constructor.
  apply same_run_refl.
Qed.

Lemma same_runs_trans (strict : bool) st1 st2 st3 :
  same_runs strict st1 st2 -> same_runs strict st2 st3 ->
  same_runs strict st1 st3.
Proof.
  intros H12 H23 g. specialize (H12 g). specialize (H23 g).
  destruct H12 as [c1 c2 (A1 & A2 & A3 & A4)|]; inversion H23 as [? c3 (B1 & B2 & B3 & B4)|];
    subst; constructor.
  repeat split; try congruence. destruct strict; [congruence|auto].
Qed.

Lemma same_runs_weaken (strict : bool) st st' :
  same_runs strict st st' -> same_runs false st st'.
Proof.
  intros H g. destruct (H g); constructor. eapply same_run_weaken; eauto.
Qed.

Lemma same_runs_alter (strict : bool) (f : closure -> closure) g st st' :
  closures st' = alter f g (closures st) ->
  (forall c, same_run strict c (f c)) ->
  same_runs strict st st'.
Proof.
  intros E Hf g'. rewrite E, lookup_alter.
  destruct (decide (g = g')) as [->|Hne];
    destruct (closures st !! g'); simpl; constructor;
    auto using same_run_refl.
Qed.

Lemma same_runs_dom (strict : bool) st st' :
  same_runs strict st st' -> dom (closures st') = dom (closures st).
Proof.
  intros H. apply set_eq. intros g. rewrite !elem_of_dom.
  destruct (H g); split; intros [? E]; try discriminate; now eexists.
Qed.

Lemma same_runs_cancelled st st' g :
  same_runs true st st' -> cancelled g st' = cancelled g st.
Proof.
  intros H. unfold cancelled.
  destruct (H g) as [c c' (_ & _ & _ & E)|]; [exact E|reflexivity].
Qed.

Lemma same_runs_all_cancelled (strict : bool) st st' :
  same_runs strict st st' -> all_cancelled st -> all_cancelled st'.
Proof.
  intros H Hall g. specialize (Hall g). apply same_runs_weaken in H.
  unfold cancelled in *.
  destruct (H g) as [c c' (_ & _ & _ & E)|]; [now apply E|reflexivity].
Qed.

Lemma set_attempts_same_runs g (n : nat) st :
  same_runs true st (set_attempts g n st).
Proof. eapply same_runs_alter; [reflexivity|]. intros c. now repeat split. Qed.

Lemma connect_closures g st : closures (connect g st) = closures st.
Proof.
  unfold connect. destruct (cancelled g st); [reflexivity|].
  now destruct (closures st !! g).
Qed.

Lemma scheduleReconnect_same_runs g st :
  same_runs true st (scheduleReconnect g st).
Proof.
  unfold scheduleReconnect.
  destruct (cancelled g st); [now apply same_runs_eq|].
  destruct (closures st !! g) as [c|]; [|now apply same_runs_eq].
  eapply same_runs_alter; [reflexivity|]. intros c'. now repeat split.
Qed.

Lemma onopen_same_runs g st : same_runs true st (onopen g st).
Proof.
  unfold onopen. destruct (cancelled g st); [now apply same_runs_eq|].
  eapply same_runs_alter; [reflexivity|]. intros c'. now repeat split.
Qed.

Lemma onmessage_closures g (msg : message) (now : number) st :
  closures (onmessage g msg now st) = closures st.
Proof.
  unfold onmessage. destruct msg; try reflexivity.
  now destruct (closures st !! g).
Qed.

Lemma dispatch_same_runs w (valid : readyState -> bool)
    (ready : readyState -> readyState) (handler : socket -> state -> state)
    st :
  (forall s st', same_runs true st' (handler s st')) ->
  same_runs true st (dispatch w valid ready handler st).
Proof.
  intros Hh. unfold dispatch.
  destruct (sockets st !! w) as [s|]; [|now apply same_runs_eq].
  destruct (valid (s_ready s)); [|now apply same_runs_eq].
  destruct (s_handlers s); [|now apply same_runs_eq].
  eapply same_runs_trans; [|apply Hh]. now apply same_runs_eq.
Qed.

Lemma connects_closures (l : list (Z * nat)) st :
  closures (foldl (fun acc p => connect (snd p) acc) st l) = closures st.
Proof.
  revert st. induction l as [|p l IH]; intros st; [reflexivity|].
  simpl. rewrite IH. apply connect_closures.
Qed.

Lemma resume_closures (requestId : Z) st :
  closures (resume requestId st) = closures st.
Proof. unfold resume. cbv zeta. now rewrite connects_closures. Qed.

Lemma dispose_current_same_runs st : same_runs false st (dispose_current st).
Proof.
  unfold dispose_current.
  destruct (current st) as [g|]; [|now apply same_runs_eq].
  destruct (cancelled g st); [now apply same_runs_eq|].
  unfold effect_cleanup.
  destruct (cleanup_fields (set_cancelled g st)) as (Hc & _).
  eapply same_runs_alter; [exact Hc|]. intros c. now repeat split.
Qed.

(** within a run of the effect no event touches the dependencies or the
    [cancelled] of a run *)
Lemma step_same_runs st (ev : event) :
  within_a_run ev -> same_runs true st (step st ev).
Proof.
  destruct ev as [sym intv preset| | |id r now|w|w msg now|w|w|t];
    simpl; intros Hev; try contradiction.
  - now apply same_runs_eq.
  - apply same_runs_eq. now rewrite resume_closures.
  - apply dispatch_same_runs. intros s st'. apply onopen_same_runs.
  - apply dispatch_same_runs. intros s st'. apply same_runs_eq.
    apply onmessage_closures.
  - apply dispatch_same_runs. intros s st'. now apply same_runs_eq.
  - apply dispatch_same_runs. intros s st'. apply scheduleReconnect_same_runs.
  - destruct (timers st !! t) as [tm|]; [|now apply same_runs_eq].
    destruct (t_pending tm); [|now apply same_runs_eq].
    apply same_runs_eq. now rewrite connect_closures.
Qed.

Lemma step_same_config st (ev : event) :
  not_a_run ev -> same_runs false st (step st ev).
Proof.
  intros Hev. destruct ev; try contradiction;
    try (apply (same_runs_weaken true); now apply step_same_runs).
  apply dispose_current_same_runs.
Qed.

End SessionClosures.

Section SessionQuiet.
Import Session.
Implicit Types (st : state) (g w t : nat).

Lemma links_kept_refl st : links_kept st st.
Proof. now repeat split. Qed.

Lemma links_kept_trans st1 st2 st3 :
  links_kept st1 st2 -> links_kept st2 st3 -> links_kept st1 st3.
Proof.
  intros (A1 & A2 & A3 & A4 & A5 & A6 & A7) (B1 & B2 & B3 & B4 & B5 & B6 & B7).
  repeat split; congruence.
Qed.

(** with every run cancelled nothing is linked *)
Lemma all_cancelled_unlinked st :
  session_inv st -> all_cancelled st -> unlinked st.
Proof.
  intros Hinv Hall. split.
  - intros w Hw.
    destruct (inv_socket st Hinv w Hw) as (_ & _ & s & _ & _ & Hlive).
    rewrite Hall in Hlive. discriminate.
  - intros t Ht. destruct (inv_timer st Hinv t Ht) as (_ & tm & _ & _ & Hlive).
    rewrite Hall in Hlive. discriminate.
Qed.

(** an event of a socket whose handlers cannot run *)
Lemma dispatch_detached w (valid : readyState -> bool)
    (ready : readyState -> readyState) (handler : socket -> state -> state)
    st :
  (forall r, valid r = true -> r <> CLOSED) ->
  ~ attached_live st w ->
  links_kept st (dispatch w valid ready handler st)
  /\ hist (dispatch w valid ready handler st) = hist st.
Proof.
  intros Hvalid Hno. unfold dispatch.
  destruct (sockets st !! w) as [s|] eqn:Hs;
    [|split; [apply links_kept_refl|reflexivity]].
  destruct (valid (s_ready s)) eqn:Hv;
    [|split; [apply links_kept_refl|reflexivity]].
  destruct (s_handlers s) eqn:Hh.
  - exfalso. apply Hno. exists s. split; [exact Hs|]. split; [exact Hh|].
    now apply Hvalid.
  - split; [|reflexivity]. repeat split. simpl. apply dom_alter_L.
Qed.

Lemma connects_cancelled (l : list (Z * nat)) st :
  all_cancelled st -> foldl (fun acc p => connect (snd p) acc) st l = st.
Proof.
  intros Hall. induction l as [|p l IH]; [reflexivity|].
  simpl. unfold connect at 2. now rewrite Hall.
Qed.

(** once every run is cancelled, only a new run changes what is linked *)
Lemma quiet_step st (ev : event) :
  session_inv st -> all_cancelled st -> not_a_run ev ->
  links_kept st (step st ev).
Proof.
  intros Hinv Hall Hev.
  destruct (all_cancelled_unlinked st Hinv Hall) as [Hnow Hnot].
  destruct ev as [sym intv preset| | |id r now|w|w msg now|w|w|t];
    simpl; try contradiction.
  - unfold dispose_current. destruct (current st) as [g|];
      [rewrite Hall|]; apply links_kept_refl.
  - now repeat split.
  - unfold resume. cbv zeta. rewrite connects_cancelled; [now repeat split|].
    exact Hall.
  - apply dispatch_detached; [|apply Hnow]. intros r Hr ->. discriminate.
  - apply dispatch_detached; [|apply Hnow]. intros r Hr ->. discriminate.
  - apply dispatch_detached; [|apply Hnow]. intros r Hr ->. discriminate.
  - apply dispatch_detached; [|apply Hnow]. intros r Hr ->. discriminate.
  - destruct (timers st !! t) as [tm|] eqn:Htm; [|apply links_kept_refl].
    destruct (t_pending tm) eqn:Hp; [|apply links_kept_refl].
    exfalso. apply (Hnot t). now exists tm.
Qed.

(** a new run of the effect is not cancelled *)
Lemma run_not_cancelled st (symbol interval : string)
    (preset : HistoryPreset) :
  let st' := step st (Run symbol interval preset) in
  let g := fresh (closures (dispose_current st)) in
  closures st'
  = <[g := mkClosure symbol interval preset false 0]>
      (closures (dispose_current st))
  /\ current st' = Some g /\ cancelled g st' = false.
Proof.
  intros st' g.
  assert (closures st'
          = <[g := mkClosure symbol interval preset false 0]>
              (closures (dispose_current st))) as Hcl.
  { unfold st'.
    change (step st (Run symbol interval preset))
      with (bootstrap g
              (set_closures
                 (<[g := mkClosure symbol interval preset false 0]>
                    (closures (dispose_current st)))
                 (dispose_current st))).
    now destruct (bootstrap_fields g
                    (set_closures
                       (<[g := mkClosure symbol interval preset false 0]>
                          (closures (dispose_current st)))
                       (dispose_current st))) as (-> & _). }
  split; [exact Hcl|]. split.
  - apply current_Some. rewrite Hcl. split.
    + rewrite lookup_insert_eq. now eexists.
    + intros g0. destruct (decide (g0 = g)) as [->|Hne]; [lia|].
      rewrite lookup_insert_ne by congruence. intros H0.
      apply fresh_above in H0. fold g in H0. lia.
  - unfold cancelled. rewrite Hcl, lookup_insert_eq. reflexivity.
Qed.

Lemma rest_within st (ev : event) :
  within_a_run ev ->
  session_inv st -> (all_cancelled st -> at_rest st) ->
  all_cancelled (step st ev) -> at_rest (step st ev).
Proof.
  intros Hev Hinv Hrest Hall.
  assert (all_cancelled st) as Hall0.
  { intros g. rewrite <- (same_runs_cancelled st (step st ev) g);
      [apply Hall|now apply step_same_runs]. }
  destruct (Hrest Hall0) as (R1 & R2 & R3).
  destruct (quiet_step st ev Hinv Hall0) as (_ & K2 & K3 & K4 & _).
  { now destruct ev. }
  repeat split; congruence.
Qed.

(** when every run is cancelled no socket, reconnect or countdown is
    held *)
Lemma rest_step st (ev : event) :
  session_inv st -> (all_cancelled st -> at_rest st) ->
  all_cancelled (step st ev) -> at_rest (step st ev).
Proof.
  intros Hinv Hrest Hall.
  destruct ev as [sym intv preset| | |id r now|w|w msg now|w|w|t];
    try (now apply rest_within).
  - destruct (run_not_cancelled st sym intv preset) as (_ & _ & Hg).
    rewrite Hall in Hg. discriminate.
  - simpl in *. unfold dispose_current in *.
    destruct (current st) as [g|]; [|now apply Hrest].
    destruct (cancelled g st); [now apply Hrest|].
    unfold effect_cleanup.
    destruct (cleanup_fields (set_cancelled g st))
      as (_ & _ & _ & _ & Hw & Ht & _).
    repeat split; assumption.
Qed.

Lemma run_rest (evs : list event) st :
  session_inv st -> (all_cancelled st -> at_rest st) ->
  all_cancelled (run st evs) -> at_rest (run st evs).
Proof.
  revert st. induction evs as [|ev evs IH]; intros st Hinv Hrest; [exact Hrest|].
  simpl. apply IH; [now apply step_inv|now apply rest_step].
Qed.

Lemma quiet_run (evs : list event) st :
  session_inv st -> all_cancelled st -> Forall not_a_run evs ->
  links_kept st (run st evs) /\ all_cancelled (run st evs).
Proof.
  revert st. induction evs as [|ev evs IH]; intros st Hinv Hall Hevs.
  - split; [apply links_kept_refl|exact Hall].
  - apply Forall_cons in Hevs as [Hev Hevs]. simpl.
    destruct (IH (step st ev)) as [Hk Hc].
    + now apply step_inv.
    + eapply same_runs_all_cancelled; [|exact Hall].
      now apply step_same_config.
    + exact Hevs.
    + split; [|exact Hc].
      eapply links_kept_trans; [|exact Hk]. now apply quiet_step.
Qed.

(** the dependencies in force are those of the latest run *)
Lemma step_current_config st (ev : event) :
  current_config (step st ev)
  = match ev with
    | Run symbol interval preset => Some (symbol, interval, preset)
    | _ => current_config st
    end.
Proof.
  assert (not_a_run ev -> current_config (step st ev) = current_config st)
    as E.
  { intros Hev. pose proof (step_same_config st ev Hev) as Hsame.
    unfold current_config.
    rewrite (current_same_dom st (step st ev))
      by (eapply same_runs_dom; exact Hsame).
    destruct (current st) as [g|]; [|reflexivity].
    destruct (Hsame g) as [c c' (-> & -> & -> & _)|]; reflexivity. }
  destruct ev as [sym intv preset| | |id r now|w|w msg now|w|w|t];
    try (apply E; exact I).
  destruct (run_not_cancelled st sym intv preset) as (Hcl & Hcur & _).
  unfold current_config. rewrite Hcur, Hcl, lookup_insert_eq. reflexivity.
Qed.

Lemma run_current_config (evs : list event) st :
  current_config (run st evs)
  = foldl (fun acc ev =>
             match ev with
             | Run symbol interval preset => Some (symbol, interval, preset)
             | _ => acc
             end) (current_config st) evs.
Proof.
  revert st. induction evs as [|ev evs IH]; intros st; [reflexivity|].
  simpl. rewrite IH, step_current_config. now destruct ev.
Qed.

End SessionQuiet.

Import Session.

(** X16. (useKlines.ts, the bootstrap effect: [cleanup], [connect],
    [scheduleReconnect]): whatever happens to the hook, at most one socket
    has its handlers set and can still fire.  It is the socket in [wsRef],
    it was made by the run of the effect in force, which is not cancelled,
    and no reconnect is scheduled while it lives. *)
Theorem one_socket_at_a_time (evs : list event) (w : nat) :
  let st := run initial evs in
  attached_live st w ->
  wsRef st = Some w
  /\ (forall w', attached_live st w' -> w' = w)
  /\ (forall t, ~ pending_timer st t)
  /\ exists s, sockets st !! w = Some s /\ live_run st (s_run s).
Proof.
  intros st Hw.
  pose proof (run_inv initial evs initial_inv) as Hinv. fold st in Hinv.
  destruct (inv_socket st Hinv w Hw) as (Href & Hno & Hs).
  split; [exact Href|]. split; [|split; [exact Hno|exact Hs]].
  intros w' Hw'. destruct (inv_socket st Hinv w' Hw') as (Href' & _).
  congruence.
Qed.

Lemma one_socket_at_a_time_witness :
  let st :=
    run initial
      [Run "BTCUSDT" "1m" (mkPreset "1 day" (num 1440));
       Settled 1 (inr []) (num 5)] in
  attached_live st 1%nat /\ wsRef st = Some 1%nat.
Proof.
  intros st.
  assert (attached_live st 1%nat) as H.
  { eexists. split; [vm_compute; reflexivity|].
    split; [reflexivity|discriminate]. }
  split; [exact H|].
  exact (proj1 (one_socket_at_a_time
                  [Run "BTCUSDT" "1m" (mkPreset "1 day" (num 1440));
                   Settled 1 (inr []) (num 5)] 1%nat H)).
Defined.

(** X17. (useKlines.ts, [scheduleReconnect] and [cleanup]): at most one
    reconnect is scheduled at any time.  It is the timeout in
    [reconnectTimerRef], it belongs to the run of the effect in force, and
    no socket can call a handler while it is pending. *)
Theorem one_reconnect_at_a_time (evs : list event) (t : nat) :
  let st := run initial evs in
  pending_timer st t ->
  reconnectTimerRef st = Some t
  /\ (forall t', pending_timer st t' -> t' = t)
  /\ (forall w, ~ attached_live st w)
  /\ exists tm, timers st !! t = Some tm /\ live_run st (t_run tm).
Proof.
  intros st Ht.
  pose proof (run_inv initial evs initial_inv) as Hinv. fold st in Hinv.
  destruct (inv_timer st Hinv t Ht) as (Href & Htm).
  split; [exact Href|]. split; [|split; [|exact Htm]].
  - intros t' Ht'. destruct (inv_timer st Hinv t' Ht') as (Href' & _).
    congruence.
  - intros w Hw. destruct (inv_socket st Hinv w Hw) as (_ & Hno & _).
    exact (Hno t Ht).
Qed.

Lemma one_reconnect_at_a_time_witness :
  let st :=
    run initial
      [Run "BTCUSDT" "1m" (mkPreset "1 day" (num 1440));
       Settled 1 (inr []) (num 5); SocketClose 1] in
  pending_timer st 1%nat /\ reconnectTimerRef st = Some 1%nat.
Proof.
  intros st.
  assert (pending_timer st 1%nat) as H.
  { eexists. split; [vm_compute; reflexivity|reflexivity]. }
  split; [exact H|].
  exact (proj1 (one_reconnect_at_a_time
                  [Run "BTCUSDT" "1m" (mkPreset "1 day" (num 1440));
                   Settled 1 (inr []) (num 5); SocketClose 1] 1%nat H)).
Defined.

(** X18. (useKlines.ts, [bootstrap]): while the bootstrap of a run that is
    not cancelled waits for [loadHistory], no socket can call a handler
    and no reconnect is scheduled; that run is the one in force and the
    request it waits for is not newer than the latest one. *)
Theorem bootstrap_waits_for_history (evs : list event) (id : Z) (g : nat) :
  let st := run initial evs in
  (id, g) ∈ awaiting st -> cancelled g st = false ->
  unlinked st /\ current st = Some g
  /\ id <= UseKlines.requestIdRef (hist st).
Proof.
  intros st Hin Hg.
  pose proof (run_inv initial evs initial_inv) as Hinv. fold st in Hinv.
  split; [exact (inv_await st Hinv id g Hin Hg)|].
  split; [exact (base_runs st (inv_base st Hinv) g Hg)|].
  now destruct (base_await_ids st (inv_base st Hinv) id g Hin).
Qed.

Lemma bootstrap_waits_for_history_witness :
  let st :=
    run initial
      [Run "BTCUSDT" "1m" (mkPreset "1 day" (num 1440)); Refresh] in
  unlinked st /\ current st = Some 1%nat
  /\ 1 <= UseKlines.requestIdRef (hist st).
Proof.
  intros st.
  apply (bootstrap_waits_for_history
           [Run "BTCUSDT" "1m" (mkPreset "1 day" (num 1440)); Refresh]
           1 1%nat).
  - apply list_elem_of_here.
  - reflexivity.
Defined.

Section SessionStreams.
Implicit Types (st : state) (g w t : nat).

Lemma last_config_run (evs : list event) :
  current_config (run initial evs) = last_config evs.
Proof. now rewrite run_current_config. Qed.

(** the stream of a socket that can call a handler *)
Lemma attached_stream st w (s : socket) :
  session_inv st -> sockets st !! w = Some s ->
  s_handlers s = true -> s_ready s <> CLOSED ->
  wsRef st = Some w
  /\ current st = Some (s_run s)
  /\ cancelled (s_run s) st = false
  /\ exists c, closures st !! s_run s = Some c
               /\ c_cancelled c = false
               /\ current_config st
                  = Some (s_symbol s, s_interval s, c_preset c)
               /\ s_symbol s = c_symbol c /\ s_interval s = c_interval c.
Proof.
  intros Hinv Hs Hh Hr.
  assert (attached_live st w) as Hw by now exists s.
  destruct (inv_socket st Hinv w Hw) as (Href & _ & s' & Hs' & Hcur & Hcan).
  rewrite Hs in Hs'. injection Hs' as <-.
  destruct (base_streams st (inv_base st Hinv) w s Hs) as (c & Hc & E1 & E2).
  split; [exact Href|]. split; [exact Hcur|]. split; [exact Hcan|].
  exists c. split; [exact Hc|]. split.
  - unfold cancelled in Hcan. now rewrite Hc in Hcan.
  - split; [|now split]. unfold current_config.
    now rewrite Hcur, Hc, E1, E2.
Qed.

End SessionStreams.

(** X19. (useKlines.ts, [ws.onmessage] with [cleanup] and [connect]): a
    message changes the history state only when it arrives on the open
    socket held in [wsRef], whose stream is the symbol and the interval of
    the latest run of the effect, that run not being cancelled; the
    message then carries a kline, and its bar is merged under the cap of
    that run's preset and interval. *)
Theorem live_messages_current_stream (evs : list event) (w : nat)
    (msg : message) (now : number) :
  let st := run initial evs in
  let st' := step st (SocketMessage w msg now) in
  hist st' <> hist st ->
  exists s symbol interval preset t o h l c x,
    sockets st !! w = Some s /\ s_ready s = OPEN /\ wsRef st = Some w
    /\ cancelled (s_run s) st = false
    /\ last_config evs = Some (symbol, interval, preset)
    /\ s_symbol s = symbol /\ s_interval s = interval
    /\ msg = Kline t o h l c x
    /\ UseKlines.candles (hist st')
       = applyIncomingCandle (maxCandlesForPreset preset interval)
           (toCandle [t; o; h; l; c]) (UseKlines.candles (hist st)).
Proof.
  intros st st' Hne.
  pose proof (run_inv initial evs initial_inv) as Hinv. fold st in Hinv.
  unfold st' in *. simpl in *. unfold dispatch in *.
  destruct (sockets st !! w) as [s|] eqn:Hs; [|now destruct Hne].
  destruct (is_open (s_ready s)) eqn:Hv; [|now destruct Hne].
  destruct (s_handlers s) eqn:Hh; [|now destruct Hne].
  assert (s_ready s = OPEN) as Hr by (destruct (s_ready s); now try discriminate).
  destruct (attached_stream st w s Hinv Hs Hh)
    as (Href & Hcur & Hcan & cl & Hcl & _ & Hcfg & E1 & E2);
    [rewrite Hr; discriminate|].
  rewrite <- (last_config_run evs). fold st.
  unfold onmessage in *. cbn [closures set_sockets hist] in *.
  destruct msg as [| |t o h l c x]; try (now destruct Hne).
  rewrite Hcl in *.
  exists s, (s_symbol s), (s_interval s), (c_preset cl), t, o, h, l, c, x.
  repeat (split; [assumption || reflexivity|]).
  unfold c_cap. rewrite E2. now destruct x.
Qed.

Lemma live_messages_current_stream_witness :
  let evs :=
    [Run "BTCUSDT" "1m" (mkPreset "1 day" (num 1440));
     Settled 1 (inr []) (num 5); SocketOpen 1] in
  let msg :=
    Kline (VNumber (num 60000)) (VString "1") (VString "2")
      (VString "0.5") (VString "1.5") true in
  exists s symbol interval preset t o h l c x,
    sockets (run initial evs) !! 1%nat = Some s /\ s_ready s = OPEN
    /\ wsRef (run initial evs) = Some 1%nat
    /\ cancelled (s_run s) (run initial evs) = false
    /\ last_config evs = Some (symbol, interval, preset)
    /\ s_symbol s = symbol /\ s_interval s = interval
    /\ msg = Kline t o h l c x
    /\ UseKlines.candles
         (hist (step (run initial evs) (SocketMessage 1 msg (num 7))))
       = applyIncomingCandle (maxCandlesForPreset preset interval)
           (toCandle [t; o; h; l; c])
           (UseKlines.candles (hist (run initial evs))).
Proof.
  intros evs msg.
  apply (live_messages_current_stream evs 1%nat msg (num 7)).
  intros H. vm_compute in H. discriminate H.
Defined.

(** X20. (useKlines.ts, the function the effect returns): once the effect
    is cleaned up, and until it runs again, the hook holds no socket, no
    reconnect and no countdown; no socket or timer is made, the connection
    state stays as the cleanup left it, and no message changes the
    history state. *)
Theorem unmount_is_final (evs evs' : list event) :
  Forall not_a_run evs' ->
  let st := step (run initial evs) Unmount in
  let st' := run st evs' in
  at_rest st'
  /\ unlinked st'
  /\ connection st' = connection st
  /\ dom (sockets st') = dom (sockets st)
  /\ timers st' = timers st
  /\ forall w msg now, hist (step st' (SocketMessage w msg now)) = hist st'.
Proof.
  intros Hevs st st'.
  pose proof (run_inv initial evs initial_inv) as Hinv0.
  pose proof (step_inv _ Unmount Hinv0) as Hinv. fold st in Hinv.
  assert (all_cancelled st) as Hall
    by now destruct (dispose_current_quiet _ Hinv0) as (_ & _ & Hall & _).
  assert (at_rest st) as Hrest.
  { apply rest_step; [exact Hinv0| |exact Hall].
    apply run_rest; [exact initial_inv|]. intros _. now repeat split. }
  destruct (quiet_run evs' st Hinv Hall Hevs) as [Hk Hall'].
  fold st' in Hk, Hall'.
  pose proof (run_inv st evs' Hinv) as Hinv'. fold st' in Hinv'.
  pose proof (all_cancelled_unlinked st' Hinv' Hall') as Hun.
  destruct Hk as (K1 & K2 & K3 & K4 & K5 & K6 & _).
  destruct Hrest as (R1 & R2 & R3).
  split; [repeat split; congruence|].
  split; [exact Hun|]. split; [exact K1|]. split; [exact K6|].
  split; [exact K5|].
  intros w msg now. simpl. apply dispatch_detached; [|apply Hun].
  intros r Hr ->. discriminate.
Qed.

Lemma unmount_is_final_witness :
  let st :=
    step (run initial
            [Run "BTCUSDT" "1m" (mkPreset "1 day" (num 1440));
             Settled 1 (inr []) (num 5); SocketOpen 1]) Unmount in
  let st' :=
    run st
      [SocketMessage 1 (Kline (VNumber (num 60000)) (VString "1")
                          (VString "2") (VString "0.5") (VString "1.5") true)
         (num 7);
       SocketClose 1; TimerFired 1; Settled 1 (inr []) (num 9); Refresh;
       Unmount] in
  at_rest st' /\ unlinked st' /\ connection st' = connection st.
Proof.
  intros st st'.
  destruct (unmount_is_final
              [Run "BTCUSDT" "1m" (mkPreset "1 day" (num 1440));
               Settled 1 (inr []) (num 5); SocketOpen 1]
              [SocketMessage 1 (Kline (VNumber (num 60000)) (VString "1")
                                  (VString "2") (VString "0.5")
                                  (VString "1.5") true) (num 7);
               SocketClose 1; TimerFired 1; Settled 1 (inr []) (num 9);
               Refresh; Unmount])
    as (H1 & H2 & H3 & _).
  - repeat constructor.
  - split; [exact H1|]. split; [exact H2|exact H3].
Defined.

Section SessionHandlers.
Implicit Types (st : state) (g w t : nat).

(** the handler of a socket that is attached runs *)
Lemma dispatch_attached w (valid : readyState -> bool)
    (ready : readyState -> readyState) (handler : socket -> state -> state)
    st (s : socket) :
  sockets st !! w = Some s -> s_handlers s = true ->
  valid (s_ready s) = true ->
  dispatch w valid ready handler st
  = handler s
      (set_sockets (alter (set_ready (ready (s_ready s))) w (sockets st)) st).
Proof. intros Hs Hh Hv. unfold dispatch. now rewrite Hs, Hv, Hh. Qed.

Lemma backoff_bounds (n : nat) :
  2000 <= Z.min 30000 (1000 * 2 ^ Z.min (Z.of_nat (S n)) 5) <= 30000.
Proof.
  split; [|lia]. apply Z.min_glb; [lia|].
  assert (2 ^ 1 <= 2 ^ Z.min (Z.of_nat (S n)) 5)
    by (apply Z.pow_le_mono_r; lia).
  lia.
Qed.

(** what the close of an attached socket does *)
Lemma close_attached st w (s : socket) :
  session_inv st -> sockets st !! w = Some s ->
  s_handlers s = true -> s_ready s <> CLOSED ->
  exists c,
    closures st !! s_run s = Some c
    /\ step st (SocketClose w)
       = let g := s_run s in
         let delay :=
           Z.min 30000 (1000 * 2 ^ Z.min (Z.of_nat (S (c_attempts c))) 5) in
         let t := fresh (timers st) in
         set_reconnectTimerRef (Some t)
           (set_timers (<[t := mkTimer g delay true]> (timers st))
              (setNextRetrySec
                 (Some (Math_round (div (num delay) (num 1000))))
                 (setConnection UseKlines.offline
                    (set_attempts g (S (c_attempts c))
                       (set_sockets
                          (alter (set_ready CLOSED) w (sockets st)) st))))).
Proof.
  intros Hinv Hs Hh Hr.
  destruct (attached_stream st w s Hinv Hs Hh Hr)
    as (Href & Hcur & Hcan & c & Hc & _).
  exists c. split; [exact Hc|].
  simpl. rewrite (dispatch_attached _ _ _ _ st s Hs Hh);
    [|destruct (s_ready s) eqn:E0; try reflexivity; now destruct Hr].
  unfold onclose, scheduleReconnect.
  change (cancelled (s_run s)
            (set_sockets (alter (set_ready CLOSED) w (sockets st)) st))
    with (cancelled (s_run s) st).
  change (closures
            (set_sockets (alter (set_ready CLOSED) w (sockets st)) st))
    with (closures st).
  now rewrite Hcan, Hc.
Qed.

(** what the open event of an attached socket does *)
Lemma open_attached st w (s : socket) :
  session_inv st -> sockets st !! w = Some s ->
  s_handlers s = true -> s_ready s = CONNECTING ->
  step st (SocketOpen w)
  = setNextRetrySec None
      (setConnection UseKlines.online
         (set_attempts (s_run s) 0
            (set_sockets (alter (set_ready OPEN) w (sockets st)) st))).
Proof.
  intros Hinv Hs Hh Hr.
  destruct (attached_stream st w s Hinv Hs Hh)
    as (Href & Hcur & Hcan & c & Hc & _); [rewrite Hr; discriminate|].
  simpl. rewrite (dispatch_attached _ _ _ _ st s Hs Hh);
    [|now rewrite Hr].
  unfold onopen.
  change (cancelled (s_run s)
            (set_sockets (alter (set_ready OPEN) w (sockets st)) st))
    with (cancelled (s_run s) st).
  now rewrite Hcan.
Qed.

End SessionHandlers.

(** X21. (useKlines.ts, [ws.onclose] and [scheduleReconnect]): when the
    socket whose handlers are set closes, a reconnect is always scheduled:
    the run's attempts go up by one, a new timeout of
    min(30000, 1000 * 2^min(attempts, 5)) milliseconds, between 2 and 30
    seconds, is put in [reconnectTimerRef], the connection state becomes
    offline, and no socket can call a handler any more. *)
Theorem close_schedules_reconnect (evs : list event) (w : nat) :
  let st := run initial evs in
  let st' := step st (SocketClose w) in
  attached_live st w ->
  exists g c t delay,
    current st = Some g /\ closures st !! g = Some c
    /\ delay = Z.min 30000 (1000 * 2 ^ Z.min (Z.of_nat (S (c_attempts c))) 5)
    /\ 2000 <= delay <= 30000
    /\ timers st !! t = None
    /\ timers st' = <[t := mkTimer g delay true]> (timers st)
    /\ reconnectTimerRef st' = Some t
    /\ connection st' = UseKlines.offline
    /\ nextRetrySec st' = Some (Math_round (div (num delay) (num 1000)))
    /\ (c_attempts <$> closures st' !! g) = Some (S (c_attempts c))
    /\ forall w', ~ attached_live st' w'.
Proof.
  intros st st' (s & Hs & Hh & Hr).
  pose proof (run_inv initial evs initial_inv) as Hinv. fold st in Hinv.
  destruct (attached_stream st w s Hinv Hs Hh Hr) as (_ & Hcur & _).
  pose proof (step_inv st (SocketClose w) Hinv) as Hinv'. fold st' in Hinv'.
  destruct (close_attached st w s Hinv Hs Hh Hr) as (c & Hc & E).
  fold st' in E. cbv zeta in E.
  exists (s_run s), c, (fresh (timers st)),
    (Z.min 30000 (1000 * 2 ^ Z.min (Z.of_nat (S (c_attempts c))) 5)).
  split; [exact Hcur|]. split; [exact Hc|]. split; [reflexivity|].
  split; [apply backoff_bounds|]. split; [apply fresh_unused|].
  assert (pending_timer st' (fresh (timers st))) as Hp.
  { rewrite E. eexists. split; [apply lookup_insert_eq|reflexivity]. }
  split; [now rewrite E|]. split; [now rewrite E|]. split; [now rewrite E|].
  split; [now rewrite E|]. split.
  - rewrite E.
    cbn [closures set_reconnectTimerRef set_timers setNextRetrySec
         setConnection set_attempts set_closures set_sockets].
    now rewrite lookup_alter_eq, Hc.
  - intros w' Hw'. destruct (inv_socket st' Hinv' w' Hw') as (_ & Hno & _).
    exact (Hno _ Hp).
Qed.

Lemma close_schedules_reconnect_witness :
  let st :=
    run initial
      [Run "BTCUSDT" "1m" (mkPreset "1 day" (num 1440));
       Settled 1 (inr []) (num 5); SocketOpen 1] in
  attached_live st 1%nat
  /\ exists g c t delay,
       current st = Some g /\ closures st !! g = Some c
       /\ delay
          = Z.min 30000 (1000 * 2 ^ Z.min (Z.of_nat (S (c_attempts c))) 5)
       /\ 2000 <= delay <= 30000
       /\ timers st !! t = None
       /\ timers (step st (SocketClose 1))
          = <[t := mkTimer g delay true]> (timers st)
       /\ reconnectTimerRef (step st (SocketClose 1)) = Some t
       /\ connection (step st (SocketClose 1)) = UseKlines.offline
       /\ nextRetrySec (step st (SocketClose 1))
          = Some (Math_round (div (num delay) (num 1000)))
       /\ (c_attempts <$> closures (step st (SocketClose 1)) !! g)
          = Some (S (c_attempts c))
       /\ forall w', ~ attached_live (step st (SocketClose 1)) w'.
Proof.
  intros st.
  assert (attached_live st 1%nat) as H.
  { eexists. split; [vm_compute; reflexivity|].
    split; [reflexivity|discriminate]. }
  split; [exact H|].
  exact (close_schedules_reconnect
           [Run "BTCUSDT" "1m" (mkPreset "1 day" (num 1440));
            Settled 1 (inr []) (num 5); SocketOpen 1] 1%nat H).
Defined.

Section SessionConnects.
Implicit Types (st : state) (g w t : nat).

(** what [connect] does for the run in force *)
Lemma connect_live g st (c : closure) :
  cancelled g st = false -> closures st !! g = Some c ->
  connect g st
  = setConnection UseKlines.connecting
      (set_wsRef (Some (fresh (sockets st)))
         (set_sockets
            (<[fresh (sockets st) :=
                 mkSocket g (c_symbol c) (c_interval c) true CONNECTING]>
               (sockets st)) st)).
Proof. intros Hg Hc. unfold connect. now rewrite Hg, Hc. Qed.

(** the run in force, when it is not cancelled *)
Lemma live_run_config st g :
  live_run st g ->
  exists c, closures st !! g = Some c
            /\ current_config st
               = Some (c_symbol c, c_interval c, c_preset c).
Proof.
  intros [Hcur Hcan]. apply cancelled_false in Hcan as (c & Hc & _).
  exists c. split; [exact Hc|]. unfold current_config. now rewrite Hcur, Hc.
Qed.

Lemma nodup_fst_unique {A} (l : list (Z * A)) (i : Z) (a b : A) :
  NoDup (fst <$> l) -> (i, a) ∈ l -> (i, b) ∈ l -> a = b.
Proof.
  induction l as [|[k x] l IH]; intros Hnd Ha Hb; [inversion Ha|].
  simpl in Hnd. apply NoDup_cons in Hnd as [Hni Hnd].
  apply elem_of_cons in Ha as [Ha|Ha]; apply elem_of_cons in Hb as [Hb|Hb].
  - congruence.
  - injection Ha as -> ->. exfalso. apply Hni, list_elem_of_fmap.
    exists (k, b). split; [reflexivity|exact Hb].
  - injection Hb as -> ->. exfalso. apply Hni, list_elem_of_fmap.
    exists (k, a). split; [reflexivity|exact Ha].
  - now apply IH.
Qed.

End SessionConnects.

(** X22. (useKlines.ts, [scheduleReconnect] and [connect]): when the
    scheduled reconnect fires, a new socket is made for the symbol and the
    interval of the latest run of the effect, its handlers set; it is put
    in [wsRef], the connection state becomes connecting, no reconnect is
    left pending, and the countdown [nextRetrySec] stays as it was. *)
Theorem reconnect_timer_connects (evs : list event) (t : nat) :
  let st := run initial evs in
  let st' := step st (TimerFired t) in
  pending_timer st t ->
  exists g c w,
    current st = Some g /\ closures st !! g = Some c
    /\ last_config evs = Some (c_symbol c, c_interval c, c_preset c)
    /\ sockets st !! w = None
    /\ sockets st'
       = <[w := mkSocket g (c_symbol c) (c_interval c) true CONNECTING]>
           (sockets st)
    /\ wsRef st' = Some w
    /\ connection st' = UseKlines.connecting
    /\ nextRetrySec st' = nextRetrySec st
    /\ closures st' = closures st
    /\ forall t', ~ pending_timer st' t'.
Proof.
  intros st st' (tm & Htm & Hp).
  pose proof (run_inv initial evs initial_inv) as Hinv. fold st in Hinv.
  pose proof (step_inv st (TimerFired t) Hinv) as Hinv'. fold st' in Hinv'.
  destruct (inv_timer st Hinv t) as (_ & tm' & Htm' & Hlive);
    [now exists tm|].
  rewrite Htm in Htm'. injection Htm' as <-.
  destruct (live_run_config st _ Hlive) as (c & Hc & Hcfg).
  destruct Hlive as [Hcur Hcan].
  assert (st' = connect (t_run tm) (set_timers (alter clear t (timers st)) st))
    as E by (unfold st'; simpl; now rewrite Htm, Hp).
  rewrite (connect_live _ _ c) in E; [|exact Hcan|exact Hc].
  cbn [sockets set_timers] in E.
  exists (t_run tm), c, (fresh (sockets st)).
  split; [exact Hcur|]. split; [exact Hc|].
  split; [now rewrite <- (last_config_run evs)|].
  split; [apply fresh_unused|].
  split; [now rewrite E|]. split; [now rewrite E|]. split; [now rewrite E|].
  split; [now rewrite E|]. split; [now rewrite E|].
  intros t' Ht'.
  assert (attached_live st' (fresh (sockets st))) as Hw.
  { rewrite E. eexists. split; [apply lookup_insert_eq|].
    split; [reflexivity|discriminate]. }
  destruct (inv_socket st' Hinv' _ Hw) as (_ & Hno & _). exact (Hno t' Ht').
Qed.

Lemma reconnect_timer_connects_witness :
  let evs :=
    [Run "BTCUSDT" "1m" (mkPreset "1 day" (num 1440));
     Settled 1 (inr []) (num 5); SocketClose 1] in
  pending_timer (run initial evs) 1%nat
  /\ exists g c w,
       current (run initial evs) = Some g
       /\ closures (run initial evs) !! g = Some c
       /\ last_config evs = Some (c_symbol c, c_interval c, c_preset c)
       /\ sockets (run initial evs) !! w = None
       /\ sockets (step (run initial evs) (TimerFired 1))
          = <[w := mkSocket g (c_symbol c) (c_interval c) true CONNECTING]>
              (sockets (run initial evs))
       /\ wsRef (step (run initial evs) (TimerFired 1)) = Some w
       /\ connection (step (run initial evs) (TimerFired 1))
          = UseKlines.connecting
       /\ nextRetrySec (step (run initial evs) (TimerFired 1))
          = nextRetrySec (run initial evs)
       /\ closures (step (run initial evs) (TimerFired 1))
          = closures (run initial evs)
       /\ forall t', ~ pending_timer (step (run initial evs) (TimerFired 1)) t'.
Proof.
  intros evs.
  assert (pending_timer (run initial evs) 1%nat) as H.
  { eexists. split; [vm_compute; reflexivity|reflexivity]. }
  split; [exact H|]. exact (reconnect_timer_connects evs 1%nat H).
Defined.

(** X23. (useKlines.ts, [ws.onopen], then [ws.onclose]): when the socket
    whose handlers are set opens, the connection state becomes online, the
    countdown is cleared and the attempts of the run go back to zero, so
    that the next close of that socket schedules the reconnect after 2
    seconds. *)
Theorem open_resets_backoff (evs : list event) (w : nat) (s : socket) :
  let st := run initial evs in
  let st' := step st (SocketOpen w) in
  let st'' := step st' (SocketClose w) in
  sockets st !! w = Some s -> s_handlers s = true ->
  s_ready s = CONNECTING ->
  connection st' = UseKlines.online
  /\ nextRetrySec st' = None
  /\ (c_attempts <$> closures st' !! s_run s) = Some 0%nat
  /\ sockets st' !! w = Some (set_ready OPEN s)
  /\ wsRef st' = Some w
  /\ timers st'' = <[fresh (timers st) := mkTimer (s_run s) 2000 true]>
                     (timers st)
  /\ reconnectTimerRef st'' = Some (fresh (timers st))
  /\ nextRetrySec st'' = Some (num 2).
Proof.
  intros st st' st'' Hs Hh Hr.
  pose proof (run_inv initial evs initial_inv) as Hinv. fold st in Hinv.
  pose proof (step_inv st (SocketOpen w) Hinv) as Hinv'. fold st' in Hinv'.
  destruct (attached_stream st w s Hinv Hs Hh)
    as (Href & Hcur & Hcan & c & Hc & _); [rewrite Hr; discriminate|].
  pose proof (open_attached st w s Hinv Hs Hh Hr) as E. fold st' in E.
  assert (sockets st' !! w = Some (set_ready OPEN s)) as Hs'.
  { rewrite E. simpl. now rewrite lookup_alter_eq, Hs. }
  assert (closures st' !! s_run s
          = Some (mkClosure (c_symbol c) (c_interval c) (c_preset c)
                    (c_cancelled c) 0)) as Hc'.
  { rewrite E. simpl. now rewrite lookup_alter_eq, Hc. }
  assert (timers st' = timers st) as Ht by now rewrite E.
  destruct (close_attached st' w (set_ready OPEN s) Hinv' Hs' Hh)
    as (c' & Hc'' & E'); [discriminate|].
  fold st'' in E'. simpl s_run in Hc'', E'. rewrite Hc' in Hc''.
  injection Hc'' as <-. cbv zeta in E'. simpl c_attempts in E'.
  rewrite Ht in E'.
  split; [now rewrite E|]. split; [now rewrite E|].
  split; [now rewrite Hc'|]. split; [exact Hs'|].
  split; [now rewrite E|].
  split; [now rewrite E'|]. split; [now rewrite E'|]. now rewrite E'.
Qed.

Lemma open_resets_backoff_witness :
  let st :=
    run initial
      [Run "BTCUSDT" "1m" (mkPreset "1 day" (num 1440));
       Settled 1 (inr []) (num 5); SocketClose 1; TimerFired 1] in
  nextRetrySec st = Some (num 2)
  /\ connection (step st (SocketOpen 2)) = UseKlines.online
  /\ nextRetrySec (step st (SocketOpen 2)) = None.
Proof.
  intros st.
  destruct (open_resets_backoff
              [Run "BTCUSDT" "1m" (mkPreset "1 day" (num 1440));
               Settled 1 (inr []) (num 5); SocketClose 1; TimerFired 1]
              2%nat (mkSocket 1 "BTCUSDT" "1m" true CONNECTING))
    as (H1 & H2 & _).
  - vm_compute. reflexivity.
  - reflexivity.
  - reflexivity.
  - split; [vm_compute; reflexivity|]. split; [exact H1|exact H2].
Defined.

Section SessionRestarts.
Implicit Types (st : state) (g w t : nat).

Lemma bootstrap_hist g st :
  hist (bootstrap g st)
  = snd (UseKlines.loadHistory_begin
           (UseKlines.setCandles [] (abort_history (hist st)))).
Proof.
  destruct (cleanup_fields st) as (_ & _ & _ & _ & _ & _ & Hh).
  unfold bootstrap. cbv zeta. unfold UseKlines.loadHistory_begin.
  cbn [hist set_awaiting set_hist setConnection snd]. now rewrite Hh.
Qed.

Lemma dispose_current_hist st :
  hist (dispose_current st) = hist st
  \/ hist (dispose_current st) = abort_history (hist st).
Proof.
  unfold dispose_current. destruct (current st) as [g|]; [|now left].
  destruct (cancelled g st); [now left|]. right.
  unfold effect_cleanup. cbn [hist setNextRetrySec].
  now destruct (cleanup_fields (set_cancelled g st))
    as (_ & _ & _ & _ & _ & _ & ->).
Qed.

Lemma abort_history_twice (h : UseKlines.history) :
  abort_history (abort_history h) = abort_history h.
Proof. reflexivity. Qed.

End SessionRestarts.

(** X24. (useKlines.ts, the effect body and [bootstrap]): a run of the
    effect, on mount or when the symbol, the interval or the preset
    changes, empties the candles at once, aborts the history request in
    [historyAbortRef], starts a new request with the next id, sets the
    connection state to connecting, and leaves no socket able to call a
    handler and no reconnect pending; the new run is the only one not
    cancelled and its bootstrap waits for the new request. *)
Theorem effect_run_restarts (evs : list event) (symbol interval : string)
    (preset : HistoryPreset) :
  let st := run initial evs in
  let st' := step st (Run symbol interval preset) in
  let id := UseKlines.requestIdRef (hist st) + 1 in
  UseKlines.candles (hist st') = []
  /\ UseKlines.historyLoading (hist st') = true
  /\ UseKlines.error (hist st') = None
  /\ UseKlines.requestIdRef (hist st') = id
  /\ UseKlines.historyAbortRef (hist st') = Some id
  /\ UseKlines.aborted (hist st')
     = match UseKlines.historyAbortRef (hist st) with
       | Some c => c :: UseKlines.aborted (hist st)
       | None => UseKlines.aborted (hist st)
       end
  /\ connection st' = UseKlines.connecting
  /\ wsRef st' = None /\ reconnectTimerRef st' = None
  /\ unlinked st'
  /\ exists g,
       current st' = Some g
       /\ closures st' !! g = Some (mkClosure symbol interval preset false 0)
       /\ (forall g', cancelled g' st' = false -> g' = g)
       /\ (id, g) ∈ awaiting st'.
Proof.
  intros st st' id.
  pose proof (run_inv initial evs initial_inv) as Hinv. fold st in Hinv.
  pose proof (step_inv st (Run symbol interval preset) Hinv) as Hinv'.
  fold st' in Hinv'.
  destruct (run_not_cancelled st symbol interval preset)
    as (Hcl & Hcur & Hcan).
  fold st' in Hcl, Hcur, Hcan.
  set (g := fresh (closures (dispose_current st))) in *.
  set (st2 := set_closures
                (<[g := mkClosure symbol interval preset false 0]>
                   (closures (dispose_current st))) (dispose_current st)).
  assert (st' = bootstrap g st2) as E by reflexivity.
  destruct (bootstrap_fields g st2)
    as (_ & _ & _ & Hws & Hrt & Haw & _ & Hconn & _).
  rewrite <- E in Hws, Hrt, Haw, Hconn.
  pose proof (bootstrap_hist g st2) as Hh. rewrite <- E in Hh.
  change (hist st2) with (hist (dispose_current st)) in Hh, Haw.
  assert (UseKlines.requestIdRef (hist (dispose_current st))
          = UseKlines.requestIdRef (hist st)) as Hid
    by (destruct (dispose_current_hist st) as [-> | ->]; reflexivity).
  assert ((id, g) ∈ awaiting st') as Hin
    by (rewrite Haw, Hid; apply list_elem_of_here).
  rewrite Hh.
  destruct (dispose_current_hist st) as [-> | ->];
    (repeat (split; [reflexivity || assumption|]));
    (split; [exact (inv_await st' Hinv' id g Hin Hcan)|]);
    exists g; (split; [exact Hcur|]);
    (split; [now rewrite Hcl, lookup_insert_eq|]);
    (split; [|exact Hin]);
    intros g' Hg';
    pose proof (base_runs st' (inv_base st' Hinv') g' Hg'); congruence.
Qed.

(** X25. (useKlines.ts, [ws.onerror]): an error on the socket whose
    handlers are set puts the connection state to error and closes the
    socket, and nothing more: no reconnect is scheduled by the error
    itself, the handlers stay set, and it is the close event that follows
    which schedules the reconnect. *)
Theorem error_waits_for_close (evs : list event) (w : nat) :
  let st := run initial evs in
  let st' := step st (SocketError w) in
  attached_live st w ->
  connection st' = UseKlines.error_
  /\ (exists s', sockets st' !! w = Some s'
                 /\ s_handlers s' = true /\ s_ready s' = CLOSING)
  /\ wsRef st' = Some w
  /\ timers st' = timers st
  /\ reconnectTimerRef st' = reconnectTimerRef st
  /\ nextRetrySec st' = nextRetrySec st
  /\ exists t, reconnectTimerRef (step st' (SocketClose w)) = Some t
               /\ pending_timer (step st' (SocketClose w)) t.
Proof.
  intros st st' (s & Hs & Hh & Hr).
  pose proof (run_inv initial evs initial_inv) as Hinv. fold st in Hinv.
  pose proof (step_inv st (SocketError w) Hinv) as Hinv'. fold st' in Hinv'.
  destruct (attached_stream st w s Hinv Hs Hh Hr) as (Href & _).
  assert (st' = onerror w
                  (set_sockets
                     (alter (set_ready (s_ready s)) w (sockets st)) st))
    as E.
  { unfold st'. simpl. rewrite (dispatch_attached _ _ _ _ st s Hs Hh);
      [reflexivity|].
    destruct (s_ready s) eqn:E0; try reflexivity. now destruct Hr. }
  unfold onerror in E.
  assert (sockets st' !! w
          = Some (close_socket (set_ready (s_ready s) s))) as Hs'.
  { rewrite E. simpl. now rewrite !lookup_alter_eq, Hs. }
  assert (s_ready (close_socket (set_ready (s_ready s) s)) = CLOSING) as Hr'.
  { simpl. destruct (s_ready s) eqn:E0; try reflexivity. now destruct Hr. }
  split; [now rewrite E|]. split.
  { eexists. split; [exact Hs'|]. split; [exact Hh|exact Hr']. }
  split; [now rewrite E|]. split; [now rewrite E|].
  split; [now rewrite E|]. split; [now rewrite E|].
  destruct (close_attached st' w _ Hinv' Hs' Hh) as (c & _ & E');
    [rewrite Hr'; discriminate|].
  cbv zeta in E'. rewrite E'. eexists. split; [reflexivity|].
  eexists. split; [apply lookup_insert_eq|reflexivity].
Qed.

Lemma error_waits_for_close_witness :
  let st :=
    run initial
      [Run "BTCUSDT" "1m" (mkPreset "1 day" (num 1440));
       Settled 1 (inr []) (num 5)] in
  attached_live st 1%nat
  /\ connection (step st (SocketError 1)) = UseKlines.error_.
Proof.
  intros st.
  assert (attached_live st 1%nat) as H.
  { eexists. split; [vm_compute; reflexivity|].
    split; [reflexivity|discriminate]. }
  split; [exact H|].
  exact (proj1 (error_waits_for_close
                  [Run "BTCUSDT" "1m" (mkPreset "1 day" (num 1440));
                   Settled 1 (inr []) (num 5)] 1%nat H)).
Defined.


